(** * go-stl: BST, TreeMap, Trie and Graph

    A shallow embedding of the four core containers of the [stl] package
    (the BST, the TreeMap, the Trie and the Graph, with the part of the
    Set that the Graph calls) and the properties of their specification.

    Conventions of the embedding:
    - a Go [int] is a [Z]; the counters of the package count nodes that
      are allocated on the heap, so they stay far below [2^63] and the
      wrap-around of the machine integer is never reached;
    - a nilable node pointer is an inductive tree with a [Nil] leaf; the
      trees are exclusively owned (no node is reachable along two paths),
      so in-place mutation is modelled by returning the rebuilt node;
    - a field mutated by a helper ([Size], [visited], [result]) is threaded
      through the helper explicitly;
    - a Go map is a [gmap], a [map[T]bool] that is only read with
      [m[k]] is a [gset]; the order of a [range] over a map, which Go
      leaves unspecified, is a parameter of the function that ranges;
    - a recursion that Go bounds only by the call stack takes a [fuel]
      and returns [None] when it is exhausted. *)

From stdpp Require Import base numbers option list gmap sets relations sorting.
From Stdlib Require Import ZArith Lia Strings.Byte.

Local Open Scope Z_scope.

Set Warnings "-clear-no-such-hyp".

(* ===================================================================== *)
(** * Binary search tree (bst.go)                                        *)
(* ===================================================================== *)

Module BST.

Section Defs.
Context {T : Type} `{EqDecision T}.

(** [BSTNode[T]]: a nil pointer is [Nil]. *)
Inductive BSTNode : Type :=
| Nil : BSTNode
| Node (Value : T) (Left Right : BSTNode) : BSTNode.

(** [BST[T]] *)
Record BST : Type := mkBST {
  Root : BSTNode;
  Less : T -> T -> bool;
  Size : Z
}.

(** What a lookup that dereferences its result can do: [Select] returns
    [(zero, false)] out of range, and otherwise reads [result.Value],
    which panics when [selectRecursive] returned nil. *)
Inductive Lookup : Type :=
| Found (v : T)
| NotFound
| NilDeref.

Definition NewBST (less : T -> T -> bool) : BST :=
  {| Root := Nil; Less := less; Size := 0 |}.

(** [insertRecursive]; the second component is [bst.Size] afterwards. *)
Fixpoint insertRecursive (less : T -> T -> bool) (size : Z)
    (node : BSTNode) (value : T) : BSTNode * Z :=
  match node with
  | Nil => (Node value Nil Nil, size + 1)
  | Node v l r =>
      if less value v then
        let '(l', size') := insertRecursive less size l value in
        (Node v l' r, size')
      else if less v value then
        let '(r', size') := insertRecursive less size r value in
        (Node v l r', size')
      else (Node v l r, size)
  end.

Definition Insert (bst : BST) (value : T) : BST :=
  let '(root, size) := insertRecursive (Less bst) (Size bst) (Root bst) value in
  {| Root := root; Less := Less bst; Size := size |}.

Definition NewBSTFromSlice (slice : list T) (less : T -> T -> bool) : BST :=
  fold_left Insert slice (NewBST less).

(** [searchRecursive], returning whether the node it returns is non-nil. *)
Fixpoint searchRecursive (less : T -> T -> bool) (node : BSTNode) (value : T) : bool :=
  match node with
  | Nil => false
  | Node v l r =>
      if decide (v = value) then true
      else if less value v then searchRecursive less l value
      else searchRecursive less r value
  end.

Definition Search (bst : BST) (value : T) : bool :=
  searchRecursive (Less bst) (Root bst) value.

(** [findMinValue] is only called on a non-nil node; [d] stands for the
    value of the node the loop starts from. *)
Fixpoint findMinValue (d : T) (left : BSTNode) : T :=
  match left with
  | Nil => d
  | Node v l _ => findMinValue v l
  end.

Fixpoint findMaxValue (d : T) (right : BSTNode) : T :=
  match right with
  | Nil => d
  | Node v _ r => findMaxValue v r
  end.

Fixpoint deleteRecursive (less : T -> T -> bool) (node : BSTNode) (value : T) : BSTNode :=
  match node with
  | Nil => Nil
  | Node v l r =>
      if less value v then Node v (deleteRecursive less l value) r
      else if less v value then Node v l (deleteRecursive less r value)
      else
        match l, r with
        | Nil, _ => r
        | _, Nil => l
        | _, Node rv rl _ =>
            let m := findMinValue rv rl in
            Node m l (deleteRecursive less r m)
        end
  end.

Definition Delete (bst : BST) (value : T) : BST * bool :=
  if Search bst value then
    ({| Root := deleteRecursive (Less bst) (Root bst) value;
        Less := Less bst;
        Size := Size bst - 1 |}, true)
  else (bst, false).

Definition Clear (bst : BST) : BST :=
  {| Root := Nil; Less := Less bst; Size := 0 |}.

Fixpoint sizeOf (node : BSTNode) : Z :=
  match node with
  | Nil => 0
  | Node _ l r => 1 + sizeOf l + sizeOf r
  end.

Fixpoint rankRecursive (less : T -> T -> bool) (node : BSTNode) (value : T) : Z :=
  match node with
  | Nil => 0
  | Node v l r =>
      if less value v then rankRecursive less l value
      else if less v value then 1 + sizeOf l + rankRecursive less r value
      else sizeOf l
  end.

Definition Rank (bst : BST) (value : T) : Z :=
  rankRecursive (Less bst) (Root bst) value.

(** [selectRecursive]: [None] is the nil node. *)
Fixpoint selectRecursive (node : BSTNode) (rank : Z) : option T :=
  match node with
  | Nil => None
  | Node v l r =>
      let leftSize := sizeOf l in
      if rank <? leftSize then selectRecursive l rank
      else if rank >? leftSize then selectRecursive r (rank - leftSize - 1)
      else Some v
  end.

Definition Select (bst : BST) (rank : Z) : Lookup :=
  if (rank <? 0) || (rank >=? Size bst) then NotFound
  else match selectRecursive (Root bst) rank with
       | Some v => Found v
       | None => NilDeref
       end.

(** [heightRecursive]; [math.Max] on the [float64] images of two small
    integers is their integer maximum. *)
Fixpoint heightRecursive (node : BSTNode) : Z :=
  match node with
  | Nil => -1
  | Node _ l r => 1 + Z.max (heightRecursive l) (heightRecursive r)
  end.

Definition Height (bst : BST) : Z := heightRecursive (Root bst).

Definition abs (x : Z) : Z := if x <? 0 then - x else x.

Fixpoint isBalancedRecursive (node : BSTNode) : Z :=
  match node with
  | Nil => 0
  | Node _ l r =>
      let leftHeight := isBalancedRecursive l in
      if leftHeight =? -1 then -1
      else
        let rightHeight := isBalancedRecursive r in
        if rightHeight =? -1 then -1
        else if abs (leftHeight - rightHeight) >? 1 then -1
        else 1 + Z.max leftHeight rightHeight
  end.

Definition IsBalanced (bst : BST) : bool :=
  negb (isBalancedRecursive (Root bst) =? -1).

(** The traversals append to [*result]. *)
Fixpoint inOrderRecursive (node : BSTNode) (result : list T) : list T :=
  match node with
  | Nil => result
  | Node v l r => inOrderRecursive r (inOrderRecursive l result ++ [v])
  end.

Definition InOrder (bst : BST) : list T := inOrderRecursive (Root bst) [].

Fixpoint preOrderRecursive (node : BSTNode) (result : list T) : list T :=
  match node with
  | Nil => result
  | Node v l r => preOrderRecursive r (preOrderRecursive l (result ++ [v]))
  end.

Definition PreOrder (bst : BST) : list T := preOrderRecursive (Root bst) [].

(** The loop of [LevelOrder]: the queue holds non-nil nodes only. Each
    round removes one node of the tree from the queue, so [fuel] rounds
    are enough for a tree of [fuel] nodes. *)
Fixpoint levelOrderLoop (fuel : nat) (queue : list BSTNode) (result : list T)
    : option (list T) :=
  match queue with
  | [] => Some result
  | node :: queue =>
      match fuel with
      | O => None
      | S fuel =>
          match node with
          | Nil => None
          | Node v l r =>
              let queue := match l with Nil => queue | _ => queue ++ [l] end in
              let queue := match r with Nil => queue | _ => queue ++ [r] end in
              levelOrderLoop fuel queue (result ++ [v])
          end
      end
  end.

Definition LevelOrder (bst : BST) : option (list T) :=
  match Root bst with
  | Nil => Some []
  | root => levelOrderLoop (Z.to_nat (sizeOf root)) [root] []
  end.

(** [cloneRecursive] inserts the values into [result] in in-order. *)
Fixpoint cloneRecursive (node : BSTNode) (result : BST) : BST :=
  match node with
  | Nil => result
  | Node v l r => cloneRecursive r (Insert (cloneRecursive l result) v)
  end.

Definition Clone (bst : BST) : BST :=
  cloneRecursive (Root bst) (NewBST (Less bst)).

(** The loop of [Equals]: [values2[i]] panics ([None]) when [values2] is
    shorter than [values1]. *)
Fixpoint equalsLoop (values1 values2 : list T) : option bool :=
  match values1 with
  | [] => Some true
  | x :: values1 =>
      match values2 with
      | [] => None
      | y :: values2 =>
          if decide (x = y) then equalsLoop values1 values2 else Some false
      end
  end.

Definition Equals (bst other : BST) : option bool :=
  if decide (Size bst = Size other) then equalsLoop (InOrder bst) (InOrder other)
  else Some false.

Definition IsEmpty (bst : BST) : bool := Size bst =? 0.

(** [Min] and [Max] call [findMinValue] and [findMaxValue] on [bst.Root],
    which reads [current.Left] and panics on a nil root. *)
Definition Min (bst : BST) : Lookup :=
  if IsEmpty bst then NotFound
  else match Root bst with
       | Nil => NilDeref
       | Node v l _ => Found (findMinValue v l)
       end.

Definition Max (bst : BST) : Lookup :=
  if IsEmpty bst then NotFound
  else match Root bst with
       | Nil => NilDeref
       | Node v _ r => Found (findMaxValue v r)
       end.

(** [floorRecursive] and [ceilingRecursive]: the value of the node they
    return, [None] for nil. *)
Fixpoint floorRecursive (less : T -> T -> bool) (node : BSTNode) (value : T) : option T :=
  match node with
  | Nil => None
  | Node v l r =>
      if decide (v = value) then Some v
      else if less value v then floorRecursive less l value
      else match floorRecursive less r value with
           | Some floor => Some floor
           | None => Some v
           end
  end.

(** [Floor]: [None] is [(zero, false)]. *)
Definition Floor (bst : BST) (value : T) : option T :=
  floorRecursive (Less bst) (Root bst) value.

Fixpoint ceilingRecursive (less : T -> T -> bool) (node : BSTNode) (value : T) : option T :=
  match node with
  | Nil => None
  | Node v l r =>
      if decide (v = value) then Some v
      else if less v value then ceilingRecursive less r value
      else match ceilingRecursive less l value with
           | Some ceiling => Some ceiling
           | None => Some v
           end
  end.

Definition Ceiling (bst : BST) (value : T) : option T :=
  ceilingRecursive (Less bst) (Root bst) value.

Fixpoint postOrderRecursive (node : BSTNode) (result : list T) : list T :=
  match node with
  | Nil => result
  | Node v l r => postOrderRecursive r (postOrderRecursive l result) ++ [v]
  end.

Definition PostOrder (bst : BST) : list T := postOrderRecursive (Root bst) [].

(** [filterRecursive] inserts the values that satisfy the predicate into
    [result], in in-order. *)
Fixpoint filterRecursive (node : BSTNode) (predicate : T -> bool) (result : BST) : BST :=
  match node with
  | Nil => result
  | Node v l r =>
      let result := filterRecursive l predicate result in
      let result := if predicate v then Insert result v else result in
      filterRecursive r predicate result
  end.

Definition Filter (bst : BST) (predicate : T -> bool) : BST :=
  filterRecursive (Root bst) predicate (NewBST (Less bst)).

Fixpoint rangeRecursive (less : T -> T -> bool) (node : BSTNode) (min max : T)
    (result : list T) : list T :=
  match node with
  | Nil => result
  | Node v l r =>
      let result := if less min v then rangeRecursive less l min max result
                    else result in
      let result := if negb (less v min) && negb (less max v) then result ++ [v]
                    else result in
      if less v max then rangeRecursive less r min max result else result
  end.

Definition Range (bst : BST) (min max : T) : list T :=
  rangeRecursive (Less bst) (Root bst) min max [].

(** The loop of [Successor]: [successor] is the value of the node the
    variable [successor] points to, [None] for nil. When the value is
    found and has no right subtree, [current] is set to nil and the loop
    ends. *)
Fixpoint successorLoop (less : T -> T -> bool) (current : BSTNode) (value : T)
    (successor : option T) : option T :=
  match current with
  | Nil => successor
  | Node v l r =>
      if less v value then successorLoop less r value successor
      else if less value v then successorLoop less l value (Some v)
      else match r with
           | Nil => successor
           | Node rv rl _ => Some (findMinValue rv rl)
           end
  end.

(** [Successor]: [None] is [(zero, false)]. *)
Definition Successor (bst : BST) (value : T) : option T :=
  successorLoop (Less bst) (Root bst) value None.

Fixpoint predecessorLoop (less : T -> T -> bool) (current : BSTNode) (value : T)
    (predecessor : option T) : option T :=
  match current with
  | Nil => predecessor
  | Node v l r =>
      if less value v then predecessorLoop less l value predecessor
      else if less v value then predecessorLoop less r value (Some v)
      else match l with
           | Nil => predecessor
           | Node lv _ lr => Some (findMaxValue lv lr)
           end
  end.

Definition Predecessor (bst : BST) (value : T) : option T :=
  predecessorLoop (Less bst) (Root bst) value None.

End Defs.

Arguments BSTNode : clear implicits.
Arguments BST : clear implicits.
Arguments Lookup : clear implicits.

End BST.

(* ===================================================================== *)
(** * Ordered map (treemap.go)                                           *)
(* ===================================================================== *)

Module TreeMap.

Section Defs.
Context {K V : Type}.

Inductive TreeMapNode : Type :=
| Nil : TreeMapNode
| Node (Key : K) (Value : V) (Left Right : TreeMapNode) : TreeMapNode.

Record TreeMap : Type := mkTreeMap {
  root : TreeMapNode;
  size : Z;
  less : K -> K -> bool
}.

Definition NewTreeMap (less : K -> K -> bool) : TreeMap :=
  {| root := Nil; size := 0; less := less |}.

(** [putRecursive]; the second component is [tm.size] afterwards. *)
Fixpoint putRecursive (less : K -> K -> bool) (size : Z)
    (node : TreeMapNode) (key : K) (value : V) : TreeMapNode * Z :=
  match node with
  | Nil => (Node key value Nil Nil, size + 1)
  | Node k v l r =>
      if less key k then
        let '(l', size') := putRecursive less size l key value in
        (Node k v l' r, size')
      else if less k key then
        let '(r', size') := putRecursive less size r key value in
        (Node k v l r', size')
      else (Node k value l r, size)
  end.

Definition Put (tm : TreeMap) (key : K) (value : V) : TreeMap :=
  let '(root', size') := putRecursive (less tm) (size tm) (root tm) key value in
  {| root := root'; size := size'; less := less tm |}.

(** [getNode]: the loop descends from [tm.root]; the result is the pair
    stored in the node it stops at, [None] for nil. *)
Fixpoint getNode (less : K -> K -> bool) (current : TreeMapNode) (key : K)
    : option (K * V) :=
  match current with
  | Nil => None
  | Node k v l r =>
      if less key k then getNode less l key
      else if less k key then getNode less r key
      else Some (k, v)
  end.

(** [Get]: [None] is [(zero, false)]. *)
Definition Get (tm : TreeMap) (key : K) : option V :=
  snd <$> getNode (less tm) (root tm) key.

Definition ContainsKey (tm : TreeMap) (key : K) : bool :=
  bool_decide (is_Some (getNode (less tm) (root tm) key)).

Definition Size (tm : TreeMap) : Z := size tm.

Fixpoint sizeOf (node : TreeMapNode) : Z :=
  match node with
  | Nil => 0
  | Node _ _ l r => 1 + sizeOf l + sizeOf r
  end.

(** [Keys] and [Entries]: the in-order traversal. *)
Fixpoint inOrderTraversal (node : TreeMapNode) : list (K * V) :=
  match node with
  | Nil => []
  | Node k v l r => inOrderTraversal l ++ (k, v) :: inOrderTraversal r
  end.

Definition Entries (tm : TreeMap) : list (K * V) := inOrderTraversal (root tm).
Definition Keys (tm : TreeMap) : list K := (Entries tm).*1.

Definition IsEmpty (tm : TreeMap) : bool := size tm =? 0.

(** [minNode] is only called on a non-nil node; [d] stands for the pair
    of the node the loop starts from. *)
Fixpoint minNode (d : K * V) (left : TreeMapNode) : K * V :=
  match left with
  | Nil => d
  | Node k v l _ => minNode (k, v) l
  end.

Fixpoint removeRecursive (less : K -> K -> bool) (node : TreeMapNode) (key : K)
    : TreeMapNode :=
  match node with
  | Nil => Nil
  | Node k v l r =>
      if less key k then Node k v (removeRecursive less l key) r
      else if less k key then Node k v l (removeRecursive less r key)
      else
        match l, r with
        | Nil, _ => r
        | _, Nil => l
        | _, Node rk rv rl _ =>
            let successor := minNode (rk, rv) rl in
            Node successor.1 successor.2 l (removeRecursive less r successor.1)
        end
  end.

Definition Remove (tm : TreeMap) (key : K) : TreeMap * bool :=
  if ContainsKey tm key then
    ({| root := removeRecursive (less tm) (root tm) key;
        size := size tm - 1;
        less := less tm |}, true)
  else (tm, false).

(** [lowerRecursive] and [higherRecursive]: the pair of the node they
    return, [None] for nil. *)
Fixpoint lowerRecursive (less : K -> K -> bool) (node : TreeMapNode) (key : K)
    : option (K * V) :=
  match node with
  | Nil => None
  | Node k v l r =>
      if less k key then
        match lowerRecursive less r key with
        | Some lower => Some lower
        | None => Some (k, v)
        end
      else lowerRecursive less l key
  end.

(** [Lower]: [None] is [(zero, zero, false)]. *)
Definition Lower (tm : TreeMap) (key : K) : option (K * V) :=
  lowerRecursive (less tm) (root tm) key.

Fixpoint higherRecursive (less : K -> K -> bool) (node : TreeMapNode) (key : K)
    : option (K * V) :=
  match node with
  | Nil => None
  | Node k v l r =>
      if less key k then
        match higherRecursive less l key with
        | Some higher => Some higher
        | None => Some (k, v)
        end
      else higherRecursive less r key
  end.

Definition Higher (tm : TreeMap) (key : K) : option (K * V) :=
  higherRecursive (less tm) (root tm) key.

End Defs.

Arguments TreeMapNode : clear implicits.
Arguments TreeMap : clear implicits.

End TreeMap.

(* ===================================================================== *)
(** * Go strings                                                         *)
(* ===================================================================== *)

(** A Go string is a sequence of bytes. [word[i]] and [len(word)] index
    and count bytes; [for _, char := range word] walks the runes that the
    bytes encode in UTF-8, and yields U+FFFD for a byte that starts no
    valid encoding, advancing by one byte. *)
Module GoString.

Definition runeError : Z := 0xFFFD.

Definition byteVal (b : byte) : Z := Z.of_N (Byte.to_N b).

(** The conversion [rune(word[index])] of one byte. *)
Definition runeOfByte (b : byte) : Z := byteVal b.

(** A continuation byte, [0x80..0xBF]. *)
Definition isCont (b : byte) : bool :=
  (0x80 <=? byteVal b) && (byteVal b <=? 0xBF).

Definition contBits (b : byte) : Z := Z.land (byteVal b) 0x3F.

(** The runes of [range s]. *)
Fixpoint runes (s : list byte) : list Z :=
  match s with
  | [] => []
  | b0 :: t0 =>
      let c0 := byteVal b0 in
      let invalid := runeError :: runes t0 in
      if c0 <? 0x80 then c0 :: runes t0
      else if (0xC0 <=? c0) && (c0 <? 0xE0) then
        match t0 with
        | b1 :: t1 =>
            let r := Z.lor (Z.shiftl (Z.land c0 0x1F) 6) (contBits b1) in
            if isCont b1 && (0x7F <? r) then r :: runes t1 else invalid
        | _ => invalid
        end
      else if (0xE0 <=? c0) && (c0 <? 0xF0) then
        match t0 with
        | b1 :: b2 :: t2 =>
            let r := Z.lor (Z.lor (Z.shiftl (Z.land c0 0x0F) 12)
                                  (Z.shiftl (contBits b1) 6)) (contBits b2) in
            if isCont b1 && isCont b2 && (0x7FF <? r)
               && negb ((0xD800 <=? r) && (r <=? 0xDFFF))
            then r :: runes t2 else invalid
        | _ => invalid
        end
      else if (0xF0 <=? c0) && (c0 <? 0xF8) then
        match t0 with
        | b1 :: b2 :: b3 :: t3 =>
            let r := Z.lor (Z.lor (Z.lor (Z.shiftl (Z.land c0 0x07) 18)
                                         (Z.shiftl (contBits b1) 12))
                                  (Z.shiftl (contBits b2) 6)) (contBits b3) in
            if isCont b1 && isCont b2 && isCont b3
               && (0xFFFF <? r) && (r <=? 0x10FFFF)
            then r :: runes t3 else invalid
        | _ => invalid
        end
      else invalid
  end.

(** The runes [deleteRecursive] reads: one per byte. *)
Definition byteRunes (s : list byte) : list Z := runeOfByte <$> s.

Definition isASCII (s : list byte) : bool :=
  forallb (fun b => byteVal b <? 0x80) s.

End GoString.

(* ===================================================================== *)
(** * Prefix tree (Trie)                                                 *)
(* ===================================================================== *)

Module Trie.

Import GoString.

Section Defs.
(** [V] stands for the dynamic type of the values stored in
    [interface{}]; [None] is the nil interface. *)
Context {V : Type}.

#[local] Set Warnings "-register-all".

Inductive TrieNode : Type := mkNode {
  children : gmap Z TrieNode;
  isEnd : bool;
  value : option V
}.

Record Trie : Type := mkTrie {
  root : TrieNode;
  size : Z
}.

Definition newNode : TrieNode :=
  {| children := ∅; isEnd := false; value := None |}.

Definition NewTrie : Trie := {| root := newNode; size := 0 |}.

(** The walk of [InsertWithValue] along the runes of the word, creating
    the missing children; the boolean is [current.isEnd] as it was at the
    last node before it is set. *)
Fixpoint insertWalk (current : TrieNode) (word : list Z) (v : option V)
    : TrieNode * bool :=
  match word with
  | [] => ({| children := children current; isEnd := true; value := v |},
           isEnd current)
  | char :: word =>
      let child := match children current !! char with
                   | None => newNode
                   | Some child => child
                   end in
      let '(child', wasEnd) := insertWalk child word v in
      ({| children := <[char := child']> (children current);
          isEnd := isEnd current; value := value current |}, wasEnd)
  end.

Definition InsertWithValue (t : Trie) (word : list byte) (v : option V) : Trie :=
  let '(root', wasEnd) := insertWalk (root t) (runes word) v in
  {| root := root'; size := if wasEnd then size t else size t + 1 |}.

Definition Insert (t : Trie) (word : list byte) : Trie :=
  InsertWithValue t word None.

Definition NewTrieFromSlice (words : list (list byte)) : Trie :=
  fold_left Insert words NewTrie.

(** [searchNode] along the runes of the word; [None] is nil. *)
Fixpoint searchWalk (current : TrieNode) (word : list Z) : option TrieNode :=
  match word with
  | [] => Some current
  | char :: word =>
      match children current !! char with
      | None => None
      | Some child => searchWalk child word
      end
  end.

Definition searchNode (t : Trie) (word : list byte) : option TrieNode :=
  searchWalk (root t) (runes word).

Definition Search (t : Trie) (word : list byte) : bool :=
  match searchNode t word with
  | Some node => isEnd node
  | None => false
  end.

Definition StartsWith (t : Trie) (prefix : list byte) : bool :=
  bool_decide (is_Some (searchNode t prefix)).

(** [deleteRecursive(node, word, index)]: [rest] is [word[index:]], so
    [index == len(word)] is [rest = []] and [word[index]] is its head,
    one byte, converted to a rune. The result is the node after the
    call, [t.size] after the call, and the boolean the call returns. *)
Fixpoint deleteRecursive (sz : Z) (node : TrieNode) (rest : list byte)
    : TrieNode * Z * bool :=
  match rest with
  | [] =>
      if isEnd node then
        ({| children := children node; isEnd := false; value := None |},
         sz - 1,
         bool_decide (base.size (children node) = 0%nat))
      else (node, sz, false)
  | b :: rest =>
      let char := runeOfByte b in
      match children node !! char with
      | None => (node, sz, false)
      | Some child =>
          let '(child', sz', shouldDeleteChild) := deleteRecursive sz child rest in
          if shouldDeleteChild then
            let children' := delete char (children node) in
            ({| children := children'; isEnd := isEnd node; value := value node |},
             sz',
             negb (isEnd node) && bool_decide (base.size children' = 0%nat))
          else
            ({| children := <[char := child']> (children node);
                isEnd := isEnd node; value := value node |},
             sz', false)
      end
  end.

Definition Delete (t : Trie) (word : list byte) : Trie * bool :=
  let '(root', sz', b) := deleteRecursive (size t) (root t) word in
  ({| root := root'; size := sz' |}, b).

Definition Size (t : Trie) : Z := size t.

(** [SearchWithValue]: the value and the found flag; [(None, false)] is
    [(nil, false)]. *)
Definition SearchWithValue (t : Trie) (word : list byte) : option V * bool :=
  match searchNode t word with
  | Some node => if isEnd node then (value node, true) else (None, false)
  | None => (None, false)
  end.

Definition IsEmpty (t : Trie) : bool := size t =? 0.

Definition Clear (t : Trie) : Trie := {| root := newNode; size := 0 |}.

End Defs.

Arguments TrieNode : clear implicits.
Arguments Trie : clear implicits.

End Trie.

(* ===================================================================== *)
(** * Hash set (set.go), as far as graph.go uses it                      *)
(* ===================================================================== *)

Module GoSet.

Section Defs.
Context {T : Type} `{Countable T}.

(** [Set[T]]: the keys of [data map[T]struct{}]. *)
Definition NewSet : gset T := ∅.

Definition Add (s : gset T) (element : T) : gset T := {[element]} ∪ s.

Definition NewSetFromSlice (slice : list T) : gset T :=
  fold_left Add slice NewSet.

Definition Contains (s : gset T) (element : T) : bool :=
  bool_decide (element ∈ s).

Definition Size (s : gset T) : nat := size s.

(** [IsSubset] returns false at the first element that [other] lacks,
    and true when the range ends: the order of the range is immaterial. *)
Definition IsSubset (s other : gset T) : bool :=
  forallb (Contains other) (elements s).

Definition Equals (s other : gset T) : bool :=
  if decide (Size s = Size other) then IsSubset s other else false.

End Defs.

End GoSet.

(* ===================================================================== *)
(** * Adjacency-list graph (graph.go)                                    *)
(* ===================================================================== *)

Module Graph.

Section Defs.
Context {T : Type} `{Countable T}.
(** The zero value of [T], which [parent[current]] yields for a missing key. *)
Context (zero : T).

Record Graph : Type := mkGraph {
  adjacency : gmap T (list T);
  directed : bool
}.

Definition NewGraph (directed : bool) : Graph :=
  {| adjacency := ∅; directed := directed |}.

Definition AddNode (g : Graph) (node : T) : Graph :=
  match adjacency g !! node with
  | Some _ => g
  | None => {| adjacency := <[node := []]> (adjacency g); directed := directed g |}
  end.

(** [g.adjacency[k] = append(g.adjacency[k], x)]; a missing key reads as
    the nil slice. *)
Definition appendTo (adj : gmap T (list T)) (k x : T) : gmap T (list T) :=
  <[k := default [] (adj !! k) ++ [x]]> adj.

Definition AddEdge (g : Graph) (from to : T) : Graph :=
  let g := AddNode (AddNode g from) to in
  let adj := appendTo (adjacency g) from to in
  let adj := if directed g then adj else appendTo adj to from in
  {| adjacency := adj; directed := directed g |}.

Definition NewGraphFromEdges (edges : list (T * T)) (directed : bool) : Graph :=
  fold_left (fun g e => AddEdge g e.1 e.2) edges (NewGraph directed).

(** The loop of [RemoveEdge] over one list: the list without the first
    entry equal to [x], or [None] when the loop ends without a match. *)
Fixpoint removeFirst (x : T) (neighbors : list T) : option (list T) :=
  match neighbors with
  | [] => None
  | neighbor :: rest =>
      if decide (neighbor = x) then Some rest
      else cons neighbor <$> removeFirst x rest
  end.

Definition removeFrom (adj : gmap T (list T)) (k x : T) : gmap T (list T) :=
  match adj !! k with
  | Some neighbors =>
      match removeFirst x neighbors with
      | Some neighbors' => <[k := neighbors']> adj
      | None => adj
      end
  | None => adj
  end.

Definition RemoveEdge (g : Graph) (from to : T) : Graph :=
  let adj := removeFrom (adjacency g) from to in
  let adj := if directed g then adj else removeFrom adj to from in
  {| adjacency := adj; directed := directed g |}.

(** [RemoveNode]; [order] is the order in which [range g.adjacency]
    yields the keys. [RemoveEdge] neither adds nor deletes a key, so the
    range yields every key of [g] once. *)
Definition RemoveNodeIn (order : list T) (g : Graph) (node : T) : Graph :=
  let g := fold_left (fun g from => RemoveEdge g from node) order g in
  {| adjacency := delete node (adjacency g); directed := directed g |}.

(** [RemoveNode] with the keys taken in the order of [map_to_list]. *)
Definition RemoveNode (g : Graph) (node : T) : Graph :=
  RemoveNodeIn (map_to_list (adjacency g)).*1 g node.

Definition HasNode (g : Graph) (node : T) : bool :=
  bool_decide (is_Some (adjacency g !! node)).

Definition HasEdge (g : Graph) (from to : T) : bool :=
  match adjacency g !! from with
  | Some neighbors => existsb (fun neighbor => bool_decide (neighbor = to)) neighbors
  | None => false
  end.

Definition GetNeighbors (g : Graph) (node : T) : list T :=
  match adjacency g !! node with
  | Some neighbors => neighbors
  | None => []
  end.

Definition GetNodes (g : Graph) : gset T := dom (adjacency g).

(** Every value that can enter a [visited] map: the keys and the entries
    of the adjacency lists. A traversal marks a new one of them at every
    call or round after the first, which bounds its depth and length. *)
Definition universe (g : Graph) : gset T :=
  dom (adjacency g) ∪ ⋃ (list_to_set <$> (map_to_list (adjacency g)).*2).

Definition fuelOf (g : Graph) : nat := S (size (universe g)).

(** The inner loop of [BFS] over the neighbours of one node. *)
Fixpoint bfsNeighbors (neighbors : list T) (visited : gset T) (queue : list T)
    : gset T * list T :=
  match neighbors with
  | [] => (visited, queue)
  | neighbor :: neighbors =>
      if decide (neighbor ∈ visited) then bfsNeighbors neighbors visited queue
      else bfsNeighbors neighbors ({[neighbor]} ∪ visited) (queue ++ [neighbor])
  end.

Fixpoint bfsLoop (fuel : nat) (g : Graph) (queue : list T) (visited : gset T)
    (result : list T) : option (list T) :=
  match queue with
  | [] => Some result
  | node :: queue =>
      match fuel with
      | O => None
      | S fuel =>
          let '(visited, queue) := bfsNeighbors (GetNeighbors g node) visited queue in
          bfsLoop fuel g queue visited (result ++ [node])
      end
  end.

Definition BFS (g : Graph) (start : T) : option (list T) :=
  bfsLoop (S (fuelOf g)) g [start] {[start]} [].

(** The loop of [dfsRecursive] over the neighbours; [rec] is the
    recursive call. *)
Fixpoint dfsNeighbors (rec : T -> gset T -> list T -> option (gset T * list T))
    (neighbors : list T) (visited : gset T) (result : list T)
    : option (gset T * list T) :=
  match neighbors with
  | [] => Some (visited, result)
  | neighbor :: neighbors =>
      if decide (neighbor ∈ visited) then dfsNeighbors rec neighbors visited result
      else
        match rec neighbor visited result with
        | Some (visited, result) => dfsNeighbors rec neighbors visited result
        | None => None
        end
  end.

Fixpoint dfsRecursive (fuel : nat) (g : Graph) (node : T) (visited : gset T)
    (result : list T) : option (gset T * list T) :=
  match fuel with
  | O => None
  | S fuel =>
      dfsNeighbors (dfsRecursive fuel g) (GetNeighbors g node)
        ({[node]} ∪ visited) (result ++ [node])
  end.

Definition DFS (g : Graph) (start : T) : option (list T) :=
  snd <$> dfsRecursive (S (fuelOf g)) g start ∅ [].

(** The inner loop of [ShortestPath]. *)
Fixpoint pathNeighbors (node : T) (neighbors : list T) (visited : gset T)
    (parent : gmap T T) (queue : list T) : gset T * gmap T T * list T :=
  match neighbors with
  | [] => (visited, parent, queue)
  | neighbor :: neighbors =>
      if decide (neighbor ∈ visited) then
        pathNeighbors node neighbors visited parent queue
      else
        pathNeighbors node neighbors ({[neighbor]} ∪ visited)
          (<[neighbor := node]> parent) (queue ++ [neighbor])
  end.

(** The reconstruction loop [for current != start]. *)
Fixpoint pathBack (fuel : nat) (parent : gmap T T) (start current : T)
    (path : list T) : option (list T) :=
  if decide (current = start) then Some (start :: path)
  else
    match fuel with
    | O => None
    | S fuel =>
        pathBack fuel parent start (default zero (parent !! current)) (current :: path)
    end.

Fixpoint pathLoop (fuel : nat) (g : Graph) (start end_ : T) (queue : list T)
    (visited : gset T) (parent : gmap T T) : option (list T * bool) :=
  match queue with
  | [] => Some ([], false)
  | node :: queue =>
      match fuel with
      | O => None
      | S fuel =>
          if decide (node = end_) then
            path ← pathBack (fuelOf g) parent start end_ [];
            Some (path, true)
          else
            let '(visited, parent, queue) :=
              pathNeighbors node (GetNeighbors g node) visited parent queue in
            pathLoop fuel g start end_ queue visited parent
      end
  end.

(** [ShortestPath]: [([], false)] is [(nil, false)]. *)
Definition ShortestPath (g : Graph) (start end_ : T) : option (list T * bool) :=
  if negb (HasNode g start) || negb (HasNode g end_) then Some ([], false)
  else pathLoop (S (fuelOf g)) g start end_ [start] {[start]} ∅.

(** The loop of [hasCycleDFS] over the neighbours; [rec] is the
    recursive call. The state is [visited] and the set of the nodes
    whose [recStack] entry is true. *)
Fixpoint hasCycleNeighbors
    (rec : T -> gset T -> gset T -> option (bool * gset T * gset T))
    (neighbors : list T) (visited recStack : gset T)
    : option (bool * gset T * gset T) :=
  match neighbors with
  | [] => Some (false, visited, recStack)
  | neighbor :: neighbors =>
      if decide (neighbor ∈ visited) then
        if decide (neighbor ∈ recStack) then Some (true, visited, recStack)
        else hasCycleNeighbors rec neighbors visited recStack
      else
        match rec neighbor visited recStack with
        | Some (true, visited, recStack) => Some (true, visited, recStack)
        | Some (false, visited, recStack) =>
            hasCycleNeighbors rec neighbors visited recStack
        | None => None
        end
  end.

Fixpoint hasCycleDFS (fuel : nat) (g : Graph) (node : T) (visited recStack : gset T)
    : option (bool * gset T * gset T) :=
  match fuel with
  | O => None
  | S fuel =>
      match hasCycleNeighbors (hasCycleDFS fuel g) (GetNeighbors g node)
              ({[node]} ∪ visited) ({[node]} ∪ recStack) with
      | Some (true, visited, recStack) => Some (true, visited, recStack)
      | Some (false, visited, recStack) => Some (false, visited, recStack ∖ {[node]})
      | None => None
      end
  end.

(** The outer loop of [HasCycle] over the keys in the order [order]. *)
Fixpoint hasCycleLoop (g : Graph) (order : list T) (visited recStack : gset T)
    : option bool :=
  match order with
  | [] => Some false
  | node :: order =>
      if decide (node ∈ visited) then hasCycleLoop g order visited recStack
      else
        match hasCycleDFS (fuelOf g) g node visited recStack with
        | Some (true, _, _) => Some true
        | Some (false, visited, recStack) => hasCycleLoop g order visited recStack
        | None => None
        end
  end.

Definition HasCycle (order : list T) (g : Graph) : option bool :=
  hasCycleLoop g order ∅ ∅.

Fixpoint topoNeighbors (rec : T -> gset T -> list T -> option (gset T * list T))
    (neighbors : list T) (visited : gset T) (result : list T)
    : option (gset T * list T) :=
  match neighbors with
  | [] => Some (visited, result)
  | neighbor :: neighbors =>
      if decide (neighbor ∈ visited) then topoNeighbors rec neighbors visited result
      else
        match rec neighbor visited result with
        | Some (visited, result) => topoNeighbors rec neighbors visited result
        | None => None
        end
  end.

Fixpoint topologicalSortDFS (fuel : nat) (g : Graph) (node : T) (visited : gset T)
    (result : list T) : option (gset T * list T) :=
  match fuel with
  | O => None
  | S fuel =>
      match topoNeighbors (topologicalSortDFS fuel g) (GetNeighbors g node)
              ({[node]} ∪ visited) result with
      | Some (visited, result) => Some (visited, result ++ [node])
      | None => None
      end
  end.

Fixpoint topoLoop (g : Graph) (order : list T) (visited : gset T) (result : list T)
    : option (gset T * list T) :=
  match order with
  | [] => Some (visited, result)
  | node :: order =>
      if decide (node ∈ visited) then topoLoop g order visited result
      else
        match topologicalSortDFS (fuelOf g) g node visited result with
        | Some (visited, result) => topoLoop g order visited result
        | None => None
        end
  end.

(** [TopologicalSort]; [order1] is the order of the range in [HasCycle],
    [order2] the order of its own range. [([], false)] is [(nil, false)]. *)
Definition TopologicalSort (order1 order2 : list T) (g : Graph)
    : option (list T * bool) :=
  if negb (directed g) then Some ([], false)
  else
    match HasCycle order1 g with
    | None => None
    | Some true => Some ([], false)
    | Some false =>
        match topoLoop g order2 ∅ [] with
        | Some (_, result) => Some (reverse result, true)
        | None => None
        end
    end.

(** [Equals]: the range over [g.adjacency] returns false at the first
    entry that fails and true when it ends, whatever its order. *)
Definition Equals (g other : Graph) : bool :=
  if negb (bool_decide (directed g = directed other)) then false
  else if negb (bool_decide (size (adjacency g) = size (adjacency other))) then false
  else
    forallb (fun '(node, neighbors) =>
               match adjacency other !! node with
               | None => false
               | Some otherNeighbors =>
                   if negb (bool_decide (length neighbors = length otherNeighbors))
                   then false
                   else GoSet.Equals (GoSet.NewSetFromSlice neighbors)
                                     (GoSet.NewSetFromSlice otherNeighbors)
               end)
            (map_to_list (adjacency g)).

Definition NodeCount (g : Graph) : nat := size (adjacency g).

Definition IsEmpty (g : Graph) : bool := bool_decide (size (adjacency g) = 0%nat).

Definition Degree (g : Graph) (node : T) : nat :=
  match adjacency g !! node with
  | Some neighbors => length neighbors
  | None => 0%nat
  end.

(** The loop of [ConnectedComponents] over the keys in the order
    [order]; every component is collected by [dfsRecursive] from an
    empty slice, with the [visited] map shared by all the calls. *)
Fixpoint componentsLoop (g : Graph) (order : list T) (visited : gset T)
    (components : list (list T)) : option (list (list T)) :=
  match order with
  | [] => Some components
  | node :: order =>
      if decide (node ∈ visited) then componentsLoop g order visited components
      else
        match dfsRecursive (fuelOf g) g node visited [] with
        | Some (visited, component) =>
            componentsLoop g order visited (components ++ [component])
        | None => None
        end
  end.

Definition ConnectedComponents (order : list T) (g : Graph) : option (list (list T)) :=
  componentsLoop g order ∅ [].

Definition IsConnected (order : list T) (g : Graph) : option bool :=
  if IsEmpty g then Some true
  else
    components ← ConnectedComponents order g;
    Some (bool_decide (length components = 1%nat)).

End Defs.

Arguments Graph T {_ _}.

End Graph.

(* ===================================================================== *)
(** * Specification vocabulary                                           *)
(* ===================================================================== *)

(** The comparator contract of BST and TreeMap: a strict total order. *)
Record StrictTotalOrder {T : Type} (less : T -> T -> bool) : Prop := {
  sto_irrefl : forall a, less a a = false;
  sto_trans : forall a b c, less a b = true -> less b c = true -> less a c = true;
  sto_total : forall a b, a <> b -> less a b = true \/ less b a = true
}.

(** A sequence is non-decreasing under [less] when no later element is
    less than an earlier one. *)
Definition nondecreasing {T : Type} (less : T -> T -> bool) (l : list T) : Prop :=
  forall (i j : nat) (a b : T),
    (i < j)%nat -> l !! i = Some a -> l !! j = Some b -> less b a = false.

Section BSTSpec.
Context {T : Type} `{EqDecision T}.
Import BST.

(** The values of a subtree from left to right. *)
Fixpoint contents (node : BSTNode T) : list T :=
  match node with
  | Nil => []
  | Node v l r => contents l ++ v :: contents r
  end.

(** The search-tree invariant of the data model. *)
Fixpoint ordered (less : T -> T -> bool) (node : BSTNode T) : Prop :=
  match node with
  | Nil => True
  | Node v l r =>
      ordered less l /\ ordered less r /\
      (forall x, x ∈ contents l -> less x v = true) /\
      (forall x, x ∈ contents r -> less v x = true)
  end.

(** A well-formed BST: the comparator contract holds, the tree is a
    search tree and the tracked size is the number of nodes. *)
Record wf (bst : BST T) : Prop := {
  wf_order : StrictTotalOrder (Less bst);
  wf_ordered : ordered (Less bst) (Root bst);
  wf_size : Size bst = sizeOf (Root bst)
}.

(** The tree [Clone] builds: every node has a nil left child. *)
Fixpoint chain (l : list T) : BSTNode T :=
  match l with
  | [] => Nil
  | v :: l => Node v Nil (chain l)
  end.

(** The BSTs the API can build. *)
Inductive reachable (less : T -> T -> bool) : BST T -> Prop :=
| reach_new : reachable less (NewBST less)
| reach_insert bst v : reachable less bst -> reachable less (Insert bst v)
| reach_delete bst v : reachable less bst -> reachable less (Delete bst v).1
| reach_clear bst : reachable less bst -> reachable less (Clear bst).

End BSTSpec.

Section TreeMapSpec.
Context {K V : Type}.
Import TreeMap.

(** The shape of a TreeMap with its keys: the tree without the values. *)
Fixpoint skeleton (node : TreeMapNode K V) : BST.BSTNode K :=
  match node with
  | Nil => BST.Nil
  | Node k _ l r => BST.Node k (skeleton l) (skeleton r)
  end.

End TreeMapSpec.

Section TrieSpec.
Context {V : Type}.
Import Trie.

(** The word with the runes [q] is stored under [node]: the walk along
    [q] ends on a node that ends a word. [Search] is [holds] at the root,
    on the runes of the word. *)
Definition holds (node : TrieNode V) (q : list Z) : bool :=
  match searchWalk node q with
  | Some node => isEnd node
  | None => false
  end.

End TrieSpec.

(** The words of the examples, as the bytes of their UTF-8 encoding. *)
Definition word_app : list byte := [x61; x70; x70].
Definition word_apple : list byte := [x61; x70; x70; x6c; x65].
(** "é", U+00E9, is encoded by the two bytes C3 A9. *)
Definition word_e_acute : list byte := [xc3; xa9].
(** "Ã©", U+00C3 U+00A9, is encoded by the four bytes C3 83 C2 A9. *)
Definition word_A_tilde_copyright : list byte := [xc3; x83; xc2; xa9].


Section GraphSpec.
Context {T : Type} `{Countable T}.
Import Graph.

(** [u -> v] is an edge of [g]: [v] is an entry of the adjacency list of [u]. *)
Definition edge (g : Graph T) (u v : T) : Prop := v ∈ GetNeighbors g u.

(** No node reaches itself along one or more edges. *)
Definition acyclic (g : Graph T) : Prop := forall u, ~ tc (edge g) u u.

(** [u] occurs before [v] in [l]. *)
Definition precedes (u v : T) (l : list T) : Prop :=
  exists l1 l2 l3, l = l1 ++ u :: l2 ++ v :: l3.

(** The post-order list of [topologicalSortDFS]: every node of the list
    has all the targets of its edges earlier in the list. *)
Definition finished (g : Graph T) (result : list T) : Prop :=
  forall u v, u ∈ result -> edge g u v -> precedes v u result.

(** The keys of the adjacency map, in the order of [map_to_list]; a
    [range] over the map yields a permutation of them. *)
Definition keys (g : Graph T) : list T := (map_to_list (adjacency g)).*1.

(** The state [(visited', result')] of a depth-first traversal comes from
    [(visited, result)] by finishing nodes that were not visited. *)
Definition extends (visited : gset T) (result : list T)
    (visited' : gset T) (result' : list T) : Prop :=
  exists new,
    result' = result ++ new /\
    (forall x, x ∈ visited' <-> x ∈ visited \/ x ∈ new) /\
    (forall x, x ∈ new -> x ∉ visited).

(** The adjacency list of [x] in [adj], nil for a missing key. *)
Definition neighborsOf (adj : gmap T (list T)) (x : T) : list T :=
  default [] (adj !! x).

(** The number of entries of [l] equal to [x]. *)
Definition occ (x : T) (l : list T) : nat := length (filter (fun y => y = x) l).

(** The symmetry invariant of an undirected graph, with multiplicity. *)
Definition symmetric (g : Graph T) : Prop :=
  forall u v, occ v (GetNeighbors g u) = occ u (GetNeighbors g v).

(** The undirected graphs built without [RemoveNode]. *)
Inductive built : Graph T -> Prop :=
| built_new : built (NewGraph false)
| built_node g node : built g -> built (AddNode g node)
| built_edge g from to : built g -> built (AddEdge g from to)
| built_remove_edge g from to : built g -> built (RemoveEdge g from to).

(** What a call of [hasCycleDFS] does on an acyclic graph when its fuel
    exceeds the number of unvisited values: it returns false and leaves
    the recursion stack as it found it. *)
Definition cycleCallOk (g : Graph T) (n : nat)
    (rec : T -> gset T -> gset T -> option (bool * gset T * gset T)) : Prop :=
  forall node visited recStack,
    (size (universe g ∖ visited) < n)%nat ->
    node ∈ universe g -> node ∉ visited -> visited ⊆ universe g ->
    recStack ⊆ visited ->
    (forall x, x ∈ recStack -> rtc (edge g) x node) ->
    exists visited',
      rec node visited recStack = Some (false, visited', recStack) /\
      {[node]} ∪ visited ⊆ visited' /\ visited' ⊆ universe g.

(** The invariant of the traversal state between two steps: the
    finished nodes are visited, visited values are values of the graph,
    no node is finished twice, and the finished list is in post-order. *)
Record topoState (g : Graph T) (visited : gset T) (result : list T) : Prop := {
  ts_result : forall x, x ∈ result -> x ∈ visited;
  ts_universe : visited ⊆ universe g;
  ts_nodup : NoDup result;
  ts_finished : finished g result
}.

(** What a call of [topologicalSortDFS] does on an acyclic graph when
    its fuel exceeds the number of unvisited values. The visited nodes
    that are not finished are the callers on the stack; they all reach
    the node of the call. *)
Definition topoCallOk (g : Graph T) (n : nat)
    (rec : T -> gset T -> list T -> option (gset T * list T)) : Prop :=
  forall node visited result,
    (size (universe g ∖ visited) < n)%nat ->
    node ∈ universe g -> node ∉ visited ->
    topoState g visited result ->
    (forall x, x ∈ visited -> x ∉ result -> rtc (edge g) x node) ->
    exists visited' result',
      rec node visited result = Some (visited', result') /\
      topoState g visited' result' /\
      extends visited result visited' result' /\
      node ∈ result'.

(** A sufficient, executable test of acyclicity: [rank] grows along
    every edge. *)
Definition ranked (rank : T -> Z) (g : Graph T) : bool :=
  forallb (fun '(u, neighbors) => forallb (fun v => rank u <? rank v) neighbors)
          (map_to_list (adjacency g)).

End GraphSpec.

(** The acyclic directed graph of the specification, with the edges
    (1,2), (1,3), (2,4), (3,4). *)
Definition diamond : Graph.Graph Z :=
  Graph.NewGraphFromEdges [(1, 2); (1, 3); (2, 4); (3, 4)] true.


Section BSTShape.
Context {T : Type} `{EqDecision T}.
Import BST.

(** The balance criterion: at every node the heights of the two
    subtrees differ by at most one. *)
Fixpoint balanced (node : BSTNode T) : Prop :=
  match node with
  | Nil => True
  | Node _ l r =>
      balanced l /\ balanced r /\
      Z.abs (heightRecursive l - heightRecursive r) <= 1
  end.

End BSTShape.

(** The BST of the scenario of the specification: 5, 3, 7, 2, 4, 6, 8
    inserted into an empty tree of integers. *)
Definition scenario : BST.BST Z := BST.NewBSTFromSlice [5; 3; 7; 2; 4; 6; 8] Z.ltb.

Section TreeMapWf.
Context {K V : Type}.
Import TreeMap.

(** A well-formed TreeMap: the comparator contract holds, the keys form
    a search tree and the tracked size is the number of nodes. *)
Record tmwf (tm : TreeMap K V) : Prop := {
  tmwf_order : StrictTotalOrder (less tm);
  tmwf_ordered : ordered (less tm) (skeleton (root tm));
  tmwf_size : size tm = sizeOf (root tm)
}.

(** A sequence of [Put] calls. *)
Definition putAll (tm : TreeMap K V) (entries : list (K * V)) : TreeMap K V :=
  fold_left (fun tm e => Put tm e.1 e.2) entries tm.

End TreeMapWf.

(** A TreeMap of integers built by four [Put] calls, the key 3 twice. *)
Definition sampleMap : TreeMap.TreeMap Z Z :=
  putAll (TreeMap.NewTreeMap Z.ltb) [(5, 50); (3, 30); (7, 70); (3, 31)].

Section TrieModel.
Context {V : Type}.
Import GoString Trie.

(** What the trie keeps for the word with the runes [q] under [node]:
    the value of the node the walk ends on, when that node ends a word. *)
Definition stored (node : TrieNode V) (q : list Z) : option (option V) :=
  match searchWalk node q with
  | Some node => if isEnd node then Some (value node) else None
  | None => None
  end.

(** Some word is stored under [node]. *)
Definition live (node : TrieNode V) : Prop := exists q, holds node q = true.

(** No dead branch under [node]: every path that leaves [node] leads on
    to a stored word. *)
Definition pruned (node : TrieNode V) : Prop :=
  forall q, q <> [] -> is_Some (searchWalk node q) ->
    exists q', holds node (q ++ q') = true.

(** The calls that change a trie. *)
Inductive TrieOp : Type :=
  | OpInsert (word : list byte) (v : option V)
  | OpDelete (word : list byte).

Definition applyOp (t : Trie V) (op : TrieOp) : Trie V :=
  match op with
  | OpInsert word v => InsertWithValue t word v
  | OpDelete word => (Delete t word).1
  end.

(** The trie a sequence of calls builds from [NewTrie]. *)
Definition runOps (ops : list TrieOp) : Trie V := fold_left applyOp ops NewTrie.

(** The set of rune sequences the same calls leave: [Insert] adds the
    runes of its word, [Delete] removes the sequence that has one rune
    per byte of its word. *)
Definition wordsOp (S : gset (list Z)) (op : TrieOp) : gset (list Z) :=
  match op with
  | OpInsert word _ => {[runes word]} ∪ S
  | OpDelete word => S ∖ {[byteRunes word]}
  end.

Definition wordsAfter (ops : list TrieOp) : gset (list Z) :=
  fold_left wordsOp ops ∅.

End TrieModel.

Arguments TrieOp : clear implicits.

(** The trie of the words "app" and "apple". *)
Definition sampleTrie : Trie.Trie Z :=
  Trie.NewTrieFromSlice [word_app; word_apple].

(** The undirected graph with the edge 1 - 2 entered twice and the edge
    2 - 3 once. *)
Definition sampleGraph : Graph.Graph Z :=
  Graph.AddEdge (Graph.AddEdge (Graph.AddEdge (Graph.NewGraph false) 1 2) 2 3) 1 2.

Section GraphSearchSpec.
Context {T : Type} `{Countable T}.
Import Graph.

(** The nodes a depth-first search has finished are the visited nodes
    that are no longer on the recursion stack: their edges lead to
    finished nodes, and none of them lies on a cycle. *)
Definition finishedSet (g : Graph T) (visited recStack : gset T) : Prop :=
  (forall u v, u ∈ visited -> u ∉ recStack -> edge g u v ->
     v ∈ visited /\ v ∉ recStack) /\
  (forall u, u ∈ visited -> u ∉ recStack -> ~ tc (edge g) u u).

(** What a call of [hasCycleDFS] does on any graph when its fuel exceeds
    the number of unvisited values: it returns, and when it returns
    false it has finished its node and left the recursion stack as it
    found it. *)
Definition cycleCallTotal (g : Graph T) (n : nat)
    (rec : T -> gset T -> gset T -> option (bool * gset T * gset T)) : Prop :=
  forall node visited recStack,
    (size (universe g ∖ visited) < n)%nat ->
    node ∈ universe g -> node ∉ visited -> visited ⊆ universe g ->
    recStack ⊆ visited -> finishedSet g visited recStack ->
    exists b visited' recStack',
      rec node visited recStack = Some (b, visited', recStack') /\
      (b = false ->
       recStack' = recStack /\ {[node]} ∪ visited ⊆ visited' /\
       visited' ⊆ universe g /\ finishedSet g visited' recStack).

(** Every entry of an adjacency list is a node of the graph. *)
Definition targetsAreNodes (g : Graph T) : Prop :=
  forall u v, HasEdge g u v = true -> HasNode g v = true.

(** The graphs, directed or not, built without [RemoveNode]. *)
Inductive assembled : Graph T -> Prop :=
| assembled_new d : assembled (NewGraph d)
| assembled_node g node : assembled g -> assembled (AddNode g node)
| assembled_edge g from to : assembled g -> assembled (AddEdge g from to)
| assembled_remove_edge g from to : assembled g -> assembled (RemoveEdge g from to).

End GraphSearchSpec.

Section GraphReachSpec.
Context {T : Type} `{Countable T}.
Import Graph.

(** What a call of [dfsRecursive] does when its fuel exceeds the number
    of unvisited values: it appends the nodes it visits, its own node
    first, none of them visited before and none twice; each of them is
    reached from its node, and every edge from one of them leads to a
    visited value. *)
Definition dfsCallOk (g : Graph T) (n : nat)
    (rec : T -> gset T -> list T -> option (gset T * list T)) : Prop :=
  forall node visited result,
    (size (universe g ∖ visited) < n)%nat ->
    node ∈ universe g -> node ∉ visited -> visited ⊆ universe g ->
    exists visited' new,
      rec node visited result = Some (visited', result ++ node :: new) /\
      NoDup (node :: new) /\
      (forall x, x ∈ visited' <-> x ∈ visited \/ x ∈ node :: new) /\
      (forall x, x ∈ node :: new -> x ∉ visited) /\
      visited' ⊆ universe g /\
      (forall x, x ∈ node :: new -> rtc (edge g) node x) /\
      (forall u v, u ∈ node :: new -> edge g u v -> v ∈ visited').

(** The invariant of the loop of [BFS] from [start]: the visited values
    are those of the result and the queue, none is there twice, all are
    reached from [start], and every edge from a node of the result leads
    to a visited value. *)
Record bfsState (g : Graph T) (start : T) (queue : list T) (visited : gset T)
    (result : list T) : Prop := {
  bfs_nodup : NoDup (result ++ queue);
  bfs_visited : forall x, x ∈ visited <-> x ∈ result ++ queue;
  bfs_start : start ∈ visited;
  bfs_reached : forall x, x ∈ visited -> rtc (edge g) start x;
  bfs_closed : forall u v, u ∈ result -> edge g u v -> v ∈ visited;
  bfs_universe : visited ⊆ universe g ∪ {[start]}
}.

End GraphReachSpec.

(* ===================================================================== *)
(** * Facts about the binary search tree                                 *)
(* ===================================================================== *)

Section BSTFacts.
Context {T : Type} `{EqDecision T}.
Import BST.

Implicit Types (node l r : BSTNode T) (bst : BST T) (less : T -> T -> bool).

Lemma sto_asym less a b :
  StrictTotalOrder less -> less a b = true -> less b a = false.
Proof.
  intros Hsto Hab. destruct (less b a) eqn:Hba; [|done].
  rewrite <- (sto_irrefl less Hsto a). symmetry. by eapply sto_trans.
Qed.

Lemma sto_eq less a b :
  StrictTotalOrder less -> less a b = false -> less b a = false -> a = b.
Proof.
  intros Hsto Hab Hba. destruct (decide (a = b)) as [|Hne]; [done|].
  destruct (sto_total less Hsto a b Hne); congruence.
Qed.

Lemma inOrderRecursive_contents node result :
  inOrderRecursive node result = result ++ contents node.
Proof.
  revert result. induction node as [|v l IHl r IHr]; intros result; simpl.
  - by rewrite app_nil_r.
  - rewrite IHr, IHl. by rewrite <- !app_assoc.
Qed.

Lemma InOrder_contents bst : InOrder bst = contents (Root bst).
Proof. unfold InOrder. by rewrite inOrderRecursive_contents. Qed.

Lemma sizeOf_length node : sizeOf node = Z.of_nat (length (contents node)).
Proof.
  induction node as [|v l IHl r IHr]; simpl; [done|].
  rewrite length_app. simpl. lia.
Qed.

Lemma sizeOf_nonneg node : 0 <= sizeOf node.
Proof. rewrite sizeOf_length. lia. Qed.

(** ** Insert *)

Lemma insertRecursive_size less size node value :
  (insertRecursive less size node value).2
  = size + (sizeOf (insertRecursive less size node value).1 - sizeOf node).
Proof.
  induction node as [|v l IHl r IHr]; simpl; [lia|].
  destruct (less value v).
  - destruct (insertRecursive less size l value) as [l' s'] eqn:E.
    simpl in *. lia.
  - destruct (less v value).
    + destruct (insertRecursive less size r value) as [r' s'] eqn:E.
      simpl in *. lia.
    + simpl. lia.
Qed.

Lemma insertRecursive_elem_of less size node value x :
  x ∈ contents (insertRecursive less size node value).1 ->
  x = value \/ x ∈ contents node.
Proof.
  induction node as [|v l IHl r IHr]; simpl.
  - set_solver.
  - destruct (less value v).
    + destruct (insertRecursive less size l value) as [l' s'] eqn:E.
      simpl in *. set_solver.
    + destruct (less v value).
      * destruct (insertRecursive less size r value) as [r' s'] eqn:E.
        simpl in *. set_solver.
      * simpl. set_solver.
Qed.

Lemma insertRecursive_ordered less size node value :
  ordered less node -> ordered less (insertRecursive less size node value).1.
Proof.
  induction node as [|v l IHl r IHr]; simpl.
  - set_solver.
  - intros (Hl & Hr & Hlv & Hrv).
    destruct (less value v) eqn:E1.
    + pose proof (insertRecursive_elem_of less size l value) as Hin.
      destruct (insertRecursive less size l value) as [l' s'] eqn:E.
      simpl in *. repeat split; auto.
      intros x Hx. destruct (Hin x Hx) as [->|]; auto.
    + destruct (less v value) eqn:E2.
      * pose proof (insertRecursive_elem_of less size r value) as Hin.
        destruct (insertRecursive less size r value) as [r' s'] eqn:E.
        simpl in *. repeat split; auto.
        intros x Hx. destruct (Hin x Hx) as [->|]; auto.
      * simpl. auto.
Qed.

Lemma Insert_wf bst value : wf bst -> wf (Insert bst value).
Proof.
  intros [Hsto Hord Hsz]. unfold Insert.
  pose proof (insertRecursive_size (Less bst) (Size bst) (Root bst) value) as Hs.
  pose proof (insertRecursive_ordered (Less bst) (Size bst) (Root bst) value Hord) as Ho.
  destruct (insertRecursive (Less bst) (Size bst) (Root bst) value) as [root' size'].
  simpl in *. split; simpl; [done|done|lia].
Qed.

Lemma NewBST_wf less : StrictTotalOrder less -> wf (NewBST less).
Proof. intros Hsto. by split. Qed.

Lemma Insert_Less bst value : Less (Insert bst value) = Less bst.
Proof.
  unfold Insert.
  by destruct (insertRecursive (Less bst) (Size bst) (Root bst) value).
Qed.

Lemma fold_Insert_wf slice bst : wf bst -> wf (fold_left Insert slice bst).
Proof.
  revert bst. induction slice as [|v slice IH]; intros bst Hwf; simpl; [done|].
  apply IH. by apply Insert_wf.
Qed.

Lemma fold_Insert_Less slice bst : Less (fold_left Insert slice bst) = Less bst.
Proof.
  revert bst. induction slice as [|v slice IH]; intros bst; simpl; [done|].
  by rewrite IH, Insert_Less.
Qed.

(** ** Sortedness of the in-order sequence *)

Lemma ordered_sorted less node :
  StrictTotalOrder less -> ordered less node ->
  StronglySorted (fun a b => less a b = true) (contents node).
Proof.
  intros Hsto. induction node as [|v l IHl r IHr]; simpl.
  - constructor.
  - intros (Hl & Hr & Hlv & Hrv).
    apply StronglySorted_app_2; [|by auto|].
    + intros x1 x2 Hx1 Hx2. apply elem_of_cons in Hx2 as [->|Hx2]; [by auto|].
      eapply sto_trans; eauto.
    + constructor; [by auto|]. apply Forall_forall. auto.
Qed.

Lemma StronglySorted_lookup (R : T -> T -> Prop) (l : list T) (i j : nat) a b :
  StronglySorted R l -> (i < j)%nat -> l !! i = Some a -> l !! j = Some b -> R a b.
Proof.
  intros Hs. revert i j. induction Hs as [|x l Hs IH Hall]; intros i j Hij Hi Hj.
  - done.
  - destruct j as [|j]; [lia|]. simpl in Hj. destruct i as [|i]; simpl in Hi.
    + injection Hi as ->. eapply Forall_forall; [exact Hall|].
      by eapply list_elem_of_lookup_2.
    + eapply (IH i j); [lia|done..].
Qed.

Lemma wf_nondecreasing bst : wf bst -> nondecreasing (Less bst) (InOrder bst).
Proof.
  intros [Hsto Hord _] i j a b Hij Hi Hj.
  rewrite InOrder_contents in Hi, Hj.
  apply (sto_asym _ a b Hsto).
  exact (StronglySorted_lookup _ _ i j a b (ordered_sorted _ _ Hsto Hord) Hij Hi Hj).
Qed.

Lemma wf_length bst : wf bst -> Z.of_nat (length (InOrder bst)) = Size bst.
Proof.
  intros [_ _ Hsz]. by rewrite InOrder_contents, Hsz, sizeOf_length.
Qed.

Lemma Zltb_strict_total : StrictTotalOrder Z.ltb.
Proof. split; intros; lia. Qed.

(** ** Rank and Select *)

Lemma selectRecursive_lookup node rank :
  0 <= rank -> selectRecursive node rank = contents node !! Z.to_nat rank.
Proof.
  revert rank. induction node as [|v l IHl r IHr]; intros rank Hrank; simpl.
  - done.
  - pose proof (sizeOf_length l) as Hlen.
    destruct (rank <? sizeOf l) eqn:E1.
    + rewrite IHl by done. rewrite lookup_app_l by lia. done.
    + destruct (rank >? sizeOf l) eqn:E2.
      * rewrite IHr by lia. rewrite lookup_app_r by lia.
        replace (Z.to_nat rank - length (contents l))%nat
          with (S (Z.to_nat (rank - sizeOf l - 1))) by lia.
        done.
      * rewrite lookup_app_r by lia.
        replace (Z.to_nat rank - length (contents l))%nat with 0%nat by lia.
        done.
Qed.

Lemma selectRecursive_negative node rank :
  rank < 0 -> selectRecursive node rank = None.
Proof.
  induction node as [|v l IHl r IHr]; intros Hrank; simpl; [done|].
  pose proof (sizeOf_nonneg l).
  destruct (rank <? sizeOf l) eqn:E1; [by apply IHl | lia].
Qed.

Lemma rankRecursive_lookup less node (i : nat) value :
  StrictTotalOrder less -> ordered less node ->
  contents node !! i = Some value ->
  rankRecursive less node value = Z.of_nat i.
Proof.
  intros Hsto. revert i. induction node as [|v l IHl r IHr]; intros i; simpl.
  - done.
  - intros (Hl & Hr & Hlv & Hrv) Hi.
    pose proof (sizeOf_length l) as Hlen.
    destruct (decide (i < length (contents l))%nat) as [Hlt|Hge].
    + rewrite lookup_app_l in Hi by done.
      rewrite (Hlv value) by (by eapply list_elem_of_lookup_2).
      by apply IHl.
    + rewrite lookup_app_r in Hi by lia.
      destruct (i - length (contents l))%nat as [|k] eqn:Ek; simpl in Hi.
      * injection Hi as ->. rewrite (sto_irrefl less Hsto). lia.
      * assert (less v value = true) as Hvx
          by (apply Hrv; by eapply list_elem_of_lookup_2).
        rewrite (sto_asym less v value Hsto Hvx), Hvx.
        rewrite (IHr k) by done. lia.
Qed.

(** ** Inserting a value that is present *)

Lemma insertRecursive_present less size node value :
  StrictTotalOrder less -> ordered less node -> value ∈ contents node ->
  insertRecursive less size node value = (node, size).
Proof.
  intros Hsto. induction node as [|v l IHl r IHr]; simpl.
  - intros _ Hin. by apply elem_of_nil in Hin.
  - intros (Hl & Hr & Hlv & Hrv) Hin.
    apply elem_of_app in Hin as [Hin|Hin].
    + rewrite (Hlv value Hin). by rewrite IHl.
    + apply elem_of_cons in Hin as [->|Hin].
      * by rewrite (sto_irrefl less Hsto).
      * rewrite (sto_asym less v value Hsto (Hrv value Hin)), (Hrv value Hin).
        by rewrite IHr.
Qed.

Lemma searchRecursive_elem_of less node value :
  StrictTotalOrder less -> ordered less node ->
  searchRecursive less node value = true <-> value ∈ contents node.
Proof.
  intros Hsto. induction node as [|v l IHl r IHr]; simpl.
  - intros _. split; [done|]. intros Hin. by apply elem_of_nil in Hin.
  - intros (Hl & Hr & Hlv & Hrv).
    destruct (decide (v = value)) as [->|Hne].
    + split; [|done]. intros _. apply elem_of_app. right. apply elem_of_cons. by left.
    + destruct (less value v) eqn:E.
      * rewrite IHl by done. split.
        -- intros Hin. apply elem_of_app. by left.
        -- intros Hin. apply elem_of_app in Hin as [Hin|Hin]; [done|].
           apply elem_of_cons in Hin as [->|Hin]; [done|].
           apply Hrv in Hin. rewrite (sto_asym less v value Hsto Hin) in E. done.
      * rewrite IHr by done. split.
        -- intros Hin. apply elem_of_app. right. apply elem_of_cons. by right.
        -- intros Hin. apply elem_of_app in Hin as [Hin|Hin].
           ++ apply Hlv in Hin. congruence.
           ++ apply elem_of_cons in Hin as [->|Hin]; [done|]. done.
Qed.

(** ** Delete *)

Lemma findMinValue_head (d : T) (left : BSTNode T) (tail : list T) :
  head (contents left ++ d :: tail) = Some (findMinValue d left).
Proof.
  revert d tail. induction left as [|v l IHl r IHr]; intros d tail; simpl.
  - done.
  - rewrite <- app_assoc. simpl. apply IHl.
Qed.

Lemma filter_ne_id (value : T) (xs : list T) :
  (forall x, x ∈ xs -> x <> value) -> filter (fun x => x <> value) xs = xs.
Proof.
  induction xs as [|x xs IH]; intros Hall; [done|].
  rewrite filter_cons_True by (apply Hall; left).
  f_equal. apply IH. intros y Hy. apply Hall. by right.
Qed.

Lemma less_ne less a b : StrictTotalOrder less -> less a b = true -> a <> b.
Proof. intros Hsto Hab ->. rewrite (sto_irrefl less Hsto) in Hab. done. Qed.

Lemma deleteRecursive_contents less node value :
  StrictTotalOrder less -> ordered less node ->
  contents (deleteRecursive less node value)
  = filter (fun x => x <> value) (contents node).
Proof.
  intros Hsto. revert value.
  induction node as [|v l IHl r IHr]; intros value; simpl; [done|].
  intros (Hl & Hr & Hlv & Hrv). rewrite filter_app.
  destruct (less value v) eqn:E1.
  - simpl. rewrite IHl by done.
    rewrite (filter_ne_id value (v :: contents r)); [done|].
    intros x Hx. apply not_eq_sym. apply (less_ne less); [done|].
    apply elem_of_cons in Hx as [->|Hx]; [done|].
    eapply sto_trans; eauto.
  - destruct (less v value) eqn:E2.
    + simpl. rewrite IHr by done.
      rewrite (filter_ne_id value (contents l)).
      * rewrite filter_cons_True; [done|]. by apply (less_ne less).
      * intros x Hx. apply (less_ne less); [done|].
        eapply sto_trans; eauto.
    + assert (v = value) as <- by (by apply (sto_eq less)).
      rewrite filter_cons_False by (intros Hne; by apply Hne).
      assert (filter (fun x => x <> v) (contents l) = contents l) as ->.
      { apply filter_ne_id. intros x Hx. apply (less_ne less); auto. }
      assert (filter (fun x => x <> v) (contents r) = contents r) as ->.
      { apply filter_ne_id. intros x Hx. apply not_eq_sym, (less_ne less); auto. }
      destruct l as [|lv ll lr]; [done|].
      destruct r as [|rv rl rr]; [by rewrite app_nil_r|].
      remember (Node lv ll lr) as l eqn:El.
      remember (Node rv rl rr) as r eqn:Er.
      simpl. rewrite IHr by done. f_equal.
      pose proof (findMinValue_head rv rl (contents rr)) as Hhead.
      pose proof (ordered_sorted less r Hsto Hr) as Hsorted.
      rewrite Er in Hsorted |- *. simpl in Hsorted |- *.
      destruct (contents rl ++ rv :: contents rr) as [|m rest]; [done|].
      injection Hhead as <-.
      rewrite filter_cons_False by (intros Hne; by apply Hne).
      f_equal. apply filter_ne_id. intros x Hx.
      apply StronglySorted_inv in Hsorted as [_ Hall].
      apply not_eq_sym, (less_ne less); [done|].
      by apply (proj1 (Forall_forall _ _) Hall).
Qed.

Lemma deleteRecursive_elem_of less node value x :
  StrictTotalOrder less -> ordered less node ->
  x ∈ contents (deleteRecursive less node value) <-> x ∈ contents node /\ x <> value.
Proof.
  intros Hsto Hord. rewrite deleteRecursive_contents by done.
  rewrite list_elem_of_filter. tauto.
Qed.

Lemma findMinValue_elem_of (d : T) (left : BSTNode T) : findMinValue d left ∈ contents left ++ [d].
Proof.
  pose proof (findMinValue_head d left []) as Hhead.
  destruct (contents left ++ [d]) as [|m rest]; [done|].
  injection Hhead as ->. left.
Qed.

Lemma findMinValue_least less (d : T) (left right : BSTNode T) (x : T) :
  StrictTotalOrder less -> ordered less (Node d left right) ->
  x ∈ contents (Node d left right) -> x <> findMinValue d left ->
  less (findMinValue d left) x = true.
Proof.
  intros Hsto Hord Hx Hne.
  pose proof (ordered_sorted less _ Hsto Hord) as Hsorted.
  pose proof (findMinValue_head d left (contents right)) as Hhead.
  simpl in Hsorted, Hx.
  destruct (contents left ++ d :: contents right) as [|m rest]; [done|].
  injection Hhead as Hm. subst m.
  apply elem_of_cons in Hx as [Hx|Hx]; [done|].
  apply StronglySorted_inv in Hsorted as [_ Hall].
  by apply (proj1 (Forall_forall _ _) Hall).
Qed.

Lemma deleteRecursive_ordered less node value :
  StrictTotalOrder less -> ordered less node ->
  ordered less (deleteRecursive less node value).
Proof.
  intros Hsto. revert value.
  induction node as [|v l IHl r IHr]; intros value; simpl; [done|].
  intros (Hl & Hr & Hlv & Hrv).
  destruct (less value v) eqn:E1.
  - simpl. repeat split; auto.
    intros x Hx. apply deleteRecursive_elem_of in Hx as [Hx _]; auto.
  - destruct (less v value) eqn:E2.
    + simpl. repeat split; auto.
      intros x Hx. apply deleteRecursive_elem_of in Hx as [Hx _]; auto.
    + destruct l as [|lv ll lr]; [done|].
      destruct r as [|rv rl rr]; [done|].
      remember (Node lv ll lr) as l eqn:El.
      remember (Node rv rl rr) as r eqn:Er.
      assert (findMinValue rv rl ∈ contents r) as Hm.
      { pose proof (findMinValue_elem_of rv rl) as Hm. rewrite Er. simpl.
        apply elem_of_app in Hm as [Hm|Hm]; apply elem_of_app; [by left|right].
        apply list_elem_of_singleton in Hm as ->. left. }
      simpl. repeat split; auto.
      * intros x Hx. eapply sto_trans; eauto.
      * intros x Hx. apply deleteRecursive_elem_of in Hx as [Hx Hne]; [|done..].
        rewrite Er in Hx, Hr. by apply (findMinValue_least less rv rl rr).
Qed.

Lemma filter_ne_length less (value : T) (xs : list T) :
  StrictTotalOrder less ->
  StronglySorted (fun a b => less a b = true) xs -> value ∈ xs ->
  S (length (filter (fun x => x <> value) xs)) = length xs.
Proof.
  intros Hsto Hsorted. induction Hsorted as [|x xs Hs IH Hall]; intros Hin.
  - by apply elem_of_nil in Hin.
  - destruct (decide (x = value)) as [->|Hne].
    + rewrite filter_cons_False by (intros Hne; by apply Hne).
      rewrite filter_ne_id; [done|].
      intros y Hy. apply not_eq_sym, (less_ne less); [done|].
      by apply (proj1 (Forall_forall _ _) Hall).
    + rewrite filter_cons_True by done. simpl. f_equal. apply IH.
      apply elem_of_cons in Hin as [->|Hin]; done.
Qed.

Lemma Delete_wf bst value : wf bst -> wf (Delete bst value).1.
Proof.
  intros Hwf. pose proof Hwf as [Hsto Hord Hsz]. unfold Delete.
  destruct (Search bst value) eqn:Hs; [|done].
  apply (searchRecursive_elem_of _ _ _ Hsto Hord) in Hs.
  split; simpl; [done|by apply deleteRecursive_ordered|].
  rewrite Hsz, !sizeOf_length, deleteRecursive_contents by done.
  pose proof (filter_ne_length _ value _ Hsto (ordered_sorted _ _ Hsto Hord) Hs).
  lia.
Qed.

Lemma Delete_Less bst value : Less (Delete bst value).1 = Less bst.
Proof. unfold Delete. by destruct (Search bst value). Qed.

(** Every BST built with the API from a comparator that is a strict total
    order is well-formed. *)
Lemma reachable_wf less bst :
  StrictTotalOrder less -> reachable less bst -> wf bst /\ Less bst = less.
Proof.
  intros Hsto. induction 1 as [|bst v _ [IH1 IH2]|bst v _ [IH1 IH2]|bst _ [IH1 IH2]].
  - split; [by apply NewBST_wf|done].
  - split; [by apply Insert_wf|by rewrite Insert_Less].
  - split; [by apply Delete_wf|by rewrite Delete_Less].
  - split; [|done]. split; simpl; [by rewrite IH2|done|done].
Qed.

(** ** Clone *)

Lemma cloneRecursive_fold node result :
  cloneRecursive node result = fold_left Insert (contents node) result.
Proof.
  revert result. induction node as [|v l IHl r IHr]; intros result; simpl; [done|].
  by rewrite fold_left_app, IHr, IHl.
Qed.

Lemma insertRecursive_chain less size (xs : list T) value :
  StrictTotalOrder less ->
  (forall x, x ∈ xs -> less x value = true) ->
  insertRecursive less size (chain xs) value = (chain (xs ++ [value]), size + 1).
Proof.
  intros Hsto. induction xs as [|x xs IH]; intros Hall; simpl; [done|].
  assert (less x value = true) as Hx by (apply Hall; left).
  rewrite (sto_asym less x value Hsto Hx), Hx.
  rewrite IH; [done|]. intros y Hy. apply Hall. by right.
Qed.

Lemma fold_Insert_chain less (xs ys : list T) size :
  StrictTotalOrder less ->
  StronglySorted (fun a b => less a b = true) (xs ++ ys) ->
  fold_left Insert ys {| Root := chain xs; Less := less; Size := size |}
  = {| Root := chain (xs ++ ys); Less := less;
       Size := size + Z.of_nat (length ys) |}.
Proof.
  intros Hsto. revert xs size. induction ys as [|y ys IH]; intros xs size Hsorted.
  - simpl. rewrite app_nil_r. f_equal. lia.
  - simpl. unfold Insert at 2. simpl.
    rewrite insertRecursive_chain; [|done|].
    + rewrite IH.
      * rewrite <- app_assoc. simpl. f_equal. lia.
      * by rewrite <- app_assoc.
    + intros x Hx.
      apply (StronglySorted_app_1_elem_of (fun a b => less a b = true) xs (y :: ys));
        [done|done|left].
Qed.

Lemma Clone_chain bst :
  wf bst ->
  Clone bst = {| Root := chain (InOrder bst); Less := Less bst; Size := Size bst |}.
Proof.
  intros [Hsto Hord Hsz]. unfold Clone, NewBST.
  rewrite cloneRecursive_fold.
  change {| Root := Nil; Less := Less bst; Size := 0 |}
    with {| Root := chain []; Less := Less bst; Size := 0 |}.
  rewrite (fold_Insert_chain (Less bst) [] (contents (Root bst)) 0 Hsto).
  - simpl. rewrite InOrder_contents, Hsz, sizeOf_length. done.
  - simpl. by apply ordered_sorted.
Qed.

Lemma contents_chain (xs : list T) : contents (chain xs) = xs.
Proof. induction xs as [|x xs IH]; simpl; [done|]. by rewrite IH. Qed.

Lemma preOrderRecursive_chain (xs result : list T) :
  preOrderRecursive (chain xs) result = result ++ xs.
Proof.
  revert result. induction xs as [|x xs IH]; intros result; simpl.
  - by rewrite app_nil_r.
  - rewrite IH. by rewrite <- app_assoc.
Qed.

Lemma heightRecursive_chain (xs : list T) :
  heightRecursive (chain xs) = Z.of_nat (length xs) - 1.
Proof.
  induction xs as [|x xs IH]; simpl; [done|]. rewrite IH. lia.
Qed.

Lemma levelOrderLoop_chain (fuel : nat) (x : T) (xs result : list T) :
  (length xs < fuel)%nat ->
  levelOrderLoop fuel [chain (x :: xs)] result = Some (result ++ x :: xs).
Proof.
  revert x xs result. induction fuel as [|fuel IH]; intros x xs result Hlen; [lia|].
  destruct xs as [|y ys]; simpl.
  - by destruct fuel.
  - simpl in Hlen. rewrite (IH y ys) by lia. by rewrite <- app_assoc.
Qed.

Lemma LevelOrder_chain less size (xs : list T) :
  LevelOrder {| Root := chain xs; Less := less; Size := size |} = Some xs.
Proof.
  destruct xs as [|x xs]; [done|].
  unfold LevelOrder. cbn [Root chain].
  change (Node x Nil (chain xs)) with (chain (x :: xs)).
  rewrite levelOrderLoop_chain; [done|].
  rewrite sizeOf_length, contents_chain. simpl. lia.
Qed.

Lemma equalsLoop_refl (xs : list T) : equalsLoop xs xs = Some true.
Proof.
  induction xs as [|x xs IH]; simpl; [done|].
  by destruct (decide (x = x)).
Qed.

End BSTFacts.

(* ===================================================================== *)
(** * Facts about the ordered map                                        *)
(* ===================================================================== *)

Section TreeMapFacts.
Context {K V : Type}.
Import TreeMap.

Implicit Types (node l r : TreeMapNode K V) (tm : TreeMap K V).

Lemma putRecursive_existing (less : K -> K -> bool) size node key value :
  is_Some (getNode less node key) ->
  exists node',
    putRecursive less size node key value = (node', size) /\
    skeleton node' = skeleton node /\
    snd <$> getNode less node' key = Some value.
Proof.
  induction node as [|k v l IHl r IHr]; simpl.
  - intros [? ?]. done.
  - destruct (less key k) eqn:E1.
    + intros Hsome. destruct (IHl Hsome) as (l' & -> & Hsk & Hget).
      exists (Node k v l' r). simpl. by rewrite E1, Hsk.
    + destruct (less k key) eqn:E2.
      * intros Hsome. destruct (IHr Hsome) as (r' & -> & Hsk & Hget).
        exists (Node k v l r'). simpl. by rewrite E1, E2, Hsk.
      * intros _. exists (Node k value l r). simpl. by rewrite E1, E2.
Qed.

Lemma skeleton_sizeOf node : BST.sizeOf (skeleton node) = sizeOf node.
Proof. induction node as [|k v l IHl r IHr]; simpl; [done|]. by rewrite IHl, IHr. Qed.

Lemma skeleton_keys node :
  contents (skeleton node) = (inOrderTraversal node).*1.
Proof.
  induction node as [|k v l IHl r IHr]; simpl; [done|].
  by rewrite fmap_app, IHl, IHr.
Qed.

Lemma Put_existing tm key value :
  ContainsKey tm key = true ->
  skeleton (root (Put tm key value)) = skeleton (root tm) /\
  size (Put tm key value) = size tm /\
  less (Put tm key value) = less tm /\
  Get (Put tm key value) key = Some value.
Proof.
  unfold ContainsKey, Put, Get. intros Hc. apply bool_decide_eq_true in Hc.
  destruct (putRecursive_existing (less tm) (size tm) (root tm) key value Hc)
    as (node' & -> & Hsk & Hget).
  simpl. done.
Qed.

End TreeMapFacts.

(* ===================================================================== *)
(** * The tree claims of the specification                               *)
(* ===================================================================== *)

Section TreeClaims.
Context {T : Type} `{EqDecision T}.
Import BST.

(** C1. For every sequence of [Insert] calls on a BST whose comparator
    is a strict total order (the empty BST of [NewBST], or any
    well-formed one), [InOrder] is non-decreasing under the comparator
    and its length is the tracked [Size]. *)
Theorem insert_sequence_sorted_and_counted
    (less : T -> T -> bool) (bst : BST T) (slice : list T) :
  StrictTotalOrder less ->
  bst = NewBST less \/ (wf bst /\ Less bst = less) ->
  nondecreasing less (InOrder (fold_left Insert slice bst)) /\
  Z.of_nat (length (InOrder (fold_left Insert slice bst)))
  = Size (fold_left Insert slice bst).
Proof.
  intros Hsto Hstart.
  assert (wf bst /\ Less bst = less) as [Hwf Hless].
  { destruct Hstart as [->|?]; [|done]. split; [by apply NewBST_wf|done]. }
  pose proof (fold_Insert_wf slice bst Hwf) as Hwf'.
  split; [|by apply wf_length].
  rewrite <- Hless, <- (fold_Insert_Less slice bst).
  by apply wf_nondecreasing.
Qed.

(** C6. On a well-formed BST, [Rank (Select r) = r] for every rank in
    [[0, Size)], [Select (Rank v) = v] for every value the tree holds, and
    [Select r] reports not-found exactly when [r] is outside [[0, Size)]. *)
Theorem rank_select_inverse (bst : BST T) :
  wf bst ->
  (forall r, 0 <= r < Size bst ->
     exists v, Select bst r = Found v /\ Rank bst v = r) /\
  (forall v, Search bst v = true -> Select bst (Rank bst v) = Found v) /\
  (forall r, Select bst r = NotFound <-> ~ (0 <= r < Size bst)).
Proof.
  intros [Hsto Hord Hsz].
  assert (forall r, 0 <= r < Size bst ->
            exists v, contents (Root bst) !! Z.to_nat r = Some v) as Hlookup.
  { intros r Hr. apply lookup_lt_is_Some_2.
    rewrite Hsz, sizeOf_length in Hr. lia. }
  split; [|split].
  - intros r Hr. destruct (Hlookup r Hr) as [v Hv]. exists v.
    unfold Select, Rank.
    replace ((r <? 0) || (r >=? Size bst)) with false by lia.
    rewrite selectRecursive_lookup, Hv by lia. split; [done|].
    rewrite (rankRecursive_lookup _ _ (Z.to_nat r) v Hsto Hord Hv). lia.
  - intros v Hv. apply (searchRecursive_elem_of _ _ _ Hsto Hord) in Hv.
    apply list_elem_of_lookup_1 in Hv as [i Hi].
    unfold Select, Rank.
    rewrite (rankRecursive_lookup _ _ i v Hsto Hord Hi).
    pose proof (lookup_lt_Some _ _ _ Hi) as Hlt.
    rewrite Hsz, sizeOf_length.
    replace ((Z.of_nat i <? 0) || (Z.of_nat i >=? Z.of_nat (length (contents (Root bst)))))
      with false by lia.
    rewrite selectRecursive_lookup by lia. by rewrite Nat2Z.id, Hi.
  - intros r. unfold Select.
    destruct ((r <? 0) || (r >=? Size bst)) eqn:E.
    + split; [lia|done].
    + split; [|lia]. destruct (Hlookup r ltac:(lia)) as [v Hv].
      rewrite selectRecursive_lookup, Hv by lia. done.
Qed.

(** C8, as the code has it. [Clone] does not copy the shape: it inserts
    the values in in-order into an empty BST. On a well-formed BST the
    clone holds the same sorted sequence and the same [Size] and [Equals]
    the original, and it is the right-leaning chain of that sequence, so
    its [PreOrder] and [LevelOrder] are the original's [InOrder] and its
    [Height] is [Size - 1]. *)
Theorem clone_is_sorted_chain (bst : BST T) :
  wf bst ->
  InOrder (Clone bst) = InOrder bst /\
  Size (Clone bst) = Size bst /\
  Equals bst (Clone bst) = Some true /\
  Root (Clone bst) = chain (InOrder bst) /\
  PreOrder (Clone bst) = InOrder bst /\
  LevelOrder (Clone bst) = Some (InOrder bst) /\
  Height (Clone bst) = Size bst - 1.
Proof.
  intros Hwf. rewrite (Clone_chain bst Hwf).
  assert (InOrder {| Root := chain (InOrder bst); Less := Less bst; Size := Size bst |}
          = InOrder bst) as Hin.
  { rewrite (InOrder_contents {| Root := chain (InOrder bst) |}). simpl.
    apply contents_chain. }
  repeat split.
  - exact Hin.
  - unfold Equals. simpl. rewrite decide_True by done.
    rewrite Hin. apply equalsLoop_refl.
  - unfold PreOrder. simpl. by rewrite preOrderRecursive_chain.
  - apply LevelOrder_chain.
  - unfold Height. simpl. rewrite heightRecursive_chain.
    destruct Hwf as [_ _ Hsz]. rewrite Hsz, sizeOf_length, InOrder_contents. done.
Qed.

End TreeClaims.

Section TreeMapClaims.
Context {T K V : Type} `{EqDecision T}.

(** C5. Inserting a value that a well-formed BST holds leaves the BST as
    it is (root, comparator and [Size], hence [InOrder] and the shape),
    whereas [Put] on a TreeMap with a key it contains keeps the shape,
    the keys and the size and overwrites the value: [Get] then returns
    the new value. *)
Theorem insert_existing_noop_put_existing_overwrites :
  (forall (bst : BST.BST T) (v : T),
     wf bst -> BST.Search bst v = true -> BST.Insert bst v = bst) /\
  (forall (tm : TreeMap.TreeMap K V) (key : K) (value : V),
     TreeMap.ContainsKey tm key = true ->
     skeleton (TreeMap.root (TreeMap.Put tm key value)) = skeleton (TreeMap.root tm) /\
     TreeMap.Size (TreeMap.Put tm key value) = TreeMap.Size tm /\
     TreeMap.Get (TreeMap.Put tm key value) key = Some value).
Proof.
  split.
  - intros bst v [Hsto Hord Hsz] Hs.
    apply (searchRecursive_elem_of _ _ _ Hsto Hord) in Hs.
    unfold BST.Insert. rewrite insertRecursive_present by done.
    by destruct bst.
  - intros tm key value Hc.
    destruct (Put_existing tm key value Hc) as (Hsk & Hsz & _ & Hget).
    done.
Qed.

End TreeMapClaims.

(** ** The tree claims at concrete inputs *)

(** C1 on the scenario of the specification: the values 5,3,7,2,4,6,8
    inserted into an empty BST of integers. *)
Lemma insert_sequence_sorted_and_counted_witness :
  nondecreasing Z.ltb (BST.InOrder (fold_left BST.Insert [5;3;7;2;4;6;8] (BST.NewBST Z.ltb))) /\
  Z.of_nat (length (BST.InOrder (fold_left BST.Insert [5;3;7;2;4;6;8] (BST.NewBST Z.ltb))))
  = BST.Size (fold_left BST.Insert [5;3;7;2;4;6;8] (BST.NewBST Z.ltb)).
Proof.
  apply (insert_sequence_sorted_and_counted Z.ltb (BST.NewBST Z.ltb) [5;3;7;2;4;6;8]).
  - split; intros; lia.
  - left. reflexivity.
Defined.

Lemma scenario_wf : wf (BST.NewBSTFromSlice [5;3;7;2;4;6;8] Z.ltb).
Proof. apply fold_Insert_wf, NewBST_wf, Zltb_strict_total. Defined.

(** C6 on the same tree. *)
Lemma rank_select_inverse_witness :
  (forall r, 0 <= r < 7 ->
     exists v, BST.Select (BST.NewBSTFromSlice [5;3;7;2;4;6;8] Z.ltb) r = BST.Found v /\
               BST.Rank (BST.NewBSTFromSlice [5;3;7;2;4;6;8] Z.ltb) v = r) /\
  (forall v, BST.Search (BST.NewBSTFromSlice [5;3;7;2;4;6;8] Z.ltb) v = true ->
     BST.Select (BST.NewBSTFromSlice [5;3;7;2;4;6;8] Z.ltb)
       (BST.Rank (BST.NewBSTFromSlice [5;3;7;2;4;6;8] Z.ltb) v) = BST.Found v) /\
  (forall r, BST.Select (BST.NewBSTFromSlice [5;3;7;2;4;6;8] Z.ltb) r = BST.NotFound
             <-> ~ (0 <= r < 7)).
Proof.
  exact (rank_select_inverse (BST.NewBSTFromSlice [5;3;7;2;4;6;8] Z.ltb) scenario_wf).
Defined.

(** C5: 3 is inserted again into the BST of the scenario, and the key 1
    is put again into a TreeMap that maps 1 and 2. *)
Lemma insert_existing_noop_put_existing_overwrites_witness :
  BST.Insert (BST.NewBSTFromSlice [5;3;7;2;4;6;8] Z.ltb) 3
  = BST.NewBSTFromSlice [5;3;7;2;4;6;8] Z.ltb /\
  let tm := TreeMap.Put (TreeMap.Put (TreeMap.NewTreeMap Z.ltb) 1 10) 2 20 in
  skeleton (TreeMap.root (TreeMap.Put tm 1 11)) = skeleton (TreeMap.root tm) /\
  TreeMap.Size (TreeMap.Put tm 1 11) = TreeMap.Size tm /\
  TreeMap.Get (TreeMap.Put tm 1 11) 1 = Some 11.
Proof.
  destruct (@insert_existing_noop_put_existing_overwrites Z Z Z _) as [Hbst Htm].
  split.
  - apply Hbst; [exact scenario_wf | reflexivity].
  - apply Htm. reflexivity.
Defined.

(** C8 as amended, on the BST built from 2,1,3. *)
Lemma clone_is_sorted_chain_witness :
  let bst := BST.NewBSTFromSlice [2;1;3] Z.ltb in
  BST.InOrder (BST.Clone bst) = BST.InOrder bst /\
  BST.Size (BST.Clone bst) = BST.Size bst /\
  BST.Equals bst (BST.Clone bst) = Some true /\
  BST.Root (BST.Clone bst) = chain (BST.InOrder bst) /\
  BST.PreOrder (BST.Clone bst) = BST.InOrder bst /\
  BST.LevelOrder (BST.Clone bst) = Some (BST.InOrder bst) /\
  BST.Height (BST.Clone bst) = BST.Size bst - 1.
Proof.
  apply (clone_is_sorted_chain (BST.NewBSTFromSlice [2;1;3] Z.ltb)).
  apply fold_Insert_wf, NewBST_wf. split; intros; lia.
Defined.

(** C8 as stated fails: the BST built from 2,1,3 has 2 at the root with
    two children; its clone is the chain 1, 2, 3, and the pre-order and
    level-order sequences, the height and the balance all differ. *)
Lemma clone_shape_counterexample :
  let bst := BST.NewBSTFromSlice [2;1;3] Z.ltb in
  BST.PreOrder (BST.Clone bst) <> BST.PreOrder bst /\
  BST.LevelOrder (BST.Clone bst) <> BST.LevelOrder bst /\
  BST.Height (BST.Clone bst) <> BST.Height bst /\
  BST.IsBalanced (BST.Clone bst) <> BST.IsBalanced bst.
Proof. repeat split; intros Heq; vm_compute in Heq; discriminate Heq. Qed.

(* ===================================================================== *)
(** * Facts about the prefix tree                                        *)
(* ===================================================================== *)

Section GoStringFacts.
Import GoString.

Lemma runes_ascii (s : list byte) : isASCII s = true -> runes s = byteRunes s.
Proof.
  induction s as [|b s IH]; simpl; [done|].
  intros Hs. apply andb_true_iff in Hs as [Hb Hs].
  rewrite Hb. unfold byteRunes in IH. by rewrite IH.
Qed.

Lemma byteVal_inj (a b : byte) : byteVal a = byteVal b -> a = b.
Proof.
  unfold byteVal. intros Heq. apply N2Z.inj in Heq.
  assert (Byte.of_N (Byte.to_N a) = Byte.of_N (Byte.to_N b)) as Hof by congruence.
  rewrite !Byte.of_to_N in Hof. congruence.
Qed.

(** A string whose runes are those of a string of ASCII bytes is that
    string: every rune that is not a single byte below 0x80 is above 0x7F. *)
Lemma runes_ascii_inj (s' s : list byte) :
  isASCII s = true -> runes s' = byteRunes s -> s' = s.
Proof.
  revert s'. induction s as [|b s IH]; intros s' Hs Hr.
  - destruct s' as [|b0 t0]; [done|]. simpl in Hr.
    repeat case_match; discriminate.
  - simpl in Hs. apply andb_true_iff in Hs as [Hb Hs].
    apply Z.ltb_lt in Hb.
    destruct s' as [|b0 t0]; [done|].
    cbn [runes] in Hr.
    destruct (byteVal b0 <? 128) eqn:E0.
    + cbn [byteRunes fmap list_fmap] in Hr. injection Hr as Hhd Htl.
      apply byteVal_inj in Hhd as ->. f_equal. by apply IH.
    + exfalso. cbn [byteRunes fmap list_fmap] in Hr. unfold runeOfByte, runeError in Hr.
      repeat case_match; simplify_eq;
        repeat match goal with
               | Hc : _ && _ = true |- _ => apply andb_true_iff in Hc as [? ?]
               end; lia.
Qed.

End GoStringFacts.

Section TrieFacts.
Context {V : Type}.
Import GoString Trie.

Implicit Types (node child : TrieNode V) (t : Trie V) (q : list Z).

Lemma Search_holds t word : Search t word = holds (root t) (runes word).
Proof. done. Qed.

(** A node that [deleteRecursive] asks its caller to delete is empty:
    it ends no word and has no child. *)
Lemma deleteRecursive_prunes sz node rest node' sz' :
  deleteRecursive sz node rest = (node', sz', true) ->
  children node' = ∅ /\ isEnd node' = false.
Proof.
  destruct rest as [|b rest]; simpl.
  - destruct (isEnd node); [|intros; simplify_eq].
    intros Heq. injection Heq as <- _ Hsize. simpl.
    apply bool_decide_eq_true in Hsize. by apply map_size_empty_iff in Hsize.
  - destruct (children node !! runeOfByte b) as [child|]; [|intros; simplify_eq].
    destruct (deleteRecursive sz child rest) as [[child' sz''] []].
    + intros Heq. injection Heq as <- _ Hb. simpl.
      apply andb_true_iff in Hb as [Hend Hsize].
      apply bool_decide_eq_true in Hsize. apply map_size_empty_iff in Hsize.
      by apply negb_true_iff in Hend.
    + intros; simplify_eq.
Qed.

Lemma holds_empty node q :
  children node = ∅ -> isEnd node = false -> holds node q = false.
Proof.
  intros Hc He. unfold holds. destruct q as [|c q]; simpl; [done|].
  by rewrite Hc, lookup_empty.
Qed.

Lemma holds_cons node c q :
  holds node (c :: q)
  = match children node !! c with Some child => holds child q | None => false end.
Proof. unfold holds. simpl. by destruct (children node !! c). Qed.

(** What [deleteRecursive] does to the stored words: the word spelled by
    the bytes of [rest], each taken as a rune, is no longer stored, and
    every other word is stored exactly when it was. *)
Lemma deleteRecursive_holds sz node rest q :
  holds (deleteRecursive sz node rest).1.1 q
  = holds node q && negb (bool_decide (q = byteRunes rest)).
Proof.
  revert sz node q. induction rest as [|b rest IH]; intros sz node q; simpl.
  - destruct (isEnd node) eqn:Hend; simpl.
    + destruct q as [|c q].
      * rewrite bool_decide_eq_true_2 by done. by rewrite andb_false_r.
      * rewrite bool_decide_eq_false_2 by done.
        rewrite !holds_cons. simpl. by rewrite andb_true_r.
    + destruct q as [|c q].
      * unfold holds. simpl. by rewrite Hend.
      * rewrite bool_decide_eq_false_2 by done. by rewrite andb_true_r.
  - destruct (children node !! runeOfByte b) as [child|] eqn:Hchild.
    + pose proof (IH sz child) as IHc.
      pose proof (deleteRecursive_prunes sz child rest) as Hprune.
      destruct (deleteRecursive sz child rest) as [[child' sz'] del].
      simpl in IHc. destruct del; simpl.
      * destruct (Hprune child' sz' eq_refl) as [Hc He].
        destruct q as [|c q].
        { rewrite bool_decide_eq_false_2 by done. by rewrite andb_true_r. }
        rewrite !holds_cons. simpl.
        destruct (decide (c = runeOfByte b)) as [->|Hne].
        -- rewrite lookup_delete_eq, Hchild.
           pose proof (IHc q) as Hq. rewrite (holds_empty child' q Hc He) in Hq.
           destruct (decide (q = byteRunes rest)) as [->|Hq'].
           ++ rewrite bool_decide_eq_true_2 by done. by rewrite andb_false_r.
           ++ rewrite bool_decide_eq_false_2 in Hq by done.
              rewrite bool_decide_eq_false_2 by congruence.
              by rewrite andb_true_r in *.
        -- rewrite lookup_delete_ne by done.
           rewrite bool_decide_eq_false_2 by congruence.
           by rewrite andb_true_r.
      * destruct q as [|c q].
        { rewrite bool_decide_eq_false_2 by done. by rewrite andb_true_r. }
        rewrite !holds_cons. simpl.
        destruct (decide (c = runeOfByte b)) as [->|Hne].
        -- rewrite lookup_insert_eq, Hchild, IHc.
           f_equal. f_equal. apply bool_decide_ext. split; congruence.
        -- rewrite lookup_insert_ne by done.
           rewrite bool_decide_eq_false_2 by congruence.
           by rewrite andb_true_r.
    + simpl. destruct q as [|c q].
      { rewrite bool_decide_eq_false_2 by done. by rewrite andb_true_r. }
      rewrite holds_cons.
      destruct (decide (c = runeOfByte b)) as [->|Hne].
      * by rewrite Hchild.
      * rewrite bool_decide_eq_false_2 by congruence.
        by rewrite andb_true_r.
Qed.

(** [deleteRecursive] returns false and leaves the size alone when the
    word spelled by the bytes is not stored. *)
Lemma deleteRecursive_absent sz node rest :
  holds node (byteRunes rest) = false ->
  (deleteRecursive sz node rest).2 = false /\
  (deleteRecursive sz node rest).1.2 = sz.
Proof.
  revert sz node. induction rest as [|b rest IH]; intros sz node; simpl.
  - unfold holds. simpl. by intros ->.
  - rewrite holds_cons.
    destruct (children node !! runeOfByte b) as [child|]; [|done].
    intros Hchild. destruct (IH sz child Hchild) as [Hb Hsz].
    destruct (deleteRecursive sz child rest) as [[child' sz'] del].
    simpl in *. by subst.
Qed.

Lemma Delete_absent_ascii t word :
  isASCII word = true -> Search t word = false ->
  (Delete t word).2 = false /\ Size (Delete t word).1 = Size t.
Proof.
  intros Hascii Hs. rewrite Search_holds, (runes_ascii word Hascii) in Hs.
  unfold Delete, Size.
  destruct (deleteRecursive_absent (size t) (root t) word Hs) as [Hb Hsz].
  destruct (deleteRecursive (size t) (root t) word) as [[root' sz'] b].
  simpl in *. by subst.
Qed.

(** On a word of ASCII bytes [Delete] does what the specification says,
    whatever the trie holds: the word is gone and every other word is
    found exactly when it was. *)
Lemma Delete_ascii t word :
  isASCII word = true ->
  Search (Delete t word).1 word = false /\
  (forall other, other <> word -> Search (Delete t word).1 other = Search t other).
Proof.
  intros Hascii. unfold Delete.
  pose proof (deleteRecursive_holds (size t) (root t) word) as Hholds.
  destruct (deleteRecursive (size t) (root t) word) as [[root' sz'] b].
  simpl in *. split.
  - rewrite Search_holds. simpl. rewrite Hholds, (runes_ascii word Hascii).
    rewrite bool_decide_eq_true_2 by done. by rewrite andb_false_r.
  - intros other Hne. rewrite !Search_holds. simpl. rewrite Hholds.
    rewrite bool_decide_eq_false_2; [by rewrite andb_true_r|].
    intros Heq. apply Hne. by apply runes_ascii_inj.
Qed.

End TrieFacts.

(* ===================================================================== *)
(** * The trie claims of the specification                               *)
(* ===================================================================== *)

Section TrieClaims.
Import GoString Trie.

(** C2 fails on the code. [InsertWithValue] and [searchNode] walk the
    runes of the word, [deleteRecursive] walks its bytes. On the trie
    that holds "é", [Delete "é"] looks for the child U+00C3, finds none
    and changes nothing: the word is still found. On the trie that holds
    "Ã©" and not "é", [Delete "é"] walks U+00C3, U+00A9 and removes the
    other word. *)
Theorem delete_walks_bytes_not_runes :
  (let t := Insert (V:=unit) NewTrie word_e_acute in
   Search t word_e_acute = true /\
   Delete t word_e_acute = (t, false) /\
   Search (Delete t word_e_acute).1 word_e_acute = true) /\
  (let t := Insert (V:=unit) NewTrie word_A_tilde_copyright in
   Search t word_e_acute = false /\
   Search t word_A_tilde_copyright = true /\
   Search (Delete t word_e_acute).1 word_A_tilde_copyright = false).
Proof. vm_compute. repeat split; reflexivity. Qed.

(** C3 fails on the code. [Delete] returns the boolean of
    [deleteRecursive] at the root, and that boolean tells the caller
    whether the node can be removed from its parent. With "app" and
    "apple" stored, [Delete "app"] removes the word (it is no longer
    found and the size goes from 2 to 1) and returns false; it returns
    true for the same word when it is the only word of the trie. *)
Theorem delete_returns_prune_flag :
  (let t := NewTrieFromSlice (V:=unit) [word_app; word_apple] in
   Search t word_app = true /\
   (Delete t word_app).2 = false /\
   Search (Delete t word_app).1 word_app = false /\
   Size t = 2 /\ Size (Delete t word_app).1 = 1) /\
  (let t := NewTrieFromSlice (V:=unit) [word_app] in
   Search t word_app = true /\ (Delete t word_app).2 = true).
Proof. vm_compute. repeat split; reflexivity. Qed.

End TrieClaims.

(* ===================================================================== *)
(** * Facts about the graph                                              *)
(* ===================================================================== *)

Section GoSetFacts.
Context {T : Type} `{Countable T}.

Lemma fold_Add (slice : list T) (s : gset T) :
  fold_left GoSet.Add slice s = list_to_set slice ∪ s.
Proof.
  revert s. induction slice as [|x slice IH]; intros s; simpl.
  - set_solver.
  - rewrite IH. unfold GoSet.Add. set_solver.
Qed.

Lemma NewSetFromSlice_list_to_set (slice : list T) :
  GoSet.NewSetFromSlice slice = list_to_set slice.
Proof. unfold GoSet.NewSetFromSlice, GoSet.NewSet. rewrite fold_Add. set_solver. Qed.

Lemma IsSubset_subseteq (s other : gset T) :
  GoSet.IsSubset s other = true <-> s ⊆ other.
Proof.
  unfold GoSet.IsSubset, GoSet.Contains. rewrite forallb_forall. split.
  - intros Hall x Hx. apply (bool_decide_eq_true_1 _), Hall.
    apply list_elem_of_In. by apply elem_of_elements.
  - intros Hsub x Hx. apply (bool_decide_eq_true_2 _), Hsub.
    apply elem_of_elements. by apply list_elem_of_In.
Qed.

Lemma GoSet_Equals_eq (s other : gset T) :
  GoSet.Equals s other = true <-> s = other.
Proof.
  unfold GoSet.Equals, GoSet.Size. split.
  - destruct (decide (size s = size other)) as [Hsz|]; [|done].
    intros Hsub. apply IsSubset_subseteq in Hsub.
    apply set_subseteq_size_eq; [done|lia].
  - intros ->. rewrite decide_True by done. by apply IsSubset_subseteq.
Qed.

End GoSetFacts.

Section GraphFacts.
Context {T : Type} `{Countable T}.
Import Graph.

Implicit Types (g other : Graph T) (node u v : T).

Lemma HasNode_false g node :
  HasNode g node = false -> adjacency g !! node = None.
Proof.
  unfold HasNode. intros Hn. apply bool_decide_eq_false in Hn.
  by apply eq_None_not_Some.
Qed.

Lemma GetNeighbors_missing g node :
  HasNode g node = false -> GetNeighbors g node = [].
Proof. intros Hn. unfold GetNeighbors. by rewrite (HasNode_false g node Hn). Qed.

(** ** Equals *)

Lemma Equals_spec g other :
  Equals g other = true <->
  directed g = directed other /\
  dom (adjacency g) = dom (adjacency other) /\
  (forall node neighbors otherNeighbors,
     adjacency g !! node = Some neighbors ->
     adjacency other !! node = Some otherNeighbors ->
     length neighbors = length otherNeighbors /\
     list_to_set neighbors =@{gset T} list_to_set otherNeighbors).
Proof.
  unfold Equals. split.
  - destruct (bool_decide (directed g = directed other)) eqn:Hd; [|done].
    apply bool_decide_eq_true in Hd.
    destruct (bool_decide (size (adjacency g) = size (adjacency other))) eqn:Hs; [|done].
    apply bool_decide_eq_true in Hs. simpl.
    rewrite forallb_forall. intros Hall.
    assert (forall node neighbors, adjacency g !! node = Some neighbors ->
              exists otherNeighbors, adjacency other !! node = Some otherNeighbors /\
                length neighbors = length otherNeighbors /\
                list_to_set neighbors =@{gset T} list_to_set otherNeighbors) as Hnode.
    { intros node neighbors Hg.
      specialize (Hall (node, neighbors)). simpl in Hall.
      assert (In (node, neighbors) (map_to_list (adjacency g))) as Hin
        by (apply list_elem_of_In; by apply elem_of_map_to_list).
      specialize (Hall Hin).
      destruct (adjacency other !! node) as [otherNeighbors|]; [|done].
      exists otherNeighbors. split; [done|].
      destruct (bool_decide (length neighbors = length otherNeighbors)) eqn:Hl; [|done].
      apply bool_decide_eq_true in Hl. simpl in Hall.
      apply GoSet_Equals_eq in Hall. by rewrite !NewSetFromSlice_list_to_set in Hall. }
    split; [done|]. split.
    + apply set_subseteq_size_eq.
      * intros node Hn. apply elem_of_dom in Hn as [neighbors Hn].
        destruct (Hnode node neighbors Hn) as (o & Ho & _). apply elem_of_dom. eauto.
      * rewrite !size_dom. lia.
    + intros node neighbors otherNeighbors Hg Ho.
      destruct (Hnode node neighbors Hg) as (o & Ho' & Hl & Hset). by simplify_eq.
  - intros (Hd & Hdom & Hnode).
    rewrite (bool_decide_eq_true_2 _ Hd). simpl.
    assert (size (adjacency g) = size (adjacency other)) as Hs
      by (by rewrite <- !size_dom, Hdom).
    rewrite (bool_decide_eq_true_2 _ Hs). simpl.
    apply forallb_forall. intros [node neighbors] Hin.
    apply list_elem_of_In, elem_of_map_to_list in Hin.
    assert (is_Some (adjacency other !! node)) as [otherNeighbors Ho].
    { apply elem_of_dom. rewrite <- Hdom. apply elem_of_dom. eauto. }
    rewrite Ho. destruct (Hnode node neighbors otherNeighbors Hin Ho) as [Hl Hset].
    rewrite (bool_decide_eq_true_2 _ Hl). simpl.
    apply GoSet_Equals_eq. by rewrite !NewSetFromSlice_list_to_set.
Qed.

End GraphFacts.


(** ** Cycle detection and topological order on an acyclic graph *)

Section TraversalFacts.
Context {T : Type} `{Countable T}.
Import Graph.

Implicit Types (g : Graph T) (node u v : T) (visited recStack : gset T)
  (result : list T).

Lemma edge_universe g u v : edge g u v -> v ∈ universe g.
Proof.
  unfold edge, GetNeighbors.
  destruct (adjacency g !! u) as [neighbors|] eqn:E; [|by intros ?%elem_of_nil].
  intros Hv. unfold universe. apply elem_of_union. right.
  apply elem_of_union_list. exists (list_to_set neighbors).
  split; [|by apply elem_of_list_to_set].
  apply list_elem_of_fmap. exists neighbors. split; [done|].
  apply list_elem_of_fmap. exists (u, neighbors). split; [done|].
  by apply elem_of_map_to_list.
Qed.

Lemma key_universe g node : node ∈ keys g -> node ∈ universe g.
Proof.
  unfold keys, universe. intros Hk. apply elem_of_union. left.
  apply list_elem_of_fmap in Hk as ([k neighbors] & -> & Hk).
  apply elem_of_map_to_list in Hk. apply elem_of_dom. eauto.
Qed.

Lemma HasNode_keys g node : HasNode g node = true <-> node ∈ keys g.
Proof.
  unfold HasNode, keys. rewrite bool_decide_eq_true. split.
  - intros [neighbors Hn]. apply list_elem_of_fmap. exists (node, neighbors).
    split; [done|]. by apply elem_of_map_to_list.
  - intros Hk. apply list_elem_of_fmap in Hk as ([k neighbors] & -> & Hk).
    apply elem_of_map_to_list in Hk. eauto.
Qed.

Lemma HasEdge_edge g u v : HasEdge g u v = true <-> edge g u v.
Proof.
  unfold HasEdge, edge, GetNeighbors.
  destruct (adjacency g !! u) as [neighbors|].
  - rewrite existsb_exists. split.
    + intros (x & Hx & Hb). apply bool_decide_eq_true in Hb as <-.
      by apply list_elem_of_In.
    + intros Hv. exists v. split; [by apply list_elem_of_In|].
      by apply bool_decide_eq_true.
  - split; [done|]. by intros ?%elem_of_nil.
Qed.

Lemma size_unvisited_mono g visited visited' :
  visited ⊆ visited' ->
  (size (universe g ∖ visited') <= size (universe g ∖ visited))%nat.
Proof. intros Hsub. apply subseteq_size. set_solver. Qed.

Lemma size_unvisited_mark g node visited :
  node ∈ universe g -> node ∉ visited ->
  (size (universe g ∖ ({[node]} ∪ visited)) < size (universe g ∖ visited))%nat.
Proof. intros Hu Hv. apply subset_size. set_solver. Qed.

Lemma size_unvisited_fuel g visited :
  (size (universe g ∖ visited) < fuelOf g)%nat.
Proof.
  unfold fuelOf. apply Nat.lt_succ_r. apply subseteq_size. set_solver.
Qed.

(** *** HasCycle *)

Lemma hasCycleNeighbors_acyclic g n rec node neighbors visited recStack :
  acyclic g -> cycleCallOk g n rec ->
  (forall x, x ∈ neighbors -> edge g node x) ->
  (size (universe g ∖ visited) < n)%nat ->
  visited ⊆ universe g -> recStack ⊆ visited ->
  (forall x, x ∈ recStack -> rtc (edge g) x node) ->
  exists visited',
    hasCycleNeighbors rec neighbors visited recStack = Some (false, visited', recStack) /\
    visited ⊆ visited' /\ visited' ⊆ universe g.
Proof.
  intros Hacyclic Hrec. revert visited.
  induction neighbors as [|x neighbors IH];
    intros visited Hedges Hsize Hvu Hstack Hreach; simpl.
  - eauto.
  - assert (edge g node x) as Hx by (apply Hedges; left).
    assert (forall y, y ∈ neighbors -> edge g node y) as Hrest
      by (intros y Hy; apply Hedges; by right).
    destruct (decide (x ∈ visited)) as [Hin|Hnotin].
    + destruct (decide (x ∈ recStack)) as [Hs|Hs]; [|by apply IH].
      exfalso. apply (Hacyclic x).
      eapply tc_rtc_l; [by apply Hreach|]. by apply tc_once.
    + destruct (Hrec x visited recStack) as (v1 & -> & Hsub1 & Hu1); auto.
      { by eapply edge_universe. }
      { intros y Hy. eapply rtc_r; [by apply Hreach|done]. }
      destruct (IH v1) as (v2 & -> & Hsub2 & Hu2); auto.
      { assert (visited ⊆ v1) as Hmono by set_solver.
        pose proof (size_unvisited_mono g visited v1 Hmono). lia. }
      { set_solver. }
      exists v2. split; [done|]. split; [set_solver|done].
Qed.

Lemma hasCycleDFS_acyclic g fuel :
  acyclic g -> cycleCallOk g fuel (hasCycleDFS fuel g).
Proof.
  intros Hacyclic. induction fuel as [|fuel IH];
    intros node visited recStack Hsize Hnode Hfresh Hvu Hstack Hreach; [lia|].
  simpl.
  destruct (hasCycleNeighbors_acyclic g fuel (hasCycleDFS fuel g) node
              (GetNeighbors g node) ({[node]} ∪ visited) ({[node]} ∪ recStack))
    as (v1 & -> & Hsub1 & Hu1); auto.
  - pose proof (size_unvisited_mark g node visited Hnode Hfresh). lia.
  - set_solver.
  - set_solver.
  - intros x Hx. apply elem_of_union in Hx as [Hx|Hx]; [|by apply Hreach].
    apply elem_of_singleton in Hx as ->. apply rtc_refl.
  - exists v1. split; [|done].
    assert (({[node]} ∪ recStack) ∖ {[node]} = recStack) as -> by set_solver.
    done.
Qed.

Lemma hasCycleLoop_acyclic g order visited :
  acyclic g -> (forall x, x ∈ order -> x ∈ universe g) -> visited ⊆ universe g ->
  hasCycleLoop g order visited ∅ = Some false.
Proof.
  intros Hacyclic. revert visited.
  induction order as [|node order IH]; intros visited Horder Hvu;
    cbn [hasCycleLoop]; [done|].
  assert (forall x, x ∈ order -> x ∈ universe g) as Hrest
    by (intros x Hx; apply Horder; by right).
  destruct (decide (node ∈ visited)) as [Hin|Hfresh]; [by apply IH|].
  assert (node ∈ universe g) as Hnode by (apply Horder; left).
  destruct (hasCycleDFS_acyclic g (fuelOf g) Hacyclic node visited ∅
              (size_unvisited_fuel g visited) Hnode Hfresh Hvu)
    as (v1 & -> & Hsub1 & Hu1); [set_solver|set_solver|].
  by apply IH.
Qed.

Lemma HasCycle_acyclic g order :
  acyclic g -> order ≡ₚ keys g -> HasCycle order g = Some false.
Proof.
  intros Hacyclic Hperm. unfold HasCycle. apply hasCycleLoop_acyclic; [done| |done].
  intros x Hx. apply key_universe. by rewrite <- Hperm.
Qed.

(** *** TopologicalSort *)

Lemma extends_refl visited result : extends visited result visited result.
Proof.
  exists []. rewrite app_nil_r. split; [done|]. split.
  - intros x. split; [by left|]. intros [Hx|Hx]; [done|by apply elem_of_nil in Hx].
  - intros x Hx. by apply elem_of_nil in Hx.
Qed.

Lemma extends_trans visited1 result1 visited2 result2 visited3 result3 :
  extends visited1 result1 visited2 result2 ->
  extends visited2 result2 visited3 result3 ->
  extends visited1 result1 visited3 result3.
Proof.
  intros (new1 & -> & Hv1 & Hf1) (new2 & -> & Hv2 & Hf2).
  exists (new1 ++ new2). rewrite app_assoc. split; [done|]. split.
  - intros x. rewrite Hv2, Hv1, elem_of_app. tauto.
  - intros x Hx. apply elem_of_app in Hx as [Hx|Hx]; [by apply Hf1|].
    intros Hin. apply (Hf2 x Hx). apply Hv1. by left.
Qed.

Lemma extends_visited visited result visited' result' :
  extends visited result visited' result' -> visited ⊆ visited'.
Proof. intros (new & -> & Hv & Hf) x Hx. apply Hv. by left. Qed.

Lemma precedes_app u v result new :
  precedes u v result -> precedes u v (result ++ new).
Proof.
  intros (l1 & l2 & l3 & ->). exists l1, l2, (l3 ++ new).
  rewrite <- !app_assoc. simpl. by rewrite <- !app_assoc.
Qed.

Lemma precedes_reverse u v result :
  precedes v u result -> precedes u v (reverse result).
Proof.
  intros (l1 & l2 & l3 & ->). exists (reverse l3), (reverse l2), (reverse l1).
  rewrite reverse_app, reverse_cons, reverse_app, reverse_cons.
  by rewrite <- !app_assoc.
Qed.

Lemma finished_snoc g result node :
  finished g result ->
  (forall v, edge g node v -> v ∈ result) ->
  finished g (result ++ [node]).
Proof.
  intros Hfin Hnode u v Hu Huv.
  apply elem_of_app in Hu as [Hu|Hu].
  - apply precedes_app. by apply Hfin.
  - apply list_elem_of_singleton in Hu as ->.
    destruct (list_elem_of_split _ _ (Hnode v Huv)) as (l1 & l2 & ->).
    exists l1, l2, []. by rewrite <- app_assoc.
Qed.

Lemma topoNeighbors_acyclic g n rec node neighbors visited result :
  acyclic g -> topoCallOk g n rec ->
  (forall x, x ∈ neighbors -> edge g node x) ->
  (size (universe g ∖ visited) < n)%nat ->
  topoState g visited result ->
  node ∈ visited -> node ∉ result ->
  (forall x, x ∈ visited -> x ∉ result -> rtc (edge g) x node) ->
  exists visited' result',
    topoNeighbors rec neighbors visited result = Some (visited', result') /\
    topoState g visited' result' /\
    extends visited result visited' result' /\
    (forall x, x ∈ neighbors -> x ∈ result').
Proof.
  intros Hacyclic Hrec. revert visited result.
  induction neighbors as [|x neighbors IH];
    intros visited result Hedges Hsize Hst Hnode Hopen Hreach; simpl.
  - exists visited, result. split; [done|]. split; [done|].
    split; [apply extends_refl|]. intros x Hx. by apply elem_of_nil in Hx.
  - assert (edge g node x) as Hx by (apply Hedges; left).
    assert (forall y, y ∈ neighbors -> edge g node y) as Hrest
      by (intros y Hy; apply Hedges; by right).
    destruct (decide (x ∈ visited)) as [Hin|Hfresh].
    + assert (x ∈ result) as Hdone.
      { destruct (decide (x ∈ result)) as [|Hnot]; [done|]. exfalso.
        apply (Hacyclic x). eapply tc_rtc_l; [by apply Hreach|]. by apply tc_once. }
      destruct (IH visited result) as (v2 & r2 & -> & Hst2 & Hext2 & Hall2); auto.
      exists v2, r2. split; [done|]. split; [done|]. split; [done|].
      intros y Hy. apply elem_of_cons in Hy as [->|Hy]; [|by apply Hall2].
      destruct Hext2 as (new & -> & _). apply elem_of_app. by left.
    + destruct (Hrec x visited result) as (v1 & r1 & -> & Hst1 & Hext1 & Hx1); auto.
      { by eapply edge_universe. }
      { intros y Hy Hny. eapply rtc_r; [by apply Hreach|done]. }
      pose proof Hext1 as (new1 & Hr1 & Hv1 & Hf1).
      destruct (IH v1 r1) as (v2 & r2 & -> & Hst2 & Hext2 & Hall2); auto.
      { assert (visited ⊆ v1) as Hmono by (by eapply extends_visited).
        pose proof (size_unvisited_mono g visited v1 Hmono). lia. }
      { apply Hv1. by left. }
      { rewrite Hr1. intros Hin. apply elem_of_app in Hin as [Hin|Hin]; [done|].
        by apply (Hf1 node Hin). }
      { intros y Hy Hny. apply Hreach.
        - apply Hv1 in Hy as [Hy|Hy]; [done|]. exfalso. apply Hny.
          rewrite Hr1. apply elem_of_app. by right.
        - intros Hin. apply Hny. rewrite Hr1. apply elem_of_app. by left. }
      exists v2, r2. split; [done|]. split; [done|].
      split; [by eapply extends_trans|].
      intros y Hy. apply elem_of_cons in Hy as [->|Hy]; [|by apply Hall2].
      destruct Hext2 as (new & -> & _). apply elem_of_app. by left.
Qed.

Lemma topologicalSortDFS_acyclic g fuel :
  acyclic g -> topoCallOk g fuel (topologicalSortDFS fuel g).
Proof.
  intros Hacyclic. induction fuel as [|fuel IH];
    intros node visited result Hsize Hnode Hfresh Hst Hreach; [lia|].
  simpl. destruct Hst as [Hres Hvu Hnd Hfin].
  assert (node ∉ result) as Hopen by (intros Hin; by apply Hfresh, Hres).
  destruct (topoNeighbors_acyclic g fuel (topologicalSortDFS fuel g) node
              (GetNeighbors g node) ({[node]} ∪ visited) result)
    as (v1 & r1 & -> & Hst1 & Hext1 & Hall1); auto.
  - pose proof (size_unvisited_mark g node visited Hnode Hfresh). lia.
  - split; [|set_solver|done|done]. intros x Hx. apply elem_of_union. right. by apply Hres.
  - set_solver.
  - intros x Hx Hnx. apply elem_of_union in Hx as [Hx|Hx]; [|by apply Hreach].
    apply elem_of_singleton in Hx as ->. apply rtc_refl.
  - destruct Hext1 as (new1 & Hr1 & Hv1 & Hf1).
    destruct Hst1 as [Hres1 Hvu1 Hnd1 Hfin1].
    assert (node ∉ r1) as Hopen1.
    { rewrite Hr1. intros Hin. apply elem_of_app in Hin as [Hin|Hin]; [done|].
      apply (Hf1 node Hin). set_solver. }
    exists v1, (r1 ++ [node]). split; [done|]. split; [|split].
    + split.
      * intros x Hx. apply elem_of_app in Hx as [Hx|Hx]; [by apply Hres1|].
        apply list_elem_of_singleton in Hx as ->. apply Hv1. left. set_solver.
      * done.
      * apply NoDup_app. split; [done|]. split; [|apply NoDup_singleton].
        intros x Hx Hx'. apply list_elem_of_singleton in Hx' as ->. done.
      * apply finished_snoc; [done|]. intros v Hv. by apply Hall1.
    + exists (new1 ++ [node]). rewrite Hr1, <- app_assoc. split; [done|]. split.
      * intros x. rewrite Hv1, elem_of_app, list_elem_of_singleton. set_solver.
      * intros x Hx. apply elem_of_app in Hx as [Hx|Hx].
        -- specialize (Hf1 x Hx). set_solver.
        -- by apply list_elem_of_singleton in Hx as ->.
    + apply elem_of_app. right. by apply list_elem_of_singleton.
Qed.

Lemma topoLoop_acyclic g order visited result :
  acyclic g -> (forall x, x ∈ order -> x ∈ universe g) ->
  topoState g visited result ->
  (forall x, x ∈ visited -> x ∈ result) ->
  exists visited' result',
    topoLoop g order visited result = Some (visited', result') /\
    topoState g visited' result' /\
    (forall x, x ∈ visited' -> x ∈ result') /\
    (forall x, x ∈ result -> x ∈ result') /\
    (forall x, x ∈ order -> x ∈ result').
Proof.
  intros Hacyclic. revert visited result.
  induction order as [|node order IH]; intros visited result Horder Hst Hclosed;
    cbn [topoLoop].
  - exists visited, result. split; [done|]. split; [done|]. split; [done|].
    split; [done|]. intros x Hx. by apply elem_of_nil in Hx.
  - assert (forall x, x ∈ order -> x ∈ universe g) as Hrest
      by (intros x Hx; apply Horder; by right).
    destruct (decide (node ∈ visited)) as [Hin|Hfresh].
    + destruct (IH visited result Hrest Hst Hclosed)
        as (v2 & r2 & -> & Hst2 & Hclosed2 & Hkeep2 & Hall2).
      exists v2, r2. split; [done|]. split; [done|]. split; [done|].
      split; [done|].
      intros x Hx. apply elem_of_cons in Hx as [->|Hx]; [|by apply Hall2].
      by apply Hkeep2, Hclosed.
    + assert (node ∈ universe g) as Hnode by (apply Horder; left).
      destruct (topologicalSortDFS_acyclic g (fuelOf g) Hacyclic node visited result
                  (size_unvisited_fuel g visited) Hnode Hfresh Hst)
        as (v1 & r1 & -> & Hst1 & Hext1 & Hnode1).
      { intros x Hx Hnx. exfalso. by apply Hnx, Hclosed. }
      destruct Hext1 as (new1 & Hr1 & Hv1 & Hf1).
      destruct (IH v1 r1 Hrest Hst1) as (v2 & r2 & -> & Hst2 & Hclosed2 & Hkeep2 & Hall2).
      { intros x Hx. rewrite Hr1. apply elem_of_app.
        apply Hv1 in Hx as [Hx|Hx]; [left; by apply Hclosed|by right]. }
      exists v2, r2. split; [done|]. split; [done|]. split; [done|]. split.
      * intros x Hx. apply Hkeep2. rewrite Hr1. apply elem_of_app. by left.
      * intros x Hx. apply elem_of_cons in Hx as [->|Hx]; [|by apply Hall2].
        by apply Hkeep2.
Qed.

Lemma topoState_empty g : topoState g ∅ [].
Proof.
  split.
  - intros x Hx. by apply elem_of_nil in Hx.
  - set_solver.
  - constructor.
  - intros u v Hu. by apply elem_of_nil in Hu.
Qed.

(** A graph on which some rank grows along every edge has no cycle. *)
Lemma ranked_acyclic (rank : T -> Z) g : ranked rank g = true -> acyclic g.
Proof.
  unfold ranked. rewrite forallb_forall. intros Hall.
  assert (forall u v, edge g u v -> rank u < rank v) as Hedge.
  { intros u v. unfold edge, GetNeighbors.
    destruct (adjacency g !! u) as [neighbors|] eqn:E; [|by intros ?%elem_of_nil].
    intros Hv. specialize (Hall (u, neighbors)). simpl in Hall.
    rewrite forallb_forall in Hall. apply Z.ltb_lt. apply Hall.
    - apply list_elem_of_In. by apply elem_of_map_to_list.
    - by apply list_elem_of_In. }
  assert (forall u v, tc (edge g) u v -> rank u < rank v) as Hpath.
  { intros u v Huv. induction Huv as [u v Huv|u w v Huw _ IH].
    - by apply Hedge.
    - apply Hedge in Huw. lia. }
  intros u Hu. apply Hpath in Hu. lia.
Qed.

(** *** HasCycle on any graph *)

Lemma tc_first_step g u v : tc (edge g) u v -> exists w, edge g u w /\ rtc (edge g) w v.
Proof.
  intros Htc. inversion Htc as [? ? He|? w ? He Hrest]; subst.
  - exists v. split; [done|apply rtc_refl].
  - exists w. split; [done|by apply tc_rtc].
Qed.

Lemma finishedSet_rtc g visited recStack u v :
  finishedSet g visited recStack ->
  u ∈ visited -> u ∉ recStack -> rtc (edge g) u v -> v ∈ visited /\ v ∉ recStack.
Proof.
  intros [Hclosed _] Hu Hn Hrtc. induction Hrtc as [|x y z Hxy _ IH]; [done|].
  destruct (Hclosed x y Hu Hn Hxy) as [Hy Hyn]. by apply IH.
Qed.

Lemma edge_key g u v : edge g u v -> u ∈ keys g.
Proof.
  unfold edge, GetNeighbors. intros Hv. apply HasNode_keys. unfold HasNode.
  apply bool_decide_eq_true.
  destruct (adjacency g !! u); [by eexists|by apply elem_of_nil in Hv].
Qed.

Lemma hasCycleNeighbors_total g n rec node neighbors visited recStack :
  cycleCallTotal g n rec ->
  (forall x, x ∈ neighbors -> edge g node x) ->
  (size (universe g ∖ visited) < n)%nat ->
  visited ⊆ universe g -> recStack ⊆ visited ->
  finishedSet g visited recStack ->
  exists b visited' recStack',
    hasCycleNeighbors rec neighbors visited recStack = Some (b, visited', recStack') /\
    (b = false ->
     recStack' = recStack /\ visited ⊆ visited' /\ visited' ⊆ universe g /\
     finishedSet g visited' recStack /\
     (forall x, x ∈ neighbors -> x ∈ visited' /\ x ∉ recStack)).
Proof.
  intros Hrec. revert visited.
  induction neighbors as [|x neighbors IH];
    intros visited Hedges Hsize Hvu Hstack Hfin; simpl.
  - exists false, visited, recStack. split; [done|]. intros _.
    repeat (split; [done|]). by intros x ?%elem_of_nil.
  - assert (edge g node x) as Hx by (apply Hedges; left).
    assert (forall y, y ∈ neighbors -> edge g node y) as Hrest
      by (intros y Hy; apply Hedges; by right).
    destruct (decide (x ∈ visited)) as [Hin|Hnotin].
    + destruct (decide (x ∈ recStack)) as [Hs|Hs].
      { exists true, visited, recStack. split; [done|]. by intros ?. }
      destruct (IH visited) as (b & v2 & r2 & -> & Hb); auto.
      exists b, v2, r2. split; [done|]. intros ->.
      destruct (Hb eq_refl) as (-> & Hsub & Hu & Hf & Hall).
      repeat (split; [done|]).
      intros y Hy. apply elem_of_cons in Hy as [->|Hy]; [|by apply Hall].
      split; [set_solver|done].
    + destruct (Hrec x visited recStack) as (b1 & v1 & r1 & -> & Hb1); auto.
      { by eapply edge_universe. }
      destruct b1.
      { exists true, v1, r1. split; [done|]. by intros ?. }
      destruct (Hb1 eq_refl) as (-> & Hsub1 & Hu1 & Hf1).
      destruct (IH v1) as (b & v2 & r2 & -> & Hb); auto.
      { assert (visited ⊆ v1) as Hmono by set_solver.
        pose proof (size_unvisited_mono g visited v1 Hmono). lia. }
      { set_solver. }
      exists b, v2, r2. split; [done|]. intros ->.
      destruct (Hb eq_refl) as (-> & Hsub & Hu & Hf & Hall).
      split; [done|]. split; [set_solver|]. split; [done|]. split; [done|].
      intros y Hy. apply elem_of_cons in Hy as [->|Hy]; [|by apply Hall].
      split; [set_solver|]. intros Hs. apply Hnotin. set_solver.
Qed.

Lemma hasCycleDFS_total g fuel : cycleCallTotal g fuel (hasCycleDFS fuel g).
Proof.
  induction fuel as [|fuel IH];
    intros node visited recStack Hsize Hnode Hfresh Hvu Hstack Hfin; [lia|].
  simpl.
  assert (node ∉ recStack) as Hns by set_solver.
  destruct Hfin as [Hclosed Hacyc].
  destruct (hasCycleNeighbors_total g fuel (hasCycleDFS fuel g) node
              (GetNeighbors g node) ({[node]} ∪ visited) ({[node]} ∪ recStack))
    as (b & v1 & r1 & -> & Hb); auto.
  - pose proof (size_unvisited_mark g node visited Hnode Hfresh). lia.
  - set_solver.
  - set_solver.
  - split.
    + intros u v Hu Hn Huv.
      assert (u ∈ visited) as Hu' by set_solver.
      assert (u ∉ recStack) as Hn' by set_solver.
      destruct (Hclosed u v Hu' Hn' Huv) as [Hv Hvn]. set_solver.
    + intros u Hu Hn. apply Hacyc; set_solver.
  - destruct b.
    { exists true, v1, r1. split; [done|]. by intros ?. }
    destruct (Hb eq_refl) as (-> & Hsub & Hu & [Hclosed1 Hacyc1] & Hall).
    exists false, v1, (({[node]} ∪ recStack) ∖ {[node]}). split; [done|].
    intros _.
    assert (({[node]} ∪ recStack) ∖ {[node]} = recStack) as -> by set_solver.
    split; [done|]. split; [done|]. split; [done|].
    assert (forall u v, u ∈ v1 -> u ∉ recStack -> edge g u v ->
              v ∈ v1 /\ v ∉ {[node]} ∪ recStack) as Hstep.
    { intros u v Hu1 Hn1 Huv. destruct (decide (u = node)) as [->|Hne].
      - by apply Hall.
      - apply (Hclosed1 u v); [done|set_solver|done]. }
    split.
    + intros u v Hu1 Hn1 Huv. destruct (Hstep u v Hu1 Hn1 Huv). set_solver.
    + intros u Hu1 Hn1 Htc. destruct (decide (u = node)) as [->|Hne].
      * apply tc_first_step in Htc as (w & Hw & Hrtc).
        destruct (Hall w Hw) as [Hw1 Hwn].
        destruct (finishedSet_rtc g v1 ({[node]} ∪ recStack) w node
                    (conj Hclosed1 Hacyc1) Hw1 Hwn Hrtc) as [_ Hno].
        set_solver.
      * apply (Hacyc1 u); [done|set_solver|done].
Qed.

Lemma hasCycleLoop_total g order visited :
  (forall x, x ∈ order -> x ∈ universe g) -> visited ⊆ universe g ->
  finishedSet g visited ∅ ->
  exists b,
    hasCycleLoop g order visited ∅ = Some b /\
    (b = false ->
     exists visited', finishedSet g visited' ∅ /\ visited ⊆ visited' /\
       (forall x, x ∈ order -> x ∈ visited')).
Proof.
  revert visited.
  induction order as [|node order IH]; intros visited Horder Hvu Hfin;
    cbn [hasCycleLoop].
  - exists false. split; [done|]. intros _. exists visited.
    split; [done|]. split; [done|]. by intros x ?%elem_of_nil.
  - assert (forall x, x ∈ order -> x ∈ universe g) as Hrest
      by (intros x Hx; apply Horder; by right).
    destruct (decide (node ∈ visited)) as [Hin|Hfresh].
    + destruct (IH visited Hrest Hvu Hfin) as (b & -> & Hb).
      exists b. split; [done|]. intros ->.
      destruct (Hb eq_refl) as (v' & Hf & Hsub & Hall).
      exists v'. split; [done|]. split; [done|].
      intros x Hx. apply elem_of_cons in Hx as [->|Hx]; [set_solver|by apply Hall].
    + assert (node ∈ universe g) as Hnode by (apply Horder; left).
      destruct (hasCycleDFS_total g (fuelOf g) node visited ∅
                  (size_unvisited_fuel g visited) Hnode Hfresh Hvu)
        as (b1 & v1 & r1 & -> & Hb1); [set_solver|done|].
      destruct b1.
      { exists true. split; [done|]. by intros ?. }
      destruct (Hb1 eq_refl) as (-> & Hsub1 & Hu1 & Hf1).
      destruct (IH v1 Hrest Hu1 Hf1) as (b & -> & Hb).
      exists b. split; [done|]. intros ->.
      destruct (Hb eq_refl) as (v' & Hf & Hsub & Hall).
      exists v'. split; [done|]. split; [set_solver|].
      intros x Hx. apply elem_of_cons in Hx as [->|Hx]; [set_solver|by apply Hall].
Qed.

Lemma no_edge_acyclic g :
  map_Forall (fun _ neighbors => neighbors = []) (adjacency g) -> acyclic g.
Proof.
  intros Hall u Htc. apply tc_first_step in Htc as (w & Hw & _).
  unfold edge, GetNeighbors in Hw.
  destruct (adjacency g !! u) as [l|] eqn:E; [|by apply elem_of_nil in Hw].
  rewrite (Hall u l E) in Hw. by apply elem_of_nil in Hw.
Qed.

(** [HasCycle] returns on every graph, and returns false exactly on the
    acyclic ones. *)
Lemma HasCycle_total g order :
  order ≡ₚ keys g ->
  exists b, HasCycle order g = Some b /\ (b = false <-> acyclic g).
Proof.
  intros Hperm. unfold HasCycle.
  destruct (hasCycleLoop_total g order ∅) as (b & Hb & Hfalse).
  { intros x Hx. apply key_universe. by rewrite <- Hperm. }
  { set_solver. }
  { split; [by intros u v ?%elem_of_empty|by intros u ?%elem_of_empty]. }
  exists b. split; [done|]. split.
  - intros ->. destruct (Hfalse eq_refl) as (v' & [_ Hacyc] & _ & Hall).
    intros u Htc. apply (Hacyc u); [|set_solver|done].
    apply Hall. rewrite Hperm.
    apply tc_first_step in Htc as (w & Hw & _). by eapply edge_key.
  - intros Hacyclic.
    pose proof (HasCycle_acyclic g order Hacyclic Hperm) as Hf.
    unfold HasCycle in Hf. congruence.
Qed.

End TraversalFacts.

(** ** Symmetry of an undirected graph without RemoveNode *)

Section SymmetryFacts.
Context {T : Type} `{Countable T}.
Import Graph.

Implicit Types (g : Graph T) (adj : gmap T (list T)) (u v x y k : T) (l : list T).

Lemma occ_app x l1 l2 : occ x (l1 ++ l2) = (occ x l1 + occ x l2)%nat.
Proof. unfold occ. by rewrite filter_app, length_app. Qed.

Lemma occ_cons x y l :
  occ x (y :: l) = ((if decide (y = x) then 1 else 0) + occ x l)%nat.
Proof.
  unfold occ. destruct (decide (y = x)) as [->|Hne].
  - by rewrite filter_cons_True.
  - by rewrite filter_cons_False.
Qed.

Lemma occ_singleton x y : occ x [y] = if decide (y = x) then 1%nat else 0%nat.
Proof. rewrite occ_cons. unfold occ. simpl. destruct (decide (y = x)); lia. Qed.

Lemma occ_pos x l : x ∈ l <-> (0 < occ x l)%nat.
Proof.
  induction l as [|y l IH].
  - split; [by intros ?%elem_of_nil|]. unfold occ. simpl. lia.
  - rewrite occ_cons, elem_of_cons, IH.
    destruct (decide (y = x)) as [->|Hne]; [split; [lia|by left]|].
    split; [intros [?|?]; [congruence|lia]|]. intros Hpos. right. lia.
Qed.

Lemma removeFirst_None x l : removeFirst x l = None <-> x ∉ l.
Proof.
  induction l as [|y l IH]; simpl.
  - split; [intros _; by intros ?%elem_of_nil|done].
  - rewrite not_elem_of_cons. destruct (decide (y = x)) as [->|Hne].
    + split; [done|]. by intros [? _].
    + rewrite fmap_None, IH. split; [intros ?; split; congruence|by intros [_ ?]].
Qed.

Lemma removeFirst_Some x l l' z :
  removeFirst x l = Some l' ->
  occ z l = ((if decide (x = z) then 1 else 0) + occ z l')%nat.
Proof.
  revert l'. induction l as [|y l IH]; intros l'; simpl; [done|].
  destruct (decide (y = x)) as [->|Hne].
  - intros [= <-]. by rewrite occ_cons.
  - intros Hr. apply fmap_Some in Hr as (l2 & Hr & ->).
    rewrite !occ_cons, (IH l2 Hr). lia.
Qed.

Lemma neighborsOf_GetNeighbors g x : GetNeighbors g x = neighborsOf (adjacency g) x.
Proof. unfold GetNeighbors, neighborsOf. by destruct (adjacency g !! x). Qed.

Lemma HasEdge_occ g u v : HasEdge g u v = bool_decide (0 < occ v (GetNeighbors g u))%nat.
Proof.
  destruct (HasEdge g u v) eqn:E.
  - symmetry. apply bool_decide_eq_true. apply occ_pos.
    by apply (proj1 (HasEdge_edge g u v)).
  - symmetry. apply bool_decide_eq_false. intros Hpos. apply occ_pos in Hpos.
    apply (proj2 (HasEdge_edge g u v)) in Hpos. congruence.
Qed.

Lemma neighborsOf_AddNode g node x :
  neighborsOf (adjacency (AddNode g node)) x = neighborsOf (adjacency g) x.
Proof.
  unfold AddNode, neighborsOf.
  destruct (adjacency g !! node) as [l|] eqn:E; [done|]. simpl.
  destruct (decide (x = node)) as [->|Hne].
  - by rewrite lookup_insert_eq, E.
  - by rewrite lookup_insert_ne.
Qed.

Lemma neighborsOf_appendTo adj k y x :
  neighborsOf (appendTo adj k y) x
  = if decide (x = k) then neighborsOf adj k ++ [y] else neighborsOf adj x.
Proof.
  unfold appendTo, neighborsOf. destruct (decide (x = k)) as [->|Hne].
  - by rewrite lookup_insert_eq.
  - by rewrite lookup_insert_ne.
Qed.

Lemma occ_removeFrom adj k y x z :
  occ z (neighborsOf adj x)
  = ((if decide (x = k /\ y = z /\ y ∈ neighborsOf adj k) then 1 else 0)
     + occ z (neighborsOf (removeFrom adj k y) x))%nat.
Proof.
  unfold removeFrom, neighborsOf.
  destruct (adj !! k) as [l|] eqn:E; simpl.
  - destruct (removeFirst y l) as [l'|] eqn:Hr.
    + destruct (decide (x = k)) as [->|Hne].
      * rewrite lookup_insert_eq, E. simpl. rewrite (removeFirst_Some y l l' z Hr).
        assert (y ∈ l) as Hin.
        { destruct (decide (y ∈ l)) as [|Hn]; [done|].
          apply removeFirst_None in Hn. congruence. }
        destruct (decide (y = z)) as [->|Hyz].
        -- by rewrite decide_True.
        -- rewrite decide_False; [done|]. by intros (_ & ? & _).
      * rewrite lookup_insert_ne by done. rewrite decide_False; [done|]. by intros [? _].
    + apply removeFirst_None in Hr. rewrite decide_False; [done|]. by intros (_ & _ & ?).
  - rewrite decide_False; [done|]. intros (_ & _ & Hin). by apply elem_of_nil in Hin.
Qed.

Lemma AddNode_symmetric g node : symmetric g -> symmetric (AddNode g node).
Proof.
  intros Hsym u v. rewrite !neighborsOf_GetNeighbors, !neighborsOf_AddNode.
  rewrite <- !neighborsOf_GetNeighbors. apply Hsym.
Qed.

Lemma AddNode_directed g node : directed (AddNode g node) = directed g.
Proof. unfold AddNode. by destruct (adjacency g !! node). Qed.

Lemma AddEdge_symmetric g from to :
  directed g = false -> symmetric g -> symmetric (AddEdge g from to).
Proof.
  intros Hd Hsym u v. destruct (decide (u = v)) as [->|Huv]; [done|].
  pose proof (AddNode_symmetric _ to (AddNode_symmetric g from Hsym) u v) as Huv'.
  rewrite !neighborsOf_GetNeighbors in *.
  unfold AddEdge. rewrite !AddNode_directed, Hd. simpl.
  rewrite !neighborsOf_appendTo.
  repeat case_decide; simplify_eq; rewrite ?occ_app, ?occ_singleton;
    repeat case_decide; simplify_eq; lia.
Qed.

Lemma RemoveEdge_symmetric g from to :
  directed g = false -> symmetric g -> symmetric (RemoveEdge g from to).
Proof.
  intros Hd Hsym u v. destruct (decide (u = v)) as [->|Huv]; [done|].
  pose proof (Hsym u v) as Huv'. pose proof (Hsym from to) as Hft.
  rewrite !neighborsOf_GetNeighbors in *.
  unfold RemoveEdge. rewrite Hd. simpl.
  set (adj1 := removeFrom (adjacency g) from to).
  pose proof (occ_removeFrom (adjacency g) from to u v) as H1.
  pose proof (occ_removeFrom (adjacency g) from to v u) as H2.
  pose proof (occ_removeFrom adj1 to from u v) as H3.
  pose proof (occ_removeFrom adj1 to from v u) as H4.
  pose proof (occ_removeFrom (adjacency g) from to to from) as H5.
  fold adj1 in H1, H2, H5.
  assert (from <> to -> (to ∈ neighborsOf (adjacency g) from
                         <-> from ∈ neighborsOf adj1 to)) as Hboth.
  { intros Hne. rewrite !occ_pos, Hft.
    rewrite decide_False in H5 by (by intros (? & _)). simpl in H5. by rewrite H5. }
  repeat case_decide;
    repeat match goal with
           | Hc : _ /\ _ |- _ => destruct Hc
           end; simplify_eq; try lia;
    exfalso; naive_solver.
Qed.

Lemma RemoveEdge_directed g from to : directed (RemoveEdge g from to) = directed g.
Proof. done. Qed.

(** In an undirected graph built with [AddNode], [AddEdge] and
    [RemoveEdge] alone, [v] occurs in the list of [u] as often as [u] in
    the list of [v], and [HasEdge] is symmetric. *)
Lemma built_symmetric g : built g -> directed g = false /\ symmetric g.
Proof.
  induction 1 as [|g node _ [Hd Hs]|g from to _ [Hd Hs]|g from to _ [Hd Hs]].
  - split; [done|]. intros u v. unfold GetNeighbors. simpl. by rewrite !lookup_empty.
  - split; [by rewrite AddNode_directed|by apply AddNode_symmetric].
  - split; [|by apply AddEdge_symmetric].
    unfold AddEdge. simpl. by rewrite !AddNode_directed.
  - split; [done|by apply RemoveEdge_symmetric].
Qed.

Lemma built_HasEdge_symmetric g u v : built g -> HasEdge g u v = HasEdge g v u.
Proof.
  intros [_ Hsym]%built_symmetric. rewrite !HasEdge_occ. by rewrite (Hsym u v).
Qed.

Lemma HasNode_AddNode g node u :
  HasNode (AddNode g node) u = HasNode g u || bool_decide (u = node).
Proof.
  unfold HasNode, AddNode. apply eq_true_iff_eq.
  rewrite orb_true_iff, !bool_decide_eq_true.
  destruct (adjacency g !! node) as [l|] eqn:E; simpl.
  - split; [by left|]. intros [?| ->]; [done|by eexists].
  - rewrite lookup_insert_is_Some. split.
    + intros [Heq|[_ Hs]]; [by right|by left].
    + intros [Hs|Heq]; [|by left].
      destruct (decide (node = u)); [by left|by right].
Qed.

Lemma is_Some_appendTo (adj : gmap T (list T)) k x u :
  is_Some (appendTo adj k x !! u) <-> u = k \/ is_Some (adj !! u).
Proof.
  unfold appendTo. rewrite lookup_insert_is_Some. split.
  - intros [Heq|[_ Hs]]; [by left|by right].
  - intros [Heq|Hs]; [by left|].
    destruct (decide (k = u)); [by left|by right].
Qed.

Lemma GetNeighbors_AddEdge g from to u :
  GetNeighbors (AddEdge g from to) u
  = GetNeighbors g u
    ++ (if decide (u = from) then [to] else [])
    ++ (if decide (directed g = false /\ u = to) then [from] else []).
Proof.
  rewrite !neighborsOf_GetNeighbors. unfold AddEdge.
  rewrite !AddNode_directed. simpl.
  pose proof (neighborsOf_AddNode (AddNode g from) to) as H2.
  pose proof (neighborsOf_AddNode g from) as H1.
  destruct (directed g); simpl; rewrite ?neighborsOf_appendTo;
    repeat case_decide; simplify_eq; rewrite ?neighborsOf_appendTo, ?H2, ?H1;
    repeat case_decide; simplify_eq; rewrite ?H2, ?H1, ?app_nil_r, <- ?app_assoc;
    try done; naive_solver.
Qed.

Lemma HasNode_AddEdge g from to u :
  HasNode (AddEdge g from to) u
  = HasNode g u || bool_decide (u = from) || bool_decide (u = to).
Proof.
  pose proof (HasNode_AddNode (AddNode g from) to u) as H2.
  pose proof (HasNode_AddNode g from u) as H1.
  rewrite <- H1, <- H2. unfold HasNode, AddEdge. rewrite !AddNode_directed.
  simpl. apply bool_decide_ext.
  assert (is_Some (adjacency (AddNode (AddNode g from) to) !! from)) as Hf.
  { pose proof (HasNode_AddNode (AddNode g from) to from) as Ha.
    pose proof (HasNode_AddNode g from from) as Hb.
    rewrite Hb, bool_decide_eq_true_2, orb_true_r in Ha by done.
    by apply bool_decide_eq_true in Ha. }
  assert (is_Some (adjacency (AddNode (AddNode g from) to) !! to)) as Ht.
  { pose proof (HasNode_AddNode (AddNode g from) to to) as Ha.
    rewrite bool_decide_eq_true_2, orb_true_r in Ha by done.
    by apply bool_decide_eq_true in Ha. }
  destruct (directed g); rewrite ?is_Some_appendTo; naive_solver.
Qed.

Lemma AddEdge_directed g from to : directed (AddEdge g from to) = directed g.
Proof. unfold AddEdge. simpl. by rewrite !AddNode_directed. Qed.

Lemma HasNode_removeFrom (adj : gmap T (list T)) k x u :
  is_Some (removeFrom adj k x !! u) <-> is_Some (adj !! u).
Proof.
  unfold removeFrom. destruct (adj !! k) as [l|] eqn:E; [|done].
  destruct (removeFirst x l) as [l'|]; [|done].
  rewrite lookup_insert_is_Some. split.
  - intros [<-|[_ Hs]]; [by eexists|done].
  - intros Hs. destruct (decide (k = u)); [by left|by right].
Qed.

Lemma HasNode_RemoveEdge g from to u :
  HasNode (RemoveEdge g from to) u = HasNode g u.
Proof.
  unfold HasNode, RemoveEdge. simpl. apply bool_decide_ext.
  destruct (directed g); by rewrite ?HasNode_removeFrom.
Qed.

Lemma occ_removeFrom_sub (adj : gmap T (list T)) k y x z :
  occ z (neighborsOf (removeFrom adj k y) x)
  = (occ z (neighborsOf adj x) - (if decide (x = k /\ z = y) then 1 else 0))%nat.
Proof.
  pose proof (occ_removeFrom adj k y x z) as Ho.
  destruct (decide (x = k /\ z = y)) as [[-> ->]|Hne].
  - destruct (decide (k = k /\ y = y /\ y ∈ neighborsOf adj k)) as [_|Hno]; [lia|].
    assert (y ∉ neighborsOf adj k) as Hy by intuition congruence.
    assert (occ y (neighborsOf adj k) = 0%nat) as Hz.
    { destruct (occ_pos y (neighborsOf adj k)) as [_ Hp].
      destruct (occ y (neighborsOf adj k)); [done|]. exfalso. apply Hy, Hp. lia. }
    lia.
  - rewrite decide_False in Ho by intuition congruence. lia.
Qed.

Lemma occ_RemoveEdge g from to u v :
  occ v (GetNeighbors (RemoveEdge g from to) u)
  = (occ v (GetNeighbors g u)
     - (if decide (u = from /\ v = to) then 1 else 0)
     - (if decide (directed g = false /\ u = to /\ v = from) then 1 else 0))%nat.
Proof.
  rewrite !neighborsOf_GetNeighbors.
  unfold RemoveEdge. simpl. destruct (directed g).
  - rewrite occ_removeFrom_sub.
    rewrite (decide_False (P := true = false /\ _)) by intuition congruence.
    lia.
  - rewrite !occ_removeFrom_sub.
    destruct (decide (u = to /\ v = from)).
    + rewrite (decide_True (P := false = false /\ _)) by intuition congruence. done.
    + rewrite (decide_False (P := false = false /\ _)) by intuition congruence. lia.
Qed.

(** Graphs built without [RemoveNode] have no entry that is not a node. *)
Lemma assembled_targets g : assembled g -> targetsAreNodes g.
Proof.
  induction 1 as [d|g node _ IH|g from to _ IH|g from to _ IH]; intros u v Huv.
  - unfold HasEdge in Huv. simpl in Huv. by rewrite lookup_empty in Huv.
  - rewrite HasNode_AddNode. apply orb_true_iff. left. apply (IH u v).
    rewrite HasEdge_occ in *.
    by rewrite neighborsOf_GetNeighbors, neighborsOf_AddNode,
      <- neighborsOf_GetNeighbors in Huv.
  - rewrite HasNode_AddEdge. apply HasEdge_edge in Huv. unfold edge in Huv.
    rewrite GetNeighbors_AddEdge in Huv.
    apply elem_of_app in Huv as [Huv|Huv].
    + apply (proj2 (HasEdge_edge g u v)), IH in Huv. by rewrite Huv.
    + apply elem_of_app in Huv as [Huv|Huv].
      * destruct (decide (u = from)); [|by apply elem_of_nil in Huv].
        apply list_elem_of_singleton in Huv as ->.
        rewrite (bool_decide_eq_true_2 (to = to)) by done. apply orb_true_r.
      * destruct (decide (directed g = false /\ u = to)); [|by apply elem_of_nil in Huv].
        apply list_elem_of_singleton in Huv as ->.
        rewrite (bool_decide_eq_true_2 (from = from)) by done.
        by rewrite orb_true_r.
  - rewrite HasNode_RemoveEdge. apply (IH u v).
    rewrite HasEdge_occ in *. apply bool_decide_eq_true in Huv.
    apply bool_decide_eq_true. rewrite occ_RemoveEdge in Huv. lia.
Qed.

Lemma assembled_from_edges (edges : list (T * T)) (d : bool) :
  assembled (NewGraphFromEdges edges d).
Proof.
  unfold NewGraphFromEdges.
  assert (assembled (NewGraph (T := T) d)) as Hstart by exact (assembled_new d).
  revert Hstart. generalize (NewGraph (T := T) d).
  induction edges as [|e edges IH]; intros g0 Hg0; simpl; [done|].
  apply IH. by apply assembled_edge.
Qed.

End SymmetryFacts.

(* ===================================================================== *)
(** * The graph claims of the specification                              *)
(* ===================================================================== *)

Section GraphClaims.
Context {T : Type} `{Countable T}.
Import Graph.

(** C10. On a node that the graph does not have, [BFS] and [DFS] return
    the one-element sequence of that node, and [ShortestPath] with such
    an endpoint returns [(nil, false)]. *)
Theorem traversal_from_missing_node (zero : T) (g : Graph T) (s : T) :
  HasNode g s = false ->
  BFS g s = Some [s] /\
  DFS g s = Some [s] /\
  (forall e, ShortestPath zero g s e = Some ([], false)) /\
  (forall e, ShortestPath zero g e s = Some ([], false)).
Proof.
  intros Hs. pose proof (GetNeighbors_missing g s Hs) as Hn.
  repeat split.
  - unfold BFS. simpl. by rewrite Hn.
  - unfold DFS. simpl. by rewrite Hn.
  - intros e. unfold ShortestPath. by rewrite Hs.
  - intros e. unfold ShortestPath. rewrite Hs. by rewrite orb_true_r.
Qed.

(** C9, as the code has it. [Equals] is true exactly when the two graphs
    have the same directedness and the same nodes and, at every node,
    adjacency lists of the same length with the same set of entries. *)
Theorem equals_compares_lengths_and_sets (g other : Graph T) :
  Equals g other = true <->
  directed g = directed other /\
  GetNodes g = GetNodes other /\
  (forall node,
     HasNode g node = true ->
     length (GetNeighbors g node) = length (GetNeighbors other node) /\
     list_to_set (GetNeighbors g node) =@{gset T} list_to_set (GetNeighbors other node)).
Proof.
  rewrite Equals_spec. unfold GetNodes, HasNode, GetNeighbors. split.
  - intros (Hd & Hdom & Hnode). split; [done|]. split; [done|].
    intros node Hn. apply bool_decide_eq_true in Hn as [neighbors Hg].
    assert (is_Some (adjacency other !! node)) as [otherNeighbors Ho].
    { apply elem_of_dom. rewrite <- Hdom. apply elem_of_dom. eauto. }
    rewrite Hg, Ho. eauto.
  - intros (Hd & Hdom & Hnode). split; [done|]. split; [done|].
    intros node neighbors otherNeighbors Hg Ho.
    specialize (Hnode node). rewrite Hg, Ho in Hnode. apply Hnode.
    apply bool_decide_eq_true. eauto.
Qed.

(** C7. [TopologicalSort] returns [(nil, false)] when the graph is
    undirected and when [HasCycle] returns true, which [HasCycle] does
    on every graph in which some node reaches itself along its edges. On
    a directed graph without a cycle it returns [ok = true] and a
    sequence without repetition that contains every node and in which
    [u] occurs before [v] for every edge [(u, v)], whatever the orders in
    which the two ranges over the adjacency map yield the keys. Every
    entry of the sequence is a node or the target of an edge; when the
    targets of the edges are nodes, as in every graph built without
    [RemoveNode], the sequence is an ordering of the nodes: it holds the
    nodes and nothing else, each once. *)
Theorem topological_sort_spec (order1 order2 : list T) (g : Graph T) :
  (directed g = false -> TopologicalSort order1 order2 g = Some ([], false)) /\
  (HasCycle order1 g = Some true -> TopologicalSort order1 order2 g = Some ([], false)) /\
  (order1 ≡ₚ keys g -> ~ acyclic g ->
   HasCycle order1 g = Some true /\
   TopologicalSort order1 order2 g = Some ([], false)) /\
  (directed g = true -> acyclic g -> order1 ≡ₚ keys g -> order2 ≡ₚ keys g ->
   exists result,
     TopologicalSort order1 order2 g = Some (result, true) /\
     NoDup result /\
     (forall node, HasNode g node = true -> node ∈ result) /\
     (forall u v, HasEdge g u v = true -> precedes u v result) /\
     (forall x, x ∈ result ->
        HasNode g x = true \/ exists u, HasEdge g u x = true) /\
     (targetsAreNodes g ->
      (forall x, x ∈ result <-> HasNode g x = true) /\
      result ≡ₚ keys g /\
      length result = NodeCount g)).
Proof.
  unfold TopologicalSort. split; [|split; [|split]].
  - by intros ->.
  - intros ->. by destruct (directed g).
  - intros Hperm1 Hcyclic.
    destruct (HasCycle_total g order1 Hperm1) as (b & Hb & Hiff).
    destruct b; [|by destruct Hcyclic; apply Hiff].
    rewrite Hb. split; [done|]. by destruct (directed g).
  - intros -> Hacyclic Hperm1 Hperm2. simpl.
    rewrite (HasCycle_acyclic g order1 Hacyclic Hperm1).
    destruct (topoLoop_acyclic g order2 ∅ [] Hacyclic)
      as (visited & result & -> & Hst & Hclosed & _ & Hall).
    { intros x Hx. apply key_universe. by rewrite <- Hperm2. }
    { apply topoState_empty. }
    { intros x Hx. by apply elem_of_empty in Hx. }
    destruct Hst as [Hres Hvu Hnd Hfin].
    assert (NoDup (reverse result)) as Hnd' by by rewrite reverse_Permutation.
    assert (forall node, HasNode g node = true -> node ∈ result) as Hnodes.
    { intros node Hn. apply Hall. rewrite Hperm2. by apply HasNode_keys. }
    assert (forall x, x ∈ reverse result ->
              HasNode g x = true \/ exists u, HasEdge g u x = true) as Honly.
    { intros x Hx. apply elem_of_reverse, Hres, Hvu in Hx.
      unfold universe in Hx. apply elem_of_union in Hx as [Hx|Hx].
      - left. unfold HasNode. apply bool_decide_eq_true. by apply elem_of_dom.
      - right. apply elem_of_union_list in Hx as (X & HX & Hx).
        apply list_elem_of_fmap in HX as (neighbors & -> & Hl).
        apply list_elem_of_fmap in Hl as ([u l] & -> & Hul).
        apply elem_of_map_to_list in Hul. apply elem_of_list_to_set in Hx.
        exists u. apply HasEdge_edge. unfold edge, GetNeighbors. by rewrite Hul. }
    exists (reverse result). split; [done|]. split; [done|].
    split; [|split; [|split; [done|]]].
    + intros node Hn. apply elem_of_reverse. by apply Hnodes.
    + intros u v Huv. apply precedes_reverse. apply Hfin.
      * apply Hnodes. unfold HasEdge in Huv. unfold HasNode.
        apply bool_decide_eq_true. by destruct (adjacency g !! u).
      * by apply HasEdge_edge.
    + intros Htargets.
      assert (forall x, x ∈ reverse result <-> HasNode g x = true) as Hiff.
      { intros x. split.
        - intros Hx. destruct (Honly x Hx) as [Hn|[u Hu]]; [done|].
          by apply (Htargets u x).
        - intros Hn. apply elem_of_reverse. by apply Hnodes. }
      assert (reverse result ≡ₚ keys g) as Hperm.
      { apply NoDup_Permutation; [done|apply NoDup_fst_map_to_list|].
        intros x. rewrite Hiff. apply HasNode_keys. }
      split; [done|]. split; [done|].
      rewrite Hperm. unfold keys, NodeCount.
      by rewrite length_fmap, length_map_to_list.
Qed.

End GraphClaims.

(** ** The graph claims at concrete inputs *)

(** C10 on the directed graph with the edge 1 -> 2 and the missing node 7. *)
Lemma traversal_from_missing_node_witness :
  Graph.BFS (Graph.AddEdge (Graph.NewGraph true) 1 2) 7 = Some [7] /\
  Graph.DFS (Graph.AddEdge (Graph.NewGraph true) 1 2) 7 = Some [7] /\
  (forall e, Graph.ShortestPath 0 (Graph.AddEdge (Graph.NewGraph true) 1 2) 7 e
             = Some ([], false)) /\
  (forall e, Graph.ShortestPath 0 (Graph.AddEdge (Graph.NewGraph true) 1 2) e 7
             = Some ([], false)).
Proof.
  apply (traversal_from_missing_node 0 (Graph.AddEdge (Graph.NewGraph true) 1 2) 7).
  reflexivity.
Defined.

(** C9 as stated fails: the directed graphs with the edge 1 -> 2 once and
    twice have the same nodes and the same neighbour sets, and [Equals]
    is false in both directions. *)
Lemma equals_multiplicity_counterexample :
  let g1 := Graph.AddEdge (Graph.NewGraph true) 1 2 in
  let g2 := Graph.AddEdge g1 1 2 in
  Graph.directed g1 = Graph.directed g2 /\
  Graph.GetNodes g1 = {[1; 2]} /\ Graph.GetNodes g2 = {[1; 2]} /\
  Graph.GetNeighbors g1 1 = [2] /\ Graph.GetNeighbors g2 1 = [2; 2] /\
  Graph.GetNeighbors g1 2 = [] /\ Graph.GetNeighbors g2 2 = [] /\
  list_to_set (Graph.GetNeighbors g1 1) =@{gset Z} list_to_set (Graph.GetNeighbors g2 1) /\
  Graph.Equals g1 g2 = false /\ Graph.Equals g2 g1 = false.
Proof. repeat split; vm_compute; reflexivity. Qed.

(** C7 on that graph, with the keys in the order of [map_to_list], and
    on the directed graph with the two edges 1 -> 2 and 2 -> 1. *)
Lemma topological_sort_spec_witness :
  (exists result,
     Graph.TopologicalSort (keys diamond) (keys diamond) diamond = Some (result, true) /\
     NoDup result /\
     (forall node, Graph.HasNode diamond node = true -> node ∈ result) /\
     (forall u v, Graph.HasEdge diamond u v = true -> precedes u v result) /\
     (forall x, x ∈ result ->
        Graph.HasNode diamond x = true \/ exists u, Graph.HasEdge diamond u x = true) /\
     (forall x, x ∈ result <-> Graph.HasNode diamond x = true) /\
     result ≡ₚ keys diamond /\
     length result = Graph.NodeCount diamond) /\
  (Graph.HasCycle [1; 2] (Graph.NewGraphFromEdges [(1, 2); (2, 1)] true) = Some true /\
   Graph.TopologicalSort [1; 2] [1; 2] (Graph.NewGraphFromEdges [(1, 2); (2, 1)] true)
   = Some ([], false)).
Proof.
  split.
  - destruct (topological_sort_spec (keys diamond) (keys diamond) diamond)
      as (_ & _ & _ & Hdag).
    destruct Hdag as (result & Hts & Hnd & Hall & Hord & Honly & Hnodes).
    + reflexivity.
    + apply (ranked_acyclic (fun x => x)). vm_compute. reflexivity.
    + reflexivity.
    + reflexivity.
    + exists result. split; [exact Hts|]. split; [exact Hnd|].
      split; [exact Hall|]. split; [exact Hord|]. split; [exact Honly|].
      apply Hnodes. apply assembled_targets. apply assembled_from_edges.
  - destruct (topological_sort_spec [1; 2] [1; 2]
                (Graph.NewGraphFromEdges [(1, 2); (2, 1)] true))
      as (_ & _ & Hcyc & _).
    apply Hcyc.
    + vm_compute. apply perm_swap.
    + intros Hacyclic. apply (Hacyclic 1).
      apply (tc_l _ 1 2 1); [|apply tc_once]; unfold edge; vm_compute;
        apply list_elem_of_here.
Defined.

(** The sequence it returns on that graph. *)
Example topological_sort_diamond :
  Graph.TopologicalSort (keys diamond) (keys diamond) diamond
  = Some ([1; 2; 3; 4], true).
Proof. vm_compute. reflexivity. Qed.

(** When an edge names a value that is not a node, the sequence holds
    that value too. [RemoveNode 2] leaves such an edge in the directed
    graph with the edge 1 -> 2 entered twice; with the node 3 added, the
    nodes are 1 and 3 and the sequence is 1, 2, 3. *)
Example topological_sort_after_remove_node :
  let g := Graph.AddNode
             (Graph.RemoveNode
                (Graph.AddEdge (Graph.AddEdge (Graph.NewGraph true) 1 2) 1 2) 2) 3 in
  Graph.HasNode g 2 = false /\ Graph.GetNeighbors g 1 = [2] /\
  Graph.TopologicalSort (keys g) (keys g) g = Some ([1; 2; 3], true) /\
  Graph.TopologicalSort [1; 3] [1; 3] g = Some ([3; 1; 2], true).
Proof. vm_compute. repeat split; reflexivity. Qed.

(** C4 fails on the code. [RemoveNode] calls [RemoveEdge] once for every
    key, and [RemoveEdge] removes the first matching entry only. On the
    undirected graph with the edge 1 - 2 added twice, [RemoveNode 2]
    leaves one entry 2 in the adjacency list of 1, in whatever order the
    keys are visited: the list of 1 names a node that is gone, and
    [HasEdge 1 2] is true while [HasEdge 2 1] is false. The directed graph
    with the edge 1 -> 2 added twice keeps the edge in the same way. *)
Theorem remove_node_keeps_parallel_edge :
  (let g := Graph.AddEdge (Graph.AddEdge (Graph.NewGraph false) 1 2) 1 2 in
   Graph.GetNeighbors g 1 = [2; 2] /\ Graph.GetNeighbors g 2 = [1; 1] /\
   Graph.RemoveNodeIn [1; 2] g 2 = Graph.RemoveNode g 2 /\
   Graph.RemoveNodeIn [2; 1] g 2 = Graph.RemoveNode g 2 /\
   Graph.HasNode (Graph.RemoveNode g 2) 2 = false /\
   Graph.GetNeighbors (Graph.RemoveNode g 2) 1 = [2] /\
   Graph.HasEdge (Graph.RemoveNode g 2) 1 2 = true /\
   Graph.HasEdge (Graph.RemoveNode g 2) 2 1 = false) /\
  (let g := Graph.AddEdge (Graph.AddEdge (Graph.NewGraph true) 1 2) 1 2 in
   Graph.RemoveNodeIn [1; 2] g 2 = Graph.RemoveNode g 2 /\
   Graph.RemoveNodeIn [2; 1] g 2 = Graph.RemoveNode g 2 /\
   Graph.HasNode (Graph.RemoveNode g 2) 2 = false /\
   Graph.GetNeighbors (Graph.RemoveNode g 2) 1 = [2] /\
   Graph.HasEdge (Graph.RemoveNode g 2) 1 2 = true).
Proof. vm_compute. repeat split; reflexivity. Qed.

(* ===================================================================== *)
(** * More of the binary search tree                                     *)
(* ===================================================================== *)

Section BSTMore.
Context {T : Type} `{EqDecision T}.
Import BST.

Implicit Types (node l r : BSTNode T) (bst : BST T) (less : T -> T -> bool).

Lemma insertRecursive_contents_iff less size node value x :
  StrictTotalOrder less ->
  x ∈ contents (insertRecursive less size node value).1 <->
  x = value \/ x ∈ contents node.
Proof.
  intros Hsto. split; [apply insertRecursive_elem_of|].
  induction node as [|v l IHl r IHr]; simpl.
  - intros [->|Hx]; [left|by apply elem_of_nil in Hx].
  - destruct (less value v) eqn:E1.
    + destruct (insertRecursive less size l value) as [l' s'] eqn:E.
      simpl in *. rewrite !elem_of_app, !elem_of_cons.
      intros [->|[Hx|[->|Hx]]]; auto.
    + destruct (less v value) eqn:E2.
      * destruct (insertRecursive less size r value) as [r' s'] eqn:E.
        simpl in *. rewrite !elem_of_app, !elem_of_cons.
        intros [->|[Hx|[->|Hx]]]; auto.
      * simpl. intros [->|Hx]; [|done].
        rewrite (sto_eq less value v Hsto E1 E2). apply elem_of_app. right. left.
Qed.

Lemma insertRecursive_absent_length less size node value :
  StrictTotalOrder less -> value ∉ contents node ->
  length (contents (insertRecursive less size node value).1)
  = S (length (contents node)).
Proof.
  intros Hsto. induction node as [|v l IHl r IHr]; simpl; [done|].
  rewrite not_elem_of_app, not_elem_of_cons. intros (Hl & Hv & Hr).
  destruct (less value v) eqn:E1.
  - destruct (insertRecursive less size l value) as [l' s'] eqn:E.
    simpl in *. rewrite !length_app, IHl by done. simpl. lia.
  - destruct (less v value) eqn:E2.
    + destruct (insertRecursive less size r value) as [r' s'] eqn:E.
      simpl in *. rewrite !length_app. simpl. rewrite IHr by done. lia.
    + exfalso. apply Hv. by apply (sto_eq less).
Qed.

Lemma Search_contents bst value :
  wf bst -> Search bst value = true <-> value ∈ InOrder bst.
Proof.
  intros [Hsto Hord _]. rewrite InOrder_contents.
  by apply searchRecursive_elem_of.
Qed.

Lemma Search_false_contents bst value :
  wf bst -> Search bst value = false <-> value ∉ InOrder bst.
Proof.
  intros Hwf. rewrite <- (Search_contents bst value Hwf).
  destruct (Search bst value); split; congruence.
Qed.

Lemma Insert_Root_Size bst value :
  Root (Insert bst value) = (insertRecursive (Less bst) (Size bst) (Root bst) value).1 /\
  Size (Insert bst value) = (insertRecursive (Less bst) (Size bst) (Root bst) value).2.
Proof.
  unfold Insert. by destruct (insertRecursive (Less bst) (Size bst) (Root bst) value).
Qed.

(** X1. After [Insert v] on a well-formed BST, [Search] finds [v], every
    other value is found exactly when it was, and [Size] grows by one
    exactly when [v] was not in the tree. *)
Theorem insert_then_search bst v :
  wf bst ->
  (forall w, Search (Insert bst v) w = Search bst w || bool_decide (w = v)) /\
  Size (Insert bst v) = (if Search bst v then Size bst else Size bst + 1) /\
  wf (Insert bst v).
Proof.
  intros Hwf. pose proof (Insert_wf bst v Hwf) as Hwf'.
  pose proof Hwf as [Hsto Hord Hsz].
  destruct (Insert_Root_Size bst v) as [Hroot Hsize].
  split; [|split; [|done]].
  - intros w. apply eq_true_iff_eq.
    rewrite (Search_contents _ w Hwf'), orb_true_iff, (Search_contents _ w Hwf).
    rewrite bool_decide_eq_true, !InOrder_contents, Hroot.
    rewrite (insertRecursive_contents_iff _ _ _ _ _ Hsto). tauto.
  - destruct (Search bst v) eqn:Hs.
    + apply (Search_contents _ _ Hwf) in Hs. rewrite InOrder_contents in Hs.
      unfold Insert. by rewrite (insertRecursive_present _ _ _ _ Hsto Hord Hs).
    + apply (Search_false_contents _ _ Hwf) in Hs. rewrite InOrder_contents in Hs.
      destruct Hwf' as [_ _ Hsz']. rewrite Hsz', Hsz, !sizeOf_length, Hroot.
      rewrite (insertRecursive_absent_length _ _ _ _ Hsto Hs). lia.
Qed.

(** X2. [Delete v] on a well-formed BST returns whether [v] was in the
    tree; afterwards [v] is not found, the in-order sequence is the old
    one without [v], [Size] is one less exactly when [v] was there, the
    BST is well-formed, and it is untouched when [v] was absent. *)
Theorem delete_removes_value bst v :
  wf bst ->
  (Delete bst v).2 = Search bst v /\
  Search (Delete bst v).1 v = false /\
  InOrder (Delete bst v).1 = filter (fun x => x <> v) (InOrder bst) /\
  Size (Delete bst v).1 = (if Search bst v then Size bst - 1 else Size bst) /\
  wf (Delete bst v).1 /\
  (Search bst v = false -> (Delete bst v).1 = bst).
Proof.
  intros Hwf. pose proof (Delete_wf bst v Hwf) as Hwf'.
  pose proof Hwf as [Hsto Hord Hsz].
  assert (InOrder (Delete bst v).1 = filter (fun x => x <> v) (InOrder bst)) as Hin.
  { unfold Delete. destruct (Search bst v) eqn:Hs; simpl.
    - rewrite !InOrder_contents. simpl. by apply deleteRecursive_contents.
    - apply (Search_false_contents _ _ Hwf) in Hs.
      rewrite filter_ne_id; [done|]. intros x Hx ->. done. }
  split; [|split; [|split; [|split; [|split]]]]; try done.
  - unfold Delete. by destruct (Search bst v).
  - apply (Search_false_contents _ _ Hwf'). rewrite Hin.
    rewrite list_elem_of_filter. by intros [? _].
  - unfold Delete. by destruct (Search bst v).
  - unfold Delete. by intros ->.
Qed.

Lemma findMaxValue_last (d : T) (right : BSTNode T) (front : list T) :
  last (front ++ d :: contents right) = Some (findMaxValue d right).
Proof.
  revert d front. induction right as [|v l IHl r IHr]; intros d front; simpl.
  - by rewrite last_snoc.
  - replace (front ++ d :: contents l ++ v :: contents r)
      with ((front ++ d :: contents l) ++ v :: contents r)
      by (by rewrite <- app_assoc).
    apply IHr.
Qed.

(** X3. On a well-formed BST, [Min] and [Max] report not-found exactly
    on the empty tree; otherwise they return the first and the last
    value of the in-order sequence, which no value of the tree is less
    than, respectively greater than. They never dereference nil. *)
Theorem min_max_are_extremes bst :
  wf bst ->
  (InOrder bst = [] -> Min bst = NotFound /\ Max bst = NotFound) /\
  (InOrder bst <> [] ->
   exists lo hi,
     Min bst = Found lo /\ Max bst = Found hi /\
     head (InOrder bst) = Some lo /\ last (InOrder bst) = Some hi /\
     forall x, x ∈ InOrder bst -> Less bst x lo = false /\ Less bst hi x = false).
Proof.
  intros Hwf. pose proof Hwf as [Hsto Hord Hsz].
  pose proof (ordered_sorted _ _ Hsto Hord) as Hsorted.
  unfold Min, Max, IsEmpty. rewrite InOrder_contents in *.
  destruct bst as [root less size]. simpl in *. subst size.
  destruct root as [|v l r]; simpl in *.
  - split; [done|]. by intros [].
  - split; [intros Hnil; by destruct (contents l)|]. intros _.
    assert ((1 + sizeOf l + sizeOf r =? 0) = false) as ->.
    { pose proof (sizeOf_nonneg l). pose proof (sizeOf_nonneg r). lia. }
    exists (findMinValue v l), (findMaxValue v r).
    pose proof (findMinValue_head v l (contents r)) as Hhd.
    pose proof (findMaxValue_last v r (contents l)) as Hlst.
    split; [done|]. split; [done|]. split; [done|]. split; [done|].
    intros x Hx. split.
    + apply head_Some in Hhd as [rest Hrest]. rewrite Hrest in Hsorted, Hx.
      apply StronglySorted_inv in Hsorted as [_ Hall].
      apply elem_of_cons in Hx as [->|Hx]; [by apply sto_irrefl|].
      apply (sto_asym less _ _ Hsto).
      by apply (proj1 (Forall_forall _ _) Hall).
    + apply last_Some in Hlst as [front Hfront]. rewrite Hfront in Hsorted, Hx.
      apply elem_of_app in Hx as [Hx|Hx].
      * apply (sto_asym less _ _ Hsto).
        apply (StronglySorted_app_1_elem_of (fun a b => less a b = true)
                 front [findMaxValue v r]); [done|done|left].
      * apply list_elem_of_singleton in Hx as ->. by apply sto_irrefl.
Qed.

Lemma sto_le_lt less a b c :
  StrictTotalOrder less -> less b a = false -> less b c = true -> less a c = true.
Proof.
  intros Hsto Hab Hbc. destruct (decide (a = b)) as [->|Hne]; [done|].
  destruct (sto_total less Hsto a b Hne) as [Hlt|Hlt]; [|congruence].
  by eapply sto_trans.
Qed.

Lemma sto_lt_le less a b c :
  StrictTotalOrder less -> less a b = true -> less c b = false -> less a c = true.
Proof.
  intros Hsto Hab Hcb. destruct (decide (b = c)) as [<-|Hne]; [done|].
  destruct (sto_total less Hsto b c Hne) as [Hlt|Hlt]; [|congruence].
  by eapply sto_trans.
Qed.

Lemma floorRecursive_spec less node value :
  StrictTotalOrder less -> ordered less node ->
  match floorRecursive less node value with
  | Some f =>
      f ∈ contents node /\ less value f = false /\
      forall x, x ∈ contents node -> less value x = false -> less f x = false
  | None => forall x, x ∈ contents node -> less value x = true
  end.
Proof.
  intros Hsto. induction node as [|v l IHl r IHr]; simpl.
  - intros _ x Hx. by apply elem_of_nil in Hx.
  - intros (Hl & Hr & Hlv & Hrv). specialize (IHl Hl). specialize (IHr Hr).
    destruct (decide (v = value)) as [->|Hne].
    { split; [apply elem_of_app; right; left|]. split; [by apply sto_irrefl|]. auto. }
    destruct (less value v) eqn:E1.
    + destruct (floorRecursive less l value) as [f|].
      * destruct IHl as (Hf & Hle & Hmax). split; [apply elem_of_app; by left|].
        split; [done|]. intros x Hx Hxv.
        apply elem_of_app in Hx as [Hx|Hx]; [by apply Hmax|].
        apply elem_of_cons in Hx as [->|Hx]; [congruence|].
        rewrite (sto_trans less Hsto value v x E1 (Hrv x Hx)) in Hxv. done.
      * intros x Hx. apply elem_of_app in Hx as [Hx|Hx]; [by apply IHl|].
        apply elem_of_cons in Hx as [->|Hx]; [done|].
        apply (sto_trans less Hsto value v x); auto.
    + assert (less v value = true) as E2
        by (destruct (sto_total less Hsto v value Hne); congruence).
      destruct (floorRecursive less r value) as [f|].
      * destruct IHr as (Hf & Hle & Hmax).
        split; [apply elem_of_app; right; by right|]. split; [done|].
        intros x Hx Hxv. apply elem_of_app in Hx as [Hx|Hx].
        -- apply (sto_asym less _ _ Hsto).
           apply (sto_trans less Hsto x v f); auto.
        -- apply elem_of_cons in Hx as [->|Hx]; [|by apply Hmax].
           apply (sto_asym less _ _ Hsto). auto.
      * split; [apply elem_of_app; right; left|]. split; [done|].
        intros x Hx Hxv. apply elem_of_app in Hx as [Hx|Hx].
        -- apply (sto_asym less _ _ Hsto). auto.
        -- apply elem_of_cons in Hx as [->|Hx]; [by apply sto_irrefl|].
           rewrite (IHr x Hx) in Hxv. done.
Qed.

Lemma ceilingRecursive_spec less node value :
  StrictTotalOrder less -> ordered less node ->
  match ceilingRecursive less node value with
  | Some c =>
      c ∈ contents node /\ less c value = false /\
      forall x, x ∈ contents node -> less x value = false -> less x c = false
  | None => forall x, x ∈ contents node -> less x value = true
  end.
Proof.
  intros Hsto. induction node as [|v l IHl r IHr]; simpl.
  - intros _ x Hx. by apply elem_of_nil in Hx.
  - intros (Hl & Hr & Hlv & Hrv). specialize (IHl Hl). specialize (IHr Hr).
    destruct (decide (v = value)) as [->|Hne].
    { split; [apply elem_of_app; right; left|]. split; [by apply sto_irrefl|]. auto. }
    destruct (less v value) eqn:E1.
    + destruct (ceilingRecursive less r value) as [c|].
      * destruct IHr as (Hc & Hle & Hmin).
        split; [apply elem_of_app; right; by right|]. split; [done|].
        intros x Hx Hxv. apply elem_of_app in Hx as [Hx|Hx].
        -- rewrite (sto_trans less Hsto x v value (Hlv x Hx) E1) in Hxv. done.
        -- apply elem_of_cons in Hx as [->|Hx]; [congruence|]. by apply Hmin.
      * intros x Hx. apply elem_of_app in Hx as [Hx|Hx].
        -- apply (sto_trans less Hsto x v value); auto.
        -- apply elem_of_cons in Hx as [->|Hx]; [done|]. by apply IHr.
    + assert (less value v = true) as E2
        by (destruct (sto_total less Hsto value v); congruence).
      destruct (ceilingRecursive less l value) as [c|].
      * destruct IHl as (Hc & Hle & Hmin).
        split; [apply elem_of_app; by left|]. split; [done|].
        intros x Hx Hxv. apply elem_of_app in Hx as [Hx|Hx]; [by apply Hmin|].
        apply (sto_asym less _ _ Hsto).
        apply elem_of_cons in Hx as [->|Hx]; [by auto|].
        apply (sto_trans less Hsto c v x); auto.
      * split; [apply elem_of_app; right; left|]. split; [done|].
        intros x Hx Hxv. apply elem_of_app in Hx as [Hx|Hx].
        -- rewrite (IHl x Hx) in Hxv. done.
        -- apply elem_of_cons in Hx as [->|Hx]; [by apply sto_irrefl|].
           apply (sto_asym less _ _ Hsto). auto.
Qed.

(** X4. On a well-formed BST, [Floor v] returns the largest value of the
    tree that is not greater than [v] and [Ceiling v] the smallest one
    that is not less than [v]; each reports not-found exactly when the
    tree has no such value. *)
Theorem floor_ceiling_are_bounds bst v :
  wf bst ->
  match Floor bst v with
  | Some f =>
      f ∈ InOrder bst /\ Less bst v f = false /\
      forall x, x ∈ InOrder bst -> Less bst v x = false -> Less bst f x = false
  | None => forall x, x ∈ InOrder bst -> Less bst v x = true
  end /\
  match Ceiling bst v with
  | Some c =>
      c ∈ InOrder bst /\ Less bst c v = false /\
      forall x, x ∈ InOrder bst -> Less bst x v = false -> Less bst x c = false
  | None => forall x, x ∈ InOrder bst -> Less bst x v = true
  end.
Proof.
  intros [Hsto Hord _]. rewrite InOrder_contents. unfold Floor, Ceiling. split.
  - by apply floorRecursive_spec.
  - by apply ceilingRecursive_spec.
Qed.

Lemma filter_none (P : T -> Prop) `{!forall x, Decision (P x)} (xs : list T) :
  (forall x, x ∈ xs -> ~ P x) -> filter P xs = [].
Proof.
  induction xs as [|x xs IH]; intros Hall; [done|].
  rewrite filter_cons_False by (apply Hall; left).
  apply IH. intros y Hy. apply Hall. by right.
Qed.

Lemma filter_all (P : T -> Prop) `{!forall x, Decision (P x)} (xs : list T) :
  (forall x, x ∈ xs -> P x) -> filter P xs = xs.
Proof.
  induction xs as [|x xs IH]; intros Hall; [done|].
  rewrite filter_cons_True by (apply Hall; left).
  f_equal. apply IH. intros y Hy. apply Hall. by right.
Qed.

Lemma rangeRecursive_filter less node min max result :
  StrictTotalOrder less -> ordered less node ->
  rangeRecursive less node min max result
  = result ++ filter (fun x => less x min = false /\ less max x = false) (contents node).
Proof.
  intros Hsto. revert result. induction node as [|v l IHl r IHr]; intros result; simpl.
  - intros _. by rewrite app_nil_r.
  - intros (Hl & Hr & Hlv & Hrv).
    rewrite filter_app, filter_cons.
    assert ((if less min v then rangeRecursive less l min max result else result)
            = result ++ filter (fun x => less x min = false /\ less max x = false)
                          (contents l)) as ->.
    { destruct (less min v) eqn:E; [by apply IHl|].
      rewrite filter_none; [by rewrite app_nil_r|].
      intros x Hx [Hmin _].
      rewrite (sto_lt_le less x v min Hsto (Hlv x Hx) E) in Hmin. done. }
    assert (filter (fun x => less x min = false /\ less max x = false) (contents r) = []
            \/ less v max = true) as Hright.
    { destruct (less v max) eqn:E; [by right|left].
      apply filter_none. intros x Hx [_ Hmax].
      rewrite (sto_le_lt less max v x Hsto E (Hrv x Hx)) in Hmax. done. }
    cbn beta.
    destruct (decide (less v min = false /\ less max v = false)) as [[E1 E2]|Hn].
    + rewrite E1, E2. simpl. destruct (less v max) eqn:E3.
      * rewrite IHr by done. by rewrite <- !app_assoc.
      * destruct Hright as [->|?]; [|done]. by rewrite <- !app_assoc.
    + assert (negb (less v min) && negb (less max v) = false) as ->.
      { destruct (less v min), (less max v); try done. exfalso. by apply Hn. }
      destruct (less v max) eqn:E3.
      * rewrite IHr by done. by rewrite <- !app_assoc.
      * destruct Hright as [->|?]; [|done]. by rewrite app_nil_r.
Qed.

(** X5. On a well-formed BST, [Range min max] is the in-order sequence
    restricted to the values that are neither less than [min] nor
    greater than [max]: the subtrees it skips hold no such value. *)
Theorem range_is_inorder_slice bst min max :
  wf bst ->
  Range bst min max
  = filter (fun x => Less bst x min = false /\ Less bst max x = false) (InOrder bst).
Proof.
  intros [Hsto Hord _]. unfold Range. rewrite InOrder_contents.
  by rewrite rangeRecursive_filter.
Qed.

Lemma successorLoop_head less node value successor :
  StrictTotalOrder less -> ordered less node ->
  successorLoop less node value successor
  = match head (filter (fun x => less value x = true) (contents node)) with
    | Some s => Some s
    | None => successor
    end.
Proof.
  intros Hsto. revert successor.
  induction node as [|v l IHl r IHr]; intros successor; simpl; [done|].
  intros (Hl & Hr & Hlv & Hrv). rewrite filter_app, filter_cons.
  destruct (less v value) eqn:E1.
  - rewrite IHr by done.
    rewrite (filter_none _ (contents l)).
    + rewrite decide_False; [done|]. rewrite (sto_asym less v value Hsto E1). done.
    + intros x Hx Hgt.
      rewrite (sto_asym less x value Hsto (sto_trans less Hsto x v value (Hlv x Hx) E1)) in Hgt.
      done.
  - destruct (less value v) eqn:E2.
    + rewrite IHl by done. rewrite decide_True by done. rewrite head_app.
      by destruct (head (filter (fun x => less value x = true) (contents l))).
    + assert (v = value) as Heq by (by apply (sto_eq less)). subst value.
      rewrite decide_False by congruence.
      rewrite (filter_none _ (contents l)).
      2:{ intros x Hx Hgt. rewrite (sto_asym less x v Hsto (Hlv x Hx)) in Hgt. done. }
      rewrite (filter_all _ (contents r)) by auto. simpl.
      destruct r as [|rv rl rr]; [done|].
      pose proof (findMinValue_head rv rl (contents rr)) as Hhd.
      simpl. by rewrite Hhd.
Qed.

Lemma predecessorLoop_last less node value predecessor :
  StrictTotalOrder less -> ordered less node ->
  predecessorLoop less node value predecessor
  = match last (filter (fun x => less x value = true) (contents node)) with
    | Some p => Some p
    | None => predecessor
    end.
Proof.
  intros Hsto. revert predecessor.
  induction node as [|v l IHl r IHr]; intros predecessor; simpl; [done|].
  intros (Hl & Hr & Hlv & Hrv). rewrite filter_app, filter_cons.
  destruct (less value v) eqn:E1.
  - rewrite IHl by done.
    rewrite (filter_none _ (contents r)).
    + rewrite decide_False; [by rewrite app_nil_r|].
      rewrite (sto_asym less value v Hsto E1). done.
    + intros x Hx Hlt.
      rewrite (sto_asym less value x Hsto (sto_trans less Hsto value v x E1 (Hrv x Hx))) in Hlt.
      done.
  - destruct (less v value) eqn:E2.
    + rewrite IHr by done. rewrite decide_True by done.
      rewrite last_app, last_cons.
      by destruct (last (filter (fun x => less x value = true) (contents r))).
    + assert (v = value) as Heq by (by apply (sto_eq less)). subst value.
      rewrite decide_False by congruence.
      rewrite (filter_none _ (contents r)).
      2:{ intros x Hx Hlt. rewrite (sto_asym less v x Hsto (Hrv x Hx)) in Hlt. done. }
      rewrite (filter_all _ (contents l)) by auto. rewrite app_nil_r.
      destruct l as [|lv ll lr]; [done|].
      pose proof (findMaxValue_last lv lr (contents ll)) as Hlst.
      simpl. by rewrite Hlst.
Qed.

(** X6. On a well-formed BST, [Successor v] is the first value of the
    in-order sequence that is greater than [v] and [Predecessor v] the
    last one that is less than [v], whether or not [v] is in the tree;
    each reports not-found exactly when there is no such value. *)
Theorem successor_predecessor_are_neighbours bst v :
  wf bst ->
  Successor bst v = head (filter (fun x => Less bst v x = true) (InOrder bst)) /\
  Predecessor bst v = last (filter (fun x => Less bst x v = true) (InOrder bst)).
Proof.
  intros [Hsto Hord _]. rewrite InOrder_contents. unfold Successor, Predecessor.
  rewrite successorLoop_head, predecessorLoop_last by done.
  split.
  - by destruct (head _).
  - by destruct (last _).
Qed.

Lemma heightRecursive_lower node : -1 <= heightRecursive node.
Proof. induction node as [|v l IHl r IHr]; simpl; lia. Qed.

Lemma isBalancedRecursive_spec node :
  (isBalancedRecursive node = -1 /\ ~ balanced node) \/
  (isBalancedRecursive node = heightRecursive node + 1 /\ balanced node).
Proof.
  induction node as [|v l IHl r IHr]; simpl.
  - right. done.
  - pose proof (heightRecursive_lower l). pose proof (heightRecursive_lower r).
    destruct IHl as [[-> Hl]|[-> Hl]].
    + left. simpl. split; [done|]. by intros (? & _).
    + replace (heightRecursive l + 1 =? -1) with false by lia.
      destruct IHr as [[-> Hr]|[-> Hr]].
      * left. simpl. split; [done|]. by intros (_ & ? & _).
      * replace (heightRecursive r + 1 =? -1) with false by lia.
        unfold abs.
        destruct (Z.abs_spec (heightRecursive l - heightRecursive r)) as [[? Habs]|[? Habs]];
          destruct (heightRecursive l + 1 - (heightRecursive r + 1) <? 0) eqn:E1;
          match goal with
          | |- context [?a >? 1] => destruct (a >? 1) eqn:E2
          end;
          try lia;
          first [ left; split; [done|]; intros (_ & _ & ?); lia
                | right; split; [lia|]; split; [done|]; split; [done|]; lia ].
Qed.

(** X7. [IsBalanced] is true exactly when the heights of the two
    subtrees of every node differ by at most one, with [Height] as the
    measure ([-1] for the empty tree). *)
Theorem is_balanced_iff_heights_differ_by_one bst :
  IsBalanced bst = true <-> balanced (Root bst).
Proof.
  unfold IsBalanced. pose proof (heightRecursive_lower (Root bst)).
  destruct (isBalancedRecursive_spec (Root bst)) as [[-> Hn]|[-> Hb]].
  - simpl. split; [done|]. intros Hb. by destruct Hn.
  - replace (heightRecursive (Root bst) + 1 =? -1) with false by lia. done.
Qed.

Lemma filterRecursive_fold node (predicate : T -> bool) result :
  filterRecursive node predicate result
  = fold_left Insert (filter (fun x => predicate x = true) (contents node)) result.
Proof.
  revert result. induction node as [|v l IHl r IHr]; intros result; simpl; [done|].
  rewrite filter_app, filter_cons, fold_left_app, IHr, IHl.
  destruct (predicate v) eqn:E.
  - by rewrite decide_True.
  - by rewrite decide_False.
Qed.

Lemma StronglySorted_filter (R : T -> T -> Prop) (P : T -> Prop)
    `{!forall x, Decision (P x)} (xs : list T) :
  StronglySorted R xs -> StronglySorted R (filter P xs).
Proof.
  induction 1 as [|x xs Hs IH Hall]; [constructor|].
  rewrite filter_cons. destruct (decide (P x)); [|done].
  constructor; [done|]. apply Forall_forall. intros y Hy.
  apply list_elem_of_filter in Hy as [_ Hy].
  by apply (proj1 (Forall_forall _ _) Hall).
Qed.

(** X8. [Filter] on a well-formed BST gives a well-formed BST whose
    in-order sequence is the old one restricted to the values that
    satisfy the predicate; its [Size] is the number of those values. *)
Theorem filter_keeps_matching_values bst (predicate : T -> bool) :
  wf bst ->
  InOrder (Filter bst predicate)
  = filter (fun x => predicate x = true) (InOrder bst) /\
  Size (Filter bst predicate)
  = Z.of_nat (length (filter (fun x => predicate x = true) (InOrder bst))) /\
  wf (Filter bst predicate).
Proof.
  intros [Hsto Hord Hsz]. unfold Filter, NewBST.
  rewrite filterRecursive_fold, !InOrder_contents.
  assert (wf (fold_left Insert (filter (fun x => predicate x = true) (contents (Root bst)))
                {| Root := Nil; Less := Less bst; Size := 0 |})) as Hwf
    by (apply fold_Insert_wf; by apply NewBST_wf).
  change {| Root := Nil; Less := Less bst; Size := 0 |}
    with {| Root := chain []; Less := Less bst; Size := 0 |} in *.
  rewrite (fold_Insert_chain (Less bst) [] _ 0 Hsto) in *.
  - simpl. rewrite contents_chain. done.
  - simpl. apply StronglySorted_filter. by apply ordered_sorted.
  - simpl. apply StronglySorted_filter. by apply ordered_sorted.
Qed.

Lemma equalsLoop_same_length (xs ys : list T) :
  length xs = length ys -> equalsLoop xs ys = Some (bool_decide (xs = ys)).
Proof.
  revert ys. induction xs as [|x xs IH]; intros [|y ys] Hlen; simpl in *; try done.
  destruct (decide (x = y)) as [->|Hne].
  - rewrite IH by lia. f_equal. apply bool_decide_ext. split; congruence.
  - by rewrite bool_decide_eq_false_2 by congruence.
Qed.

Lemma Clone_wf bst : wf bst -> wf (Clone bst).
Proof.
  intros Hwf. unfold Clone. rewrite cloneRecursive_fold.
  apply fold_Insert_wf, NewBST_wf. by destruct Hwf.
Qed.

(** X9. On two well-formed BSTs, [Equals] never indexes out of range and
    is true exactly when the two in-order sequences are equal, whatever
    the shapes of the trees. *)
Theorem equals_compares_inorder bst other :
  wf bst -> wf other ->
  Equals bst other = Some (bool_decide (InOrder bst = InOrder other)).
Proof.
  intros Hwf1 Hwf2. unfold Equals.
  pose proof (wf_length bst Hwf1) as H1. pose proof (wf_length other Hwf2) as H2.
  destruct (decide (Size bst = Size other)) as [Heq|Hne].
  - apply equalsLoop_same_length. lia.
  - rewrite bool_decide_eq_false_2; [done|]. intros Hin. rewrite Hin in H1. lia.
Qed.

Lemma preOrderRecursive_perm node result :
  preOrderRecursive node result ≡ₚ result ++ contents node.
Proof.
  revert result. induction node as [|v l IHl r IHr]; intros result; simpl.
  - by rewrite app_nil_r.
  - rewrite IHr, IHl. rewrite <- !app_assoc. f_equiv. simpl.
    by rewrite Permutation_middle.
Qed.

Lemma postOrderRecursive_perm node result :
  postOrderRecursive node result ≡ₚ result ++ contents node.
Proof.
  revert result. induction node as [|v l IHl r IHr]; intros result; simpl.
  - by rewrite app_nil_r.
  - rewrite IHr, IHl. rewrite <- !app_assoc. f_equiv. f_equiv.
    by rewrite <- Permutation_cons_append.
Qed.

Lemma levelOrderLoop_perm (fuel : nat) (queue : list (BSTNode T)) (result : list T) :
  Forall (fun node => node <> Nil) queue ->
  (length (mjoin (contents <$> queue)) <= fuel)%nat ->
  exists visited,
    levelOrderLoop fuel queue result = Some (result ++ visited) /\
    visited ≡ₚ mjoin (contents <$> queue).
Proof.
  revert queue result. induction fuel as [|fuel IH]; intros queue result Hq Hlen.
  - destruct queue as [|[|v l r] queue]; simpl in *.
    + exists []. by rewrite app_nil_r.
    + apply Forall_cons in Hq as [Hn _]. done.
    + rewrite !length_app in Hlen. simpl in Hlen. lia.
  - destruct queue as [|[|v l r] queue]; simpl in *.
    + exists []. by rewrite app_nil_r.
    + apply Forall_cons in Hq as [Hn _]. done.
    + apply Forall_cons in Hq as [_ Hq].
      set (q1 := match l with Nil => queue | _ => queue ++ [l] end).
      set (q2 := match r with Nil => q1 | _ => q1 ++ [r] end).
      assert (Forall (fun node => node <> Nil) q2 /\
              mjoin (contents <$> q2)
              ≡ₚ contents l ++ contents r ++ mjoin (contents <$> queue)) as [Hq2 Hperm].
      { subst q1 q2. destruct l as [|lv ll lr], r as [|rv rl rr]; simpl.
        - done.
        - split; [apply Forall_app; split; [done|by repeat constructor]|].
          rewrite fmap_app, join_app. simpl. rewrite app_nil_r.
          by rewrite (comm (++)).
        - split; [apply Forall_app; split; [done|by repeat constructor]|].
          rewrite fmap_app, join_app. simpl. rewrite !app_nil_r.
          by rewrite (comm (++)).
        - split; [repeat (apply Forall_app; split); by repeat constructor|].
          rewrite !fmap_app, !join_app. simpl. rewrite !app_nil_r.
          generalize (mjoin (contents <$> queue)) (contents ll ++ lv :: contents lr)
            (contents rl ++ rv :: contents rr).
          intros Q L R. rewrite <- (app_assoc Q), (comm (++) Q).
          by rewrite <- app_assoc. }
      destruct (IH q2 (result ++ [v]) Hq2) as (visited & -> & Hvis).
      { rewrite Hperm. rewrite !length_app in *. simpl in Hlen.
        unfold fmap in *. lia. }
      exists (v :: visited). rewrite <- app_assoc. split; [done|].
      rewrite Hvis, Hperm. rewrite <- app_assoc. simpl.
      apply Permutation_middle.
Qed.

(** X10. [PreOrder], [PostOrder] and [LevelOrder] visit every node once:
    each returns a permutation of the in-order sequence, for any tree,
    and the loop of [LevelOrder] ends within as many rounds as the tree
    has nodes. *)
Theorem traversals_visit_every_node_once bst :
  PreOrder bst ≡ₚ InOrder bst /\
  PostOrder bst ≡ₚ InOrder bst /\
  exists visited, LevelOrder bst = Some visited /\ visited ≡ₚ InOrder bst.
Proof.
  rewrite InOrder_contents. unfold PreOrder, PostOrder, LevelOrder.
  split; [by rewrite preOrderRecursive_perm|].
  split; [by rewrite postOrderRecursive_perm|].
  destruct (Root bst) as [|v l r] eqn:Hroot; [by exists []|].
  destruct (levelOrderLoop_perm (Z.to_nat (sizeOf (Node v l r))) [Node v l r] [])
    as (visited & Hloop & Hperm).
  - by repeat constructor.
  - rewrite sizeOf_length. simpl. rewrite app_nil_r. lia.
  - exists visited. split; [done|]. rewrite Hperm. simpl. by rewrite app_nil_r.
Qed.

End BSTMore.

(** ** The properties above on the BST of the scenario *)

Lemma insert_then_search_witness :
  (forall w, BST.Search (BST.Insert scenario 9) w
             = BST.Search scenario w || bool_decide (w = 9)) /\
  BST.Size (BST.Insert scenario 9)
  = (if BST.Search scenario 9 then BST.Size scenario else BST.Size scenario + 1) /\
  wf (BST.Insert scenario 9).
Proof. exact (insert_then_search scenario 9 scenario_wf). Defined.

Lemma delete_removes_value_witness :
  (BST.Delete scenario 5).2 = BST.Search scenario 5 /\
  BST.Search (BST.Delete scenario 5).1 5 = false /\
  BST.InOrder (BST.Delete scenario 5).1
  = filter (fun x => x <> 5) (BST.InOrder scenario) /\
  BST.Size (BST.Delete scenario 5).1
  = (if BST.Search scenario 5 then BST.Size scenario - 1 else BST.Size scenario) /\
  wf (BST.Delete scenario 5).1 /\
  (BST.Search scenario 5 = false -> (BST.Delete scenario 5).1 = scenario).
Proof. exact (delete_removes_value scenario 5 scenario_wf). Defined.

Lemma min_max_are_extremes_witness :
  (BST.InOrder scenario = [] ->
   BST.Min scenario = BST.NotFound /\ BST.Max scenario = BST.NotFound) /\
  (BST.InOrder scenario <> [] ->
   exists lo hi,
     BST.Min scenario = BST.Found lo /\ BST.Max scenario = BST.Found hi /\
     head (BST.InOrder scenario) = Some lo /\ last (BST.InOrder scenario) = Some hi /\
     forall x, x ∈ BST.InOrder scenario ->
       BST.Less scenario x lo = false /\ BST.Less scenario hi x = false).
Proof. exact (min_max_are_extremes scenario scenario_wf). Defined.

Lemma floor_ceiling_are_bounds_witness :
  match BST.Floor scenario 1 with
  | Some f =>
      f ∈ BST.InOrder scenario /\ BST.Less scenario 1 f = false /\
      forall x, x ∈ BST.InOrder scenario ->
        BST.Less scenario 1 x = false -> BST.Less scenario f x = false
  | None => forall x, x ∈ BST.InOrder scenario -> BST.Less scenario 1 x = true
  end /\
  match BST.Ceiling scenario 1 with
  | Some c =>
      c ∈ BST.InOrder scenario /\ BST.Less scenario c 1 = false /\
      forall x, x ∈ BST.InOrder scenario ->
        BST.Less scenario x 1 = false -> BST.Less scenario x c = false
  | None => forall x, x ∈ BST.InOrder scenario -> BST.Less scenario x 1 = true
  end.
Proof. exact (floor_ceiling_are_bounds scenario 1 scenario_wf). Defined.

Lemma range_is_inorder_slice_witness :
  BST.Range scenario 3 6
  = filter (fun x => BST.Less scenario x 3 = false /\ BST.Less scenario 6 x = false)
           (BST.InOrder scenario).
Proof. exact (range_is_inorder_slice scenario 3 6 scenario_wf). Defined.

Lemma successor_predecessor_are_neighbours_witness :
  BST.Successor scenario 4
  = head (filter (fun x => BST.Less scenario 4 x = true) (BST.InOrder scenario)) /\
  BST.Predecessor scenario 4
  = last (filter (fun x => BST.Less scenario x 4 = true) (BST.InOrder scenario)).
Proof. exact (successor_predecessor_are_neighbours scenario 4 scenario_wf). Defined.

Lemma filter_keeps_matching_values_witness :
  BST.InOrder (BST.Filter scenario Z.even)
  = filter (fun x => Z.even x = true) (BST.InOrder scenario) /\
  BST.Size (BST.Filter scenario Z.even)
  = Z.of_nat (length (filter (fun x => Z.even x = true) (BST.InOrder scenario))) /\
  wf (BST.Filter scenario Z.even).
Proof. exact (filter_keeps_matching_values scenario Z.even scenario_wf). Defined.

Lemma equals_compares_inorder_witness :
  BST.Equals scenario (BST.Clone scenario)
  = Some (bool_decide (BST.InOrder scenario = BST.InOrder (BST.Clone scenario))).
Proof.
  apply (equals_compares_inorder scenario (BST.Clone scenario) scenario_wf).
  apply Clone_wf, scenario_wf.
Defined.

(** The values these operations return on the scenario. *)
Example scenario_values :
  BST.InOrder scenario = [2; 3; 4; 5; 6; 7; 8] /\
  BST.Min scenario = BST.Found 2 /\ BST.Max scenario = BST.Found 8 /\
  BST.Floor scenario 4 = Some 4 /\ BST.Floor scenario 1 = None /\
  BST.Ceiling scenario 9 = None /\
  BST.Range scenario 3 6 = [3; 4; 5; 6] /\
  BST.Successor scenario 4 = Some 5 /\ BST.Predecessor scenario 2 = None /\
  BST.InOrder (BST.Delete scenario 5).1 = [2; 3; 4; 6; 7; 8] /\
  BST.Search (BST.Delete scenario 5).1 5 = false.
Proof. vm_compute. repeat split; reflexivity. Qed.

(* ===================================================================== *)
(** * More of the ordered map                                            *)
(* ===================================================================== *)

Section TreeMapMore.
Context {K V : Type} `{EqDecision K}.
Import TreeMap.

Implicit Types (node l r : TreeMapNode K V) (tm : TreeMap K V)
  (less : K -> K -> bool) (key k : K) (value v : V).

Lemma Put_root_size tm key value :
  root (Put tm key value) = (putRecursive (less tm) (size tm) (root tm) key value).1 /\
  size (Put tm key value) = (putRecursive (less tm) (size tm) (root tm) key value).2 /\
  less (Put tm key value) = less tm.
Proof.
  unfold Put. by destruct (putRecursive (less tm) (size tm) (root tm) key value).
Qed.

Lemma getNode_putRecursive_same less size node key value :
  StrictTotalOrder less ->
  snd <$> getNode less (putRecursive less size node key value).1 key = Some value.
Proof.
  intros Hsto. induction node as [|k v l IHl r IHr]; simpl.
  - by rewrite (sto_irrefl less Hsto).
  - destruct (less key k) eqn:E1.
    + destruct (putRecursive less size l key value) as [l' s']. simpl in *. by rewrite E1.
    + destruct (less k key) eqn:E2.
      * destruct (putRecursive less size r key value) as [r' s']. simpl in *.
        by rewrite E1, E2.
      * simpl. by rewrite E1, E2.
Qed.

Lemma getNode_putRecursive_other less size node key value key' :
  StrictTotalOrder less -> key' <> key ->
  snd <$> getNode less (putRecursive less size node key value).1 key'
  = snd <$> getNode less node key'.
Proof.
  intros Hsto Hne. induction node as [|k v l IHl r IHr]; simpl.
  - destruct (sto_total less Hsto key' key Hne) as [-> | Hlt]; [done|].
    rewrite (sto_asym less key key' Hsto Hlt), Hlt. done.
  - destruct (less key k) eqn:E1.
    + destruct (putRecursive less size l key value) as [l' s']. simpl in *.
      by destruct (less key' k), (less k key').
    + destruct (less k key) eqn:E2.
      * destruct (putRecursive less size r key value) as [r' s']. simpl in *.
        by destruct (less key' k), (less k key').
      * simpl. destruct (less key' k) eqn:E3; [done|].
        destruct (less k key') eqn:E4; [done|].
        exfalso. apply Hne.
        rewrite (sto_eq less key' k Hsto E3 E4). symmetry. by apply (sto_eq less).
Qed.

Lemma putRecursive_size_contains less size node key value :
  (putRecursive less size node key value).2
  = if bool_decide (is_Some (getNode less node key)) then size else size + 1.
Proof.
  induction node as [|k v l IHl r IHr]; simpl.
  - done.
  - destruct (less key k) eqn:E1.
    + by destruct (putRecursive less size l key value) as [l' s'].
    + destruct (less k key) eqn:E2.
      * by destruct (putRecursive less size r key value) as [r' s'].
      * done.
Qed.

Lemma put_then_get_lemma tm key value :
  StrictTotalOrder (less tm) ->
  Get (Put tm key value) key = Some value /\
  (forall key', key' <> key -> Get (Put tm key value) key' = Get tm key').
Proof.
  intros Hsto. destruct (Put_root_size tm key value) as (Hroot & Hsize & Hless).
  unfold Get. rewrite Hroot, Hless.
  split; [by apply getNode_putRecursive_same|].
  intros key' Hne. by apply getNode_putRecursive_other.
Qed.

(** X11. With a comparator that is a strict total order, on any
    TreeMap: after [Put key value], [Get key] returns [value], [Get] of
    every other key returns what it returned before, and the size grows
    by one exactly when the key was not contained. *)
Theorem put_then_get tm key value :
  StrictTotalOrder (less tm) ->
  Get (Put tm key value) key = Some value /\
  (forall key', key' <> key -> Get (Put tm key value) key' = Get tm key') /\
  Size (Put tm key value) = (if ContainsKey tm key then Size tm else Size tm + 1).
Proof.
  intros Hsto. destruct (Put_root_size tm key value) as (Hroot & Hsize & Hless).
  unfold Get, Size, ContainsKey. rewrite Hroot, Hsize, Hless.
  split; [by apply getNode_putRecursive_same|].
  split; [intros key' Hne; by apply getNode_putRecursive_other|].
  apply putRecursive_size_contains.
Qed.

Lemma skeleton_putRecursive less size node key value :
  skeleton (putRecursive less size node key value).1
  = (BST.insertRecursive less size (skeleton node) key).1 /\
  (putRecursive less size node key value).2
  = (BST.insertRecursive less size (skeleton node) key).2.
Proof.
  induction node as [|k v l IHl r IHr]; simpl; [done|].
  destruct (less key k).
  - destruct (putRecursive less size l key value) as [l' s'].
    destruct (BST.insertRecursive less size (skeleton l) key) as [l'' s''].
    simpl in *. destruct IHl as [-> ->]. done.
  - destruct (less k key).
    + destruct (putRecursive less size r key value) as [r' s'].
      destruct (BST.insertRecursive less size (skeleton r) key) as [r'' s''].
      simpl in *. destruct IHr as [-> ->]. done.
    + done.
Qed.

Lemma Put_tmwf tm key value : tmwf tm -> tmwf (Put tm key value).
Proof.
  intros [Hsto Hord Hsz]. destruct (Put_root_size tm key value) as (Hroot & Hsize & Hless).
  destruct (skeleton_putRecursive (less tm) (size tm) (root tm) key value) as [Hsk Hs].
  split.
  - by rewrite Hless.
  - rewrite Hless, Hroot, Hsk. by apply insertRecursive_ordered.
  - rewrite Hsize, Hroot, Hs, <- skeleton_sizeOf, Hsk.
    rewrite insertRecursive_size. rewrite Hsz, <- skeleton_sizeOf. lia.
Qed.

Lemma NewTreeMap_tmwf less : StrictTotalOrder less -> tmwf (NewTreeMap (V:=V) less).
Proof. intros Hsto. by split. Qed.

Lemma putAll_tmwf tm entries : tmwf tm -> tmwf (putAll tm entries).
Proof.
  revert tm. induction entries as [|e entries IH]; intros tm Hwf; simpl; [done|].
  apply IH. by apply Put_tmwf.
Qed.

Lemma putAll_less tm entries : less (putAll tm entries) = less tm.
Proof.
  revert tm. induction entries as [|e entries IH]; intros tm; simpl; [done|].
  rewrite IH. by destruct (Put_root_size tm e.1 e.2) as (_ & _ & ->).
Qed.

Lemma putAll_snoc tm entries e :
  putAll tm (entries ++ [e]) = Put (putAll tm entries) e.1 e.2.
Proof. unfold putAll. by rewrite fold_left_app. Qed.

Lemma getNode_entries less node key value :
  StrictTotalOrder less -> ordered less (skeleton node) ->
  snd <$> getNode less node key = Some value <-> (key, value) ∈ inOrderTraversal node.
Proof.
  intros Hsto. induction node as [|k v l IHl r IHr]; simpl.
  - intros _. split; [done|]. by intros ?%elem_of_nil.
  - intros (Hl & Hr & Hlv & Hrv). rewrite !skeleton_keys in *.
    assert (forall e, e ∈ inOrderTraversal l -> less e.1 k = true) as Hlk
      by (intros e He; apply Hlv; by apply list_elem_of_fmap_2).
    assert (forall e, e ∈ inOrderTraversal r -> less k e.1 = true) as Hrk
      by (intros e He; apply Hrv; by apply list_elem_of_fmap_2).
    rewrite elem_of_app, elem_of_cons.
    destruct (less key k) eqn:E1.
    + rewrite (IHl Hl). split; [by left|]. intros [?|[Heq|Hin]]; [done| |].
      * injection Heq as -> ->. by rewrite (sto_irrefl less Hsto) in E1.
      * apply Hrk in Hin. simpl in Hin. by rewrite (sto_asym less _ _ Hsto Hin) in E1.
    + destruct (less k key) eqn:E2.
      * rewrite (IHr Hr). split; [by (right; right)|]. intros [Hin|[Heq|?]]; [| |done].
        -- apply Hlk in Hin. simpl in Hin. congruence.
        -- injection Heq as -> ->. by rewrite (sto_irrefl less Hsto) in E2.
      * simpl. rewrite (sto_eq less key k Hsto E1 E2). split.
        -- intros [= ->]. right. by left.
        -- intros [Hin|[Heq|Hin]].
           ++ apply Hlk in Hin. simpl in Hin. by rewrite (sto_irrefl less Hsto) in Hin.
           ++ by injection Heq as ->.
           ++ apply Hrk in Hin. simpl in Hin. by rewrite (sto_irrefl less Hsto) in Hin.
Qed.

(** X12. A TreeMap built from the empty map by any sequence of [Put]
    calls, with a comparator that is a strict total order, behaves as a
    map with sorted keys: [Keys] is strictly increasing, its length is the
    size, [Get] returns for each key the value of the last [Put] on that
    key (not-found when there was none), and [Entries] holds exactly the
    pairs that [Get] returns. *)
Theorem put_sequence_is_sorted_map less (entries : list (K * V)) :
  StrictTotalOrder less ->
  StronglySorted (fun a b => less a b = true) (Keys (putAll (NewTreeMap less) entries)) /\
  Z.of_nat (length (Keys (putAll (NewTreeMap less) entries)))
  = Size (putAll (NewTreeMap less) entries) /\
  (forall key,
     Get (putAll (NewTreeMap less) entries) key
     = snd <$> last (filter (fun e => e.1 = key) entries)) /\
  (forall key value,
     Get (putAll (NewTreeMap less) entries) key = Some value
     <-> (key, value) ∈ Entries (putAll (NewTreeMap less) entries)).
Proof.
  intros Hsto.
  pose proof (putAll_tmwf _ entries (NewTreeMap_tmwf less Hsto)) as Hwf.
  pose proof (putAll_less (NewTreeMap less) entries) as Hless. simpl in Hless.
  destruct Hwf as [Hsto' Hord Hsz]. rewrite Hless in Hord.
  unfold Keys, Entries, Size. split; [|split; [|split]].
  - rewrite <- skeleton_keys. by apply ordered_sorted.
  - rewrite Hsz, <- skeleton_sizeOf, sizeOf_length, skeleton_keys. done.
  - intros key. clear Hord Hsz Hsto' Hless.
    induction entries as [|e entries IH] using rev_ind; [done|].
    rewrite putAll_snoc, filter_app, filter_cons, filter_nil.
    assert (StrictTotalOrder (TreeMap.less (putAll (NewTreeMap less) entries))) as Hs
      by (by rewrite putAll_less).
    destruct (put_then_get_lemma (putAll (NewTreeMap less) entries) e.1 e.2 Hs) as [Hsame Hother].
    destruct (decide (e.1 = key)) as [<-|Hne].
    + rewrite Hsame, last_snoc. done.
    + rewrite Hother by done. by rewrite app_nil_r.
  - intros key value. unfold Get. rewrite Hless. by apply getNode_entries.
Qed.

Lemma minNode_head (d : K * V) (left : TreeMapNode K V) (tail : list (K * V)) :
  head (inOrderTraversal left ++ d :: tail) = Some (minNode d left).
Proof.
  revert d tail. induction left as [|k v l IHl r IHr]; intros d tail; simpl.
  - done.
  - rewrite <- app_assoc. simpl. apply IHl.
Qed.

Lemma minNode_fst (d : K * V) (left : TreeMapNode K V) :
  (minNode d left).1 = BST.findMinValue d.1 (skeleton left).
Proof.
  revert d. induction left as [|k v l IHl r IHr]; intros d; simpl; [done|].
  by rewrite IHl.
Qed.

Lemma skeleton_removeRecursive less node key :
  skeleton (removeRecursive less node key)
  = BST.deleteRecursive less (skeleton node) key.
Proof.
  revert key. induction node as [|k v l IHl r IHr]; intros key; simpl; [done|].
  destruct (less key k); [simpl; by rewrite IHl|].
  destruct (less k key); [simpl; by rewrite IHr|].
  destruct l as [|lk lv ll lr]; [done|].
  destruct r as [|rk rv rl rr]; [done|].
  remember (Node rk rv rl rr) as r eqn:Er.
  cbn [skeleton]. rewrite IHr, minNode_fst. rewrite Er. done.
Qed.

Lemma entries_keys_left less node k (e : K * V) :
  (forall x, x ∈ contents (skeleton node) -> less x k = true) ->
  e ∈ inOrderTraversal node -> less e.1 k = true.
Proof.
  intros Hall He. apply Hall. rewrite skeleton_keys. by apply list_elem_of_fmap_2.
Qed.

Lemma entries_keys_right less node k (e : K * V) :
  (forall x, x ∈ contents (skeleton node) -> less k x = true) ->
  e ∈ inOrderTraversal node -> less k e.1 = true.
Proof.
  intros Hall He. apply Hall. rewrite skeleton_keys. by apply list_elem_of_fmap_2.
Qed.

Lemma removeRecursive_entries less node key :
  StrictTotalOrder less -> ordered less (skeleton node) ->
  inOrderTraversal (removeRecursive less node key)
  = filter (fun e => e.1 <> key) (inOrderTraversal node).
Proof.
  intros Hsto. revert key.
  induction node as [|k v l IHl r IHr]; intros key; simpl; [done|].
  intros (Hl & Hr & Hlv & Hrv). rewrite filter_app, filter_cons. simpl.
  pose proof (fun e => entries_keys_left less l k e Hlv) as Hlk.
  pose proof (fun e => entries_keys_right less r k e Hrv) as Hrk.
  destruct (less key k) eqn:E1.
  - simpl. rewrite IHl by done.
    rewrite decide_True by (apply not_eq_sym; by apply (less_ne less)).
    rewrite (filter_all _ (inOrderTraversal r)); [done|].
    intros e He. apply not_eq_sym, (less_ne less); [done|].
    eapply sto_trans; eauto.
  - destruct (less k key) eqn:E2.
    + simpl. rewrite IHr by done.
      rewrite decide_True by (by apply (less_ne less)).
      rewrite (filter_all _ (inOrderTraversal l)); [done|].
      intros e He. apply (less_ne less); [done|]. eapply sto_trans; eauto.
    + assert (k = key) as Heq by (by apply (sto_eq less)). subst key.
      rewrite decide_False by (intros Hn; by apply Hn).
      rewrite (filter_all _ (inOrderTraversal l))
        by (intros e He; apply (less_ne less); auto).
      rewrite (filter_all _ (inOrderTraversal r))
        by (intros e He; apply not_eq_sym, (less_ne less); auto).
      destruct l as [|lk lv ll lr]; [done|].
      destruct r as [|rk rv rl rr]; [by rewrite app_nil_r|].
      remember (Node lk lv ll lr) as l eqn:El.
      remember (Node rk rv rl rr) as r eqn:Er.
      cbn [inOrderTraversal]. rewrite IHr by done. f_equal.
      pose proof (minNode_head (rk, rv) rl (inOrderTraversal rr)) as Hhead.
      pose proof (ordered_sorted less _ Hsto Hr) as Hsorted.
      rewrite skeleton_keys in Hsorted.
      rewrite Er in Hsorted |- *. simpl in Hsorted |- *.
      destruct (inOrderTraversal rl ++ (rk, rv) :: inOrderTraversal rr)
        as [|m rest]; [done|].
      injection Hhead as Hm. rewrite <- Hm.
      rewrite filter_cons_False by (intros Hn; by apply Hn).
      destruct m as [mk mv]. simpl. f_equal.
      apply filter_all. intros e He. simpl in Hsorted.
      apply StronglySorted_inv in Hsorted as [_ Hall].
      apply not_eq_sym, (less_ne less); [done|].
      apply (proj1 (Forall_forall _ _) Hall). by apply list_elem_of_fmap_2.
Qed.

Lemma ContainsKey_keys tm key :
  tmwf tm -> ContainsKey tm key = true <-> key ∈ Keys tm.
Proof.
  intros [Hsto Hord _]. unfold ContainsKey, Keys, Entries.
  rewrite bool_decide_eq_true. split.
  - intros [[k v] Hget]. apply list_elem_of_fmap. exists (key, v). split; [done|].
    apply (getNode_entries _ _ _ _ Hsto Hord). by rewrite Hget.
  - intros Hin. apply list_elem_of_fmap in Hin as ([k v] & Hk & Hin).
    simpl in Hk. subst key.
    apply (getNode_entries _ _ _ _ Hsto Hord) in Hin.
    destruct (getNode (less tm) (root tm) k) as [p|]; [by exists p|done].
Qed.

Lemma Remove_tmwf tm key : tmwf tm -> tmwf (Remove tm key).1.
Proof.
  intros Hwf. pose proof Hwf as [Hsto Hord Hsz]. unfold Remove.
  destruct (ContainsKey tm key) eqn:Hc; [|done].
  apply (ContainsKey_keys tm key Hwf) in Hc. unfold Keys, Entries in Hc.
  rewrite <- skeleton_keys in Hc.
  split; simpl; [done| |].
  - rewrite skeleton_removeRecursive. by apply deleteRecursive_ordered.
  - rewrite Hsz, <- !skeleton_sizeOf, skeleton_removeRecursive, !sizeOf_length.
    rewrite deleteRecursive_contents by done.
    pose proof (filter_ne_length _ key _ Hsto (ordered_sorted _ _ Hsto Hord) Hc).
    lia.
Qed.

(** X13. [Remove key] on a well-formed TreeMap returns whether the key
    was contained; afterwards [Get key] is not-found, [Get] of every
    other key returns what it returned before, the entries are the old
    ones without that key, the size is one less exactly when the key was
    contained, and the map is well-formed. *)
Theorem remove_then_get tm key :
  tmwf tm ->
  (Remove tm key).2 = ContainsKey tm key /\
  Get (Remove tm key).1 key = None /\
  (forall key', key' <> key -> Get (Remove tm key).1 key' = Get tm key') /\
  Entries (Remove tm key).1 = filter (fun e => e.1 <> key) (Entries tm) /\
  Size (Remove tm key).1 = (if ContainsKey tm key then Size tm - 1 else Size tm) /\
  tmwf (Remove tm key).1.
Proof.
  intros Hwf. pose proof (Remove_tmwf tm key Hwf) as Hwf'.
  pose proof Hwf as [Hsto Hord Hsz]. pose proof Hwf' as [Hsto' Hord' _].
  assert (less (Remove tm key).1 = less tm) as Hless
    by (unfold Remove; by destruct (ContainsKey tm key)).
  assert (Entries (Remove tm key).1 = filter (fun e => e.1 <> key) (Entries tm)) as Hent.
  { unfold Remove, Entries. destruct (ContainsKey tm key) eqn:Hc; simpl.
    - by apply removeRecursive_entries.
    - symmetry. apply filter_all. intros e He Heq. subst key.
      assert (e.1 ∈ Keys tm) as Hk by (by apply list_elem_of_fmap_2).
      apply (ContainsKey_keys tm _ Hwf) in Hk. congruence. }
  assert (forall key' value,
            Get (Remove tm key).1 key' = Some value
            <-> Get tm key' = Some value /\ key' <> key) as Hget.
  { intros key' value. unfold Get.
    rewrite (getNode_entries _ _ _ _ Hsto' Hord').
    rewrite (getNode_entries _ _ _ _ Hsto Hord).
    fold (Entries (Remove tm key).1). fold (Entries tm).
    rewrite Hent, list_elem_of_filter. simpl. tauto. }
  split; [unfold Remove; by destruct (ContainsKey tm key)|].
  split.
  { destruct (Get (Remove tm key).1 key) as [value|] eqn:E; [|done].
    apply Hget in E as [_ Hne]. done. }
  split.
  { intros key' Hne. apply option_eq. intros value. rewrite Hget. tauto. }
  split; [done|]. split; [|done].
  unfold Remove, Size. by destruct (ContainsKey tm key).
Qed.

Lemma lowerRecursive_last less node key :
  StrictTotalOrder less -> ordered less (skeleton node) ->
  lowerRecursive less node key
  = last (filter (fun e => less e.1 key = true) (inOrderTraversal node)).
Proof.
  intros Hsto. induction node as [|k v l IHl r IHr]; simpl; [done|].
  intros (Hl & Hr & Hlv & Hrv). rewrite filter_app, filter_cons. simpl.
  pose proof (fun e => entries_keys_left less l k e Hlv) as Hlk.
  pose proof (fun e => entries_keys_right less r k e Hrv) as Hrk.
  destruct (less k key) eqn:E1.
  - rewrite decide_True by done. rewrite IHr by done.
    rewrite last_app, last_cons.
    by destruct (last (filter (fun e => less e.1 key = true) (inOrderTraversal r))).
  - rewrite decide_False by congruence. rewrite IHl by done.
    rewrite (filter_none _ (inOrderTraversal r)); [by rewrite app_nil_r|].
    intros e He Hlt.
    rewrite (sto_trans less Hsto k e.1 key (Hrk e He) Hlt) in E1. done.
Qed.

Lemma higherRecursive_head less node key :
  StrictTotalOrder less -> ordered less (skeleton node) ->
  higherRecursive less node key
  = head (filter (fun e => less key e.1 = true) (inOrderTraversal node)).
Proof.
  intros Hsto. induction node as [|k v l IHl r IHr]; simpl; [done|].
  intros (Hl & Hr & Hlv & Hrv). rewrite filter_app, filter_cons. simpl.
  pose proof (fun e => entries_keys_left less l k e Hlv) as Hlk.
  pose proof (fun e => entries_keys_right less r k e Hrv) as Hrk.
  destruct (less key k) eqn:E1.
  - rewrite decide_True by done. rewrite IHl by done. rewrite head_app.
    by destruct (head (filter (fun e => less key e.1 = true) (inOrderTraversal l))).
  - rewrite decide_False by congruence. rewrite IHr by done.
    rewrite (filter_none _ (inOrderTraversal l)); [done|].
    intros e He Hlt.
    rewrite (sto_trans less Hsto key e.1 k Hlt (Hlk e He)) in E1. done.
Qed.

(** X14. On a well-formed TreeMap, [Lower key] returns the last entry of
    the sorted [Entries] whose key is strictly less than [key] and
    [Higher key] the first entry whose key is strictly greater; each
    reports not-found exactly when there is no such entry. *)
Theorem lower_higher_are_strict_neighbours tm key :
  tmwf tm ->
  Lower tm key = last (filter (fun e => less tm e.1 key = true) (Entries tm)) /\
  Higher tm key = head (filter (fun e => less tm key e.1 = true) (Entries tm)).
Proof.
  intros [Hsto Hord _]. unfold Lower, Higher, Entries.
  split; [by apply lowerRecursive_last|by apply higherRecursive_head].
Qed.

End TreeMapMore.

(** ** The properties above on a TreeMap of integers *)

Lemma sampleMap_wf : tmwf sampleMap.
Proof. apply putAll_tmwf, NewTreeMap_tmwf, Zltb_strict_total. Qed.

Lemma put_then_get_witness :
  TreeMap.Get (TreeMap.Put sampleMap 4 40) 4 = Some 40 /\
  (forall key', key' <> 4 ->
     TreeMap.Get (TreeMap.Put sampleMap 4 40) key' = TreeMap.Get sampleMap key') /\
  TreeMap.Size (TreeMap.Put sampleMap 4 40)
  = (if TreeMap.ContainsKey sampleMap 4 then TreeMap.Size sampleMap
     else TreeMap.Size sampleMap + 1).
Proof.
  apply (put_then_get sampleMap 4 40). exact (tmwf_order sampleMap sampleMap_wf).
Defined.

Lemma put_sequence_is_sorted_map_witness :
  StronglySorted (fun a b => Z.ltb a b = true) (TreeMap.Keys sampleMap) /\
  Z.of_nat (length (TreeMap.Keys sampleMap)) = TreeMap.Size sampleMap /\
  (forall key,
     TreeMap.Get sampleMap key
     = snd <$> last (filter (fun e => e.1 = key) [(5, 50); (3, 30); (7, 70); (3, 31)])) /\
  (forall key value,
     TreeMap.Get sampleMap key = Some value
     <-> (key, value) ∈ TreeMap.Entries sampleMap).
Proof.
  apply (put_sequence_is_sorted_map Z.ltb [(5, 50); (3, 30); (7, 70); (3, 31)]).
  split; intros; lia.
Defined.

Lemma remove_then_get_witness :
  (TreeMap.Remove sampleMap 5).2 = TreeMap.ContainsKey sampleMap 5 /\
  TreeMap.Get (TreeMap.Remove sampleMap 5).1 5 = None /\
  (forall key', key' <> 5 ->
     TreeMap.Get (TreeMap.Remove sampleMap 5).1 key' = TreeMap.Get sampleMap key') /\
  TreeMap.Entries (TreeMap.Remove sampleMap 5).1
  = filter (fun e => e.1 <> 5) (TreeMap.Entries sampleMap) /\
  TreeMap.Size (TreeMap.Remove sampleMap 5).1
  = (if TreeMap.ContainsKey sampleMap 5 then TreeMap.Size sampleMap - 1
     else TreeMap.Size sampleMap) /\
  tmwf (TreeMap.Remove sampleMap 5).1.
Proof. exact (remove_then_get sampleMap 5 sampleMap_wf). Defined.

Lemma lower_higher_are_strict_neighbours_witness :
  TreeMap.Lower sampleMap 5
  = last (filter (fun e => TreeMap.less sampleMap e.1 5 = true) (TreeMap.Entries sampleMap)) /\
  TreeMap.Higher sampleMap 5
  = head (filter (fun e => TreeMap.less sampleMap 5 e.1 = true) (TreeMap.Entries sampleMap)).
Proof. exact (lower_higher_are_strict_neighbours sampleMap 5 sampleMap_wf). Defined.

(** The values these operations return on that map. *)
Example sampleMap_values :
  TreeMap.Entries sampleMap = [(3, 31); (5, 50); (7, 70)] /\
  TreeMap.Size sampleMap = 3 /\
  TreeMap.Get sampleMap 3 = Some 31 /\ TreeMap.Get sampleMap 4 = None /\
  TreeMap.Lower sampleMap 5 = Some (3, 31) /\ TreeMap.Higher sampleMap 7 = None /\
  TreeMap.Entries (TreeMap.Remove sampleMap 5).1 = [(3, 31); (7, 70)].
Proof. vm_compute. repeat split; reflexivity. Qed.

(* ===================================================================== *)
(** * More facts about the prefix tree                                   *)
(* ===================================================================== *)

Section TrieMore.
Context {V : Type}.
Import GoString Trie.

Implicit Types (node child : TrieNode V) (t : Trie V) (q : list Z).

Lemma holds_stored node q :
  holds node q = match stored node q with Some _ => true | None => false end.
Proof.
  unfold holds, stored. destruct (searchWalk node q) as [n|]; [|done].
  by destruct (isEnd n).
Qed.

Lemma stored_cons node c q :
  stored node (c :: q)
  = match children node !! c with Some child => stored child q | None => None end.
Proof. unfold stored. simpl. by destruct (children node !! c). Qed.

Lemma stored_newNode q : stored (@newNode V) q = None.
Proof. destruct q as [|c q]; [done|]. by rewrite stored_cons. Qed.

(** What [InsertWithValue] does to the stored words. *)
Lemma insertWalk_stored node w v q :
  stored (insertWalk node w v).1 q
  = if decide (q = w) then Some v else stored node q.
Proof.
  revert node q. induction w as [|c w IH]; intros node q; simpl.
  - destruct q as [|c' q]; [done|].
    rewrite decide_False by done. by rewrite !stored_cons.
  - pose proof (IH (match children node !! c with
                    | Some child => child | None => newNode end)) as IHc.
    destruct (insertWalk _ w v) as [child' wasEnd]. simpl in *.
    destruct q as [|c' q]; [by rewrite decide_False|].
    rewrite !stored_cons. simpl.
    destruct (decide (c' = c)) as [->|Hne].
    + rewrite lookup_insert_eq, IHc.
      destruct (decide (q = w)) as [->|Hq].
      * by rewrite decide_True.
      * rewrite decide_False by congruence.
        destruct (children node !! c); [done|apply stored_newNode].
    + rewrite lookup_insert_ne by done.
      by rewrite decide_False by congruence.
Qed.

Lemma insertWalk_wasEnd node w v : (insertWalk node w v).2 = holds node w.
Proof.
  revert node. induction w as [|c w IH]; intros node; simpl; [done|].
  pose proof (IH (match children node !! c with
                  | Some child => child | None => newNode end)) as IHc.
  destruct (insertWalk _ w v) as [child' wasEnd]. simpl in *.
  rewrite holds_cons, IHc.
  destruct (children node !! c); [done|]. by apply holds_empty.
Qed.

Lemma insertWalk_holds node w v q :
  holds (insertWalk node w v).1 q = holds node q || bool_decide (q = w).
Proof.
  rewrite !holds_stored, insertWalk_stored.
  destruct (decide (q = w)) as [->|Hne].
  - rewrite bool_decide_eq_true_2 by done. by rewrite orb_true_r.
  - rewrite bool_decide_eq_false_2 by done. by rewrite orb_false_r.
Qed.

Lemma SearchWithValue_stored t word :
  SearchWithValue t word
  = match stored (root t) (runes word) with
    | Some v => (v, true) | None => (None, false) end.
Proof.
  unfold SearchWithValue, searchNode, stored.
  destruct (searchWalk (root t) (runes word)) as [n|]; [|done].
  by destruct (isEnd n).
Qed.

(** X15. [InsertWithValue word v] on any trie: afterwards [Search] finds
    exactly the words it found before and the words with the runes of
    [word]; [SearchWithValue] returns [v] for these and what it returned
    before for every other word; [Size] grows by one exactly when
    [Search word] was false before. *)
Theorem trie_insert_then_search t word v other :
  Search (InsertWithValue t word v) other
  = Search t other || bool_decide (runes other = runes word) /\
  SearchWithValue (InsertWithValue t word v) other
  = (if bool_decide (runes other = runes word) then (v, true)
     else SearchWithValue t other) /\
  Size (InsertWithValue t word v)
  = (if Search t word then Size t else Size t + 1).
Proof.
  pose proof (insertWalk_holds (root t) (runes word) v (runes other)) as Hh.
  pose proof (insertWalk_stored (root t) (runes word) v (runes other)) as Hs.
  pose proof (insertWalk_wasEnd (root t) (runes word) v) as He.
  rewrite !SearchWithValue_stored, !Search_holds. unfold InsertWithValue, Size.
  destruct (insertWalk (root t) (runes word) v) as [root' wasEnd].
  simpl in *. subst wasEnd. split; [done|]. split; [|done].
  rewrite Hs. by case_bool_decide; [rewrite decide_True|rewrite decide_False].
Qed.


(** [t.size] after [deleteRecursive]: one less exactly when the word with
    one rune per byte of [rest] was stored. *)
Lemma deleteRecursive_size sz node rest :
  (deleteRecursive sz node rest).1.2
  = if holds node (byteRunes rest) then sz - 1 else sz.
Proof.
  revert sz node. induction rest as [|b rest IH]; intros sz node; simpl.
  - unfold holds. simpl. by destruct (isEnd node).
  - rewrite holds_cons.
    destruct (children node !! runeOfByte b) as [child|]; [|done].
    specialize (IH sz child).
    destruct (deleteRecursive sz child rest) as [[child' sz'] del].
    simpl in *. by destruct del.
Qed.

(** When the word is not stored, [deleteRecursive] writes nothing. *)
Lemma deleteRecursive_unchanged sz node rest :
  holds node (byteRunes rest) = false ->
  (deleteRecursive sz node rest).1.1 = node.
Proof.
  revert sz node. induction rest as [|b rest IH]; intros sz node; simpl.
  - unfold holds. simpl. by intros ->.
  - rewrite holds_cons.
    destruct (children node !! runeOfByte b) as [child|] eqn:Hc; [|done].
    intros Hchild. pose proof (IH sz child Hchild) as Hn.
    destruct (deleteRecursive_absent sz child rest Hchild) as [Hb _].
    destruct (deleteRecursive sz child rest) as [[child' sz'] del].
    simpl in *. subst. rewrite insert_id by done. by destruct node.
Qed.

(** X16. [Delete word] for a word of ASCII bytes, on any trie: afterwards
    [Search word] is false and [Search] of every other word is as
    before; [Size] is one
    less exactly when [Search word] was true; and when [Search word] was
    false the call returns false and leaves the trie as it was. *)
Theorem trie_delete_ascii_word t word :
  isASCII word = true ->
  Search (Delete t word).1 word = false /\
  (forall other, other <> word ->
     Search (Delete t word).1 other = Search t other) /\
  Size (Delete t word).1 = (if Search t word then Size t - 1 else Size t) /\
  (Search t word = false -> Delete t word = (t, false)).
Proof.
  intros Hascii.
  pose proof (deleteRecursive_holds (size t) (root t) word) as Hholds.
  pose proof (deleteRecursive_size (size t) (root t) word) as Hsize.
  pose proof (deleteRecursive_unchanged (size t) (root t) word) as Hsame.
  pose proof (deleteRecursive_absent (size t) (root t) word) as Habs.
  rewrite !Search_holds, (runes_ascii word Hascii). unfold Delete, Size.
  destruct (deleteRecursive (size t) (root t) word) as [[root' sz'] b].
  simpl in *. split; [|split; [|split]].
  - rewrite Hholds. rewrite bool_decide_eq_true_2 by done.
    by rewrite andb_false_r.
  - intros other Hne. rewrite !Search_holds. simpl. rewrite Hholds.
    rewrite bool_decide_eq_false_2; [by rewrite andb_true_r|].
    intros Heq. by apply Hne, runes_ascii_inj.
  - done.
  - intros Hno. rewrite Hno in Hsize. destruct (Habs Hno) as [-> _].
    rewrite (Hsame Hno). subst sz'. by destruct t.
Qed.

(** The trie after a sequence of calls holds the set the calls leave. *)
Lemma runOps_holds (ops : list (TrieOp V)) :
  (forall q, holds (root (runOps ops)) q = bool_decide (q ∈ wordsAfter ops)) /\
  size (runOps ops) = Z.of_nat (base.size (wordsAfter ops)).
Proof.
  unfold runOps, wordsAfter.
  induction ops as [|op ops IH] using rev_ind.
  - split; [|done]. intros q. rewrite bool_decide_eq_false_2 by set_solver.
    by apply holds_empty.
  - rewrite !fold_left_app. simpl.
    destruct IH as [IHh IHs].
    set (t := fold_left applyOp ops NewTrie) in *.
    set (S := fold_left wordsOp ops ∅) in *.
    destruct op as [word v|word]; simpl.
    + pose proof (insertWalk_holds (root t) (runes word) v) as Hh.
      pose proof (insertWalk_wasEnd (root t) (runes word) v) as He.
      unfold InsertWithValue.
      destruct (insertWalk (root t) (runes word) v) as [root' wasEnd].
      simpl in *. subst wasEnd. split.
      * intros q. rewrite Hh, IHh. apply eq_true_iff_eq.
        rewrite orb_true_iff, !bool_decide_eq_true. set_solver.
      * rewrite IHh, IHs. case_bool_decide as Hin.
        -- f_equal. f_equal. set_solver.
        -- rewrite size_union by set_solver. rewrite size_singleton. lia.
    + pose proof (deleteRecursive_holds (size t) (root t) word) as Hh.
      pose proof (deleteRecursive_size (size t) (root t) word) as Hs.
      unfold Delete.
      destruct (deleteRecursive (size t) (root t) word) as [[root' sz'] b].
      simpl in *. subst sz'. split.
      * intros q. rewrite Hh, IHh. apply eq_true_iff_eq.
        rewrite andb_true_iff, negb_true_iff, bool_decide_eq_false,
          !bool_decide_eq_true. set_solver.
      * rewrite IHh, IHs. case_bool_decide as Hin.
        -- assert (S = {[byteRunes word]} ∪ S ∖ {[byteRunes word]}) as HS.
           { apply set_eq. intros x. rewrite elem_of_union, elem_of_difference,
               elem_of_singleton. destruct (decide (x = byteRunes word)); naive_solver. }
           rewrite HS at 1. rewrite size_union by set_solver.
           rewrite size_singleton. lia.
        -- f_equal. f_equal. set_solver.
Qed.

(** X17. A trie built from [NewTrie] by any sequence of [InsertWithValue]
    and [Delete] calls is the set of rune sequences these calls leave
    ([Insert] adds the runes of its word, [Delete] removes the sequence
    with one rune per byte of its word): [Search] is membership of the
    runes of the word, [Size] is the number of elements, and [IsEmpty]
    tells whether the set is empty. *)
Theorem trie_is_the_set_of_its_words (ops : list (TrieOp V)) :
  (forall word,
     Search (runOps ops) word = bool_decide (runes word ∈ wordsAfter ops)) /\
  Size (runOps ops) = Z.of_nat (base.size (wordsAfter ops)) /\
  IsEmpty (runOps ops) = bool_decide (wordsAfter ops = ∅).
Proof.
  destruct (runOps_holds ops) as [Hh Hs]. split; [|split].
  - intros word. by rewrite Search_holds.
  - done.
  - unfold IsEmpty. rewrite Hs. apply eq_true_iff_eq.
    rewrite Z.eqb_eq, bool_decide_eq_true, <- leibniz_equiv_iff, <- size_empty_iff. lia.
Qed.


Lemma searchWalk_app node q q' :
  searchWalk node (q ++ q') = searchWalk node q ≫= fun n => searchWalk n q'.
Proof.
  revert node. induction q as [|c q IH]; intros node; simpl; [done|].
  destruct (children node !! c); [apply IH|done].
Qed.

Lemma holds_path node q q' :
  holds node (q ++ q') = true -> is_Some (searchWalk node q).
Proof.
  unfold holds. rewrite searchWalk_app.
  destruct (searchWalk node q); [by eexists|done].
Qed.

(** [pruned], one level at a time. *)
Lemma pruned_children node :
  pruned node
  <-> forall c child, children node !! c = Some child -> pruned child /\ live child.
Proof.
  split.
  - intros Hp c child Hc. split.
    + intros q Hq Hpath. destruct (Hp (c :: q)) as [q' Hq']; [done| |].
      * simpl. by rewrite Hc.
      * exists q'. simpl in Hq'. by rewrite holds_cons, Hc in Hq'.
    + destruct (Hp [c]) as [q' Hq']; [done| |].
      * simpl. rewrite Hc. by eexists.
      * exists q'. simpl in Hq'. by rewrite holds_cons, Hc in Hq'.
  - intros Hch [|c q] Hq Hpath; [done|]. simpl in Hpath.
    destruct (children node !! c) as [child|] eqn:Hc; [|by destruct Hpath].
    destruct (Hch c child Hc) as [Hp [w Hw]].
    destruct q as [|c' q].
    + exists w. simpl. by rewrite holds_cons, Hc.
    + destruct (Hp (c' :: q)) as [q' Hq']; [done..|].
      exists q'. simpl. rewrite holds_cons, Hc. done.
Qed.

Lemma pruned_newNode : pruned (@newNode V).
Proof. apply pruned_children. intros c child Hc. simpl in Hc. by rewrite lookup_empty in Hc. Qed.

Lemma live_child node c child q :
  children node !! c = Some child -> holds child q = true -> live node.
Proof. intros Hc Hq. exists (c :: q). by rewrite holds_cons, Hc. Qed.

Lemma insertWalk_pruned node w v :
  pruned node -> pruned (insertWalk node w v).1 /\ live (insertWalk node w v).1.
Proof.
  revert node. induction w as [|c w IH]; intros node Hp; simpl.
  - split; [|by exists []]. apply pruned_children. simpl.
    by apply pruned_children.
  - assert (pruned (match children node !! c with
                    | Some child => child | None => newNode end)) as Hchild.
    { destruct (children node !! c) as [child|] eqn:Hc; [|apply pruned_newNode].
      by apply (proj1 (pruned_children node) Hp c child). }
    specialize (IH _ Hchild).
    destruct (insertWalk _ w v) as [child' wasEnd]. simpl in *.
    destruct IH as [Hp' [q' Hq']]. split.
    + apply pruned_children. simpl. intros c' child2 Hc'.
      destruct (decide (c' = c)) as [->|Hne].
      * rewrite lookup_insert_eq in Hc'. injection Hc' as Heq. subst child2.
        split; [done|by exists q'].
      * rewrite lookup_insert_ne in Hc' by done.
        by apply (proj1 (pruned_children node) Hp c' child2).
    + exists (c :: q'). rewrite holds_cons. simpl. by rewrite lookup_insert_eq.
Qed.

(** [deleteRecursive] leaves no dead branch, and a node it does not ask
    to delete still has a word below it. *)
Lemma deleteRecursive_pruned sz node rest :
  pruned node ->
  pruned (deleteRecursive sz node rest).1.1 /\
  (live node -> (deleteRecursive sz node rest).2 = false ->
   live (deleteRecursive sz node rest).1.1).
Proof.
  revert sz node. induction rest as [|b rest IH]; intros sz node Hp; simpl.
  - destruct (isEnd node) eqn:Hend; simpl; [|done]. split.
    + apply pruned_children. simpl. by apply pruned_children.
    + intros _ Hsize. apply bool_decide_eq_false in Hsize.
      assert (children node <> ∅) as Hne.
      { intros Hem. apply Hsize. by rewrite Hem, map_size_empty. }
      apply map_choose in Hne as (c & child & Hc).
      destruct (proj1 (pruned_children node) Hp c child Hc) as [_ [q Hq]].
      exists (c :: q). rewrite holds_cons. simpl. by rewrite Hc.
  - destruct (children node !! runeOfByte b) as [child|] eqn:Hc; [|done].
    destruct (proj1 (pruned_children node) Hp _ child Hc) as [Hpc Hlc].
    specialize (IH sz child Hpc).
    destruct (deleteRecursive sz child rest) as [[child' sz'] del].
    simpl in *. destruct IH as [Hp' Hl']. destruct del; simpl.
    + split.
      * apply pruned_children. simpl. intros c' child2 Hc'.
        apply lookup_delete_Some in Hc' as [_ Hc'].
        by apply (proj1 (pruned_children node) Hp c' child2).
      * intros _ Hb. apply andb_false_iff in Hb as [Hend|Hsize].
        -- exists []. unfold holds. simpl. by destruct (isEnd node).
        -- apply bool_decide_eq_false in Hsize.
           assert (delete (runeOfByte b) (children node) <> ∅) as Hne.
           { intros Hem. apply Hsize. by rewrite Hem, map_size_empty. }
           apply map_choose in Hne as (c & child2 & Hc2).
           pose proof Hc2 as Hc2'.
           apply lookup_delete_Some in Hc2' as [_ Hc2'].
           destruct (proj1 (pruned_children node) Hp c child2 Hc2') as [_ [q Hq]].
           exists (c :: q). rewrite holds_cons. simpl. by rewrite Hc2.
    + assert (live child') as [q Hq] by by apply Hl'.
      split.
      * apply pruned_children. simpl. intros c' child2 Hc'.
        destruct (decide (c' = runeOfByte b)) as [->|Hne].
        -- rewrite lookup_insert_eq in Hc'. injection Hc' as Heq. subst child2.
           split; [done|by exists q].
        -- rewrite lookup_insert_ne in Hc' by done.
           by apply (proj1 (pruned_children node) Hp c' child2).
      * intros _ _. exists (runeOfByte b :: q). rewrite holds_cons. simpl.
        by rewrite lookup_insert_eq.
Qed.

Lemma runOps_pruned (ops : list (TrieOp V)) : pruned (root (runOps ops)).
Proof.
  unfold runOps. induction ops as [|op ops IH] using rev_ind.
  - apply pruned_newNode.
  - rewrite fold_left_app. simpl.
    set (t := fold_left applyOp ops NewTrie) in *.
    destruct op as [word v|word]; simpl.
    + pose proof (insertWalk_pruned (root t) (runes word) v IH) as [Hp _].
      unfold InsertWithValue.
      by destruct (insertWalk (root t) (runes word) v) as [root' wasEnd].
    + pose proof (deleteRecursive_pruned (size t) (root t) word IH) as [Hp _].
      unfold Delete.
      by destruct (deleteRecursive (size t) (root t) word) as [[root' sz'] b].
Qed.

(** X18. On a trie built from [NewTrie] by any sequence of
    [InsertWithValue] and [Delete] calls, [StartsWith prefix] is true
    exactly when the prefix has no rune (then also on the empty trie) or
    some word of the trie starts with the runes of the prefix: [Delete]
    leaves no branch without a word behind. *)
Theorem starts_with_iff_some_word_extends_prefix (ops : list (TrieOp V)) prefix :
  StartsWith (runOps ops) prefix = true
  <-> runes prefix = [] \/
      exists q, q ∈ wordsAfter ops /\ runes prefix `prefix_of` q.
Proof.
  destruct (runOps_holds ops) as [Hh _]. pose proof (runOps_pruned ops) as Hp.
  unfold StartsWith, searchNode. rewrite bool_decide_eq_true. split.
  - intros Hpath. destruct (runes prefix) as [|c p] eqn:Hr; [by left|right].
    destruct (Hp (c :: p)) as [q' Hq']; [done..|].
    exists ((c :: p) ++ q'). split; [|by exists q'].
    rewrite Hh in Hq'. by apply bool_decide_eq_true in Hq'.
  - intros [->|(q & Hq & q' & ->)]; [by eexists|].
    apply (holds_path _ _ q'). rewrite Hh. by apply bool_decide_eq_true.
Qed.

(** X19. On a trie built from [NewTrie] by any sequence of
    [InsertWithValue] and [Delete] calls, [Delete word] returns true
    exactly when the sequence with one rune per byte of [word] was the
    only word of the trie, that is when the call empties the trie. *)
Theorem delete_returns_true_iff_last_word (ops : list (TrieOp V)) word :
  (Delete (runOps ops) word).2
  = bool_decide (wordsAfter ops = {[byteRunes word]}).
Proof.
  destruct (runOps_holds ops) as [Hh _]. pose proof (runOps_pruned ops) as Hp.
  set (t := runOps ops) in *.
  pose proof (deleteRecursive_holds (size t) (root t) word) as Hholds.
  pose proof (deleteRecursive_absent (size t) (root t) word) as Habs.
  pose proof (deleteRecursive_pruned (size t) (root t) word Hp) as [_ Hlive].
  pose proof (deleteRecursive_prunes (size t) (root t) word) as Hprunes.
  unfold Delete.
  destruct (deleteRecursive (size t) (root t) word) as [[root' sz'] b].
  simpl in *. destruct b.
  - symmetry. apply bool_decide_eq_true.
    destruct (Hprunes root' sz' eq_refl) as [Hc He].
    assert (byteRunes word ∈ wordsAfter ops) as Hin.
    { destruct (holds (root t) (byteRunes word)) eqn:Hw.
      - rewrite Hh in Hw. by apply bool_decide_eq_true in Hw.
      - by destruct (Habs eq_refl). }
    apply set_eq. intros q. rewrite elem_of_singleton. split; [|by intros ->].
    intros Hq. destruct (decide (q = byteRunes word)) as [|Hne]; [done|].
    specialize (Hholds q). rewrite (holds_empty root' q Hc He), Hh in Hholds.
    rewrite bool_decide_eq_true_2, bool_decide_eq_false_2 in Hholds by done.
    done.
  - symmetry. apply bool_decide_eq_false. intros HS.
    destruct Hlive as [q Hq]; [|done|].
    + exists (byteRunes word). rewrite Hh. apply bool_decide_eq_true.
      rewrite HS. set_solver.
    + rewrite Hholds, Hh, HS in Hq. apply andb_true_iff in Hq as [Hin Hne].
      apply bool_decide_eq_true in Hin. apply negb_true_iff in Hne.
      apply bool_decide_eq_false in Hne. set_solver.
Qed.

End TrieMore.

(** ** The properties above on the trie of "app" and "apple" *)

Lemma trie_delete_ascii_word_witness :
  Trie.Search (Trie.Delete sampleTrie word_app).1 word_app = false /\
  (forall other, other <> word_app ->
     Trie.Search (Trie.Delete sampleTrie word_app).1 other
     = Trie.Search sampleTrie other) /\
  Trie.Size (Trie.Delete sampleTrie word_app).1
  = (if Trie.Search sampleTrie word_app then Trie.Size sampleTrie - 1
     else Trie.Size sampleTrie) /\
  (Trie.Search sampleTrie word_app = false ->
   Trie.Delete sampleTrie word_app = (sampleTrie, false)).
Proof. exact (trie_delete_ascii_word sampleTrie word_app eq_refl). Defined.

(** The values these calls return on that trie: deleting "app" leaves
    "apple" and returns false, deleting "apple" next returns true. *)
Example sampleTrie_values :
  Trie.Size sampleTrie = 2 /\
  Trie.Search sampleTrie word_app = true /\
  Trie.StartsWith sampleTrie [x61; x70] = true /\
  (Trie.Delete sampleTrie word_app).2 = false /\
  Trie.Search (Trie.Delete sampleTrie word_app).1 word_apple = true /\
  Trie.Size (Trie.Delete sampleTrie word_app).1 = 1 /\
  (Trie.Delete (Trie.Delete sampleTrie word_app).1 word_apple).2 = true /\
  Trie.StartsWith (Trie.Delete (Trie.Delete sampleTrie word_app).1 word_apple).1
    [x61] = false.
Proof. vm_compute. repeat split; reflexivity. Qed.

(* ===================================================================== *)
(** * More facts about the graph                                         *)
(* ===================================================================== *)

Section GraphMore.
Context {T : Type} `{Countable T}.
Import Graph.

Implicit Types (g : Graph T) (node u v from to : T) (visited : gset T)
  (result : list T).

(** X20. [AddEdge from to] on any graph appends [to] to the adjacency
    list of [from] and, in an undirected graph, [from] to the list of
    [to] (a self-loop is then entered twice); no other list changes,
    [from] and [to] become nodes, no other node appears or disappears,
    and the graph keeps its direction flag. *)
Theorem add_edge_appends_one_entry g from to u :
  GetNeighbors (AddEdge g from to) u
  = GetNeighbors g u
    ++ (if decide (u = from) then [to] else [])
    ++ (if decide (directed g = false /\ u = to) then [from] else []) /\
  HasNode (AddEdge g from to) u
  = HasNode g u || bool_decide (u = from) || bool_decide (u = to) /\
  HasEdge (AddEdge g from to) from to = true /\
  directed (AddEdge g from to) = directed g.
Proof.
  split; [apply GetNeighbors_AddEdge|]. split; [apply HasNode_AddEdge|].
  split; [|apply AddEdge_directed].
  apply HasEdge_edge. unfold edge. rewrite GetNeighbors_AddEdge.
  rewrite decide_True by done. set_solver.
Qed.

(** X21. [RemoveEdge from to] on any graph removes one entry [to] from
    the adjacency list of [from], and in an undirected graph one entry
    [from] from the list of [to]; an entry that is not there is not
    missed, every other count of every list is as before, and no node
    appears or disappears. An edge entered more than once is therefore
    still an edge after one [RemoveEdge]. *)
Theorem remove_edge_removes_one_entry g from to u v :
  occ v (GetNeighbors (RemoveEdge g from to) u)
  = (occ v (GetNeighbors g u)
     - (if decide (u = from /\ v = to) then 1 else 0)
     - (if decide (directed g = false /\ u = to /\ v = from) then 1 else 0))%nat /\
  HasNode (RemoveEdge g from to) u = HasNode g u /\
  HasEdge (RemoveEdge g from to) from to
  = bool_decide ((if decide (directed g = false /\ from = to) then 3 else 2)
                 <= occ to (GetNeighbors g from))%nat /\
  directed (RemoveEdge g from to) = directed g.
Proof.
  split; [apply occ_RemoveEdge|]. split; [apply HasNode_RemoveEdge|]. split; [|done].
  rewrite HasEdge_occ, occ_RemoveEdge. apply bool_decide_ext.
  rewrite (decide_True (P := from = from /\ _)) by done.
  destruct (decide (directed g = false /\ from = to)) as [[Hd ->]|Hne].
  - rewrite decide_True by done. lia.
  - rewrite decide_False by intuition congruence. lia.
Qed.


(** The loop of [RemoveNode]: one [RemoveEdge] per key. *)
Lemma fold_RemoveEdge order g node :
  NoDup order ->
  directed (fold_left (fun g from => RemoveEdge g from node) order g) = directed g /\
  (forall u, HasNode (fold_left (fun g from => RemoveEdge g from node) order g) u
             = HasNode g u) /\
  (forall u v, u <> node ->
     occ v (GetNeighbors (fold_left (fun g from => RemoveEdge g from node) order g) u)
     = (occ v (GetNeighbors g u)
        - (if decide (u ∈ order /\ v = node) then 1 else 0))%nat).
Proof.
  revert g. induction order as [|from order IH]; intros g Hnd; cbn [fold_left].
  - split; [done|]. split; [done|]. intros u v _.
    rewrite decide_False; [lia|]. intros [Hin _]. by apply elem_of_nil in Hin.
  - apply NoDup_cons in Hnd as [Hfrom Hnd].
    destruct (IH (RemoveEdge g from node) Hnd) as (Hd & Hn & Ho).
    split; [done|]. split.
    + intros u. by rewrite Hn, HasNode_RemoveEdge.
    + intros u v Hu. rewrite (Ho u v Hu), occ_RemoveEdge.
      rewrite (decide_False (P := directed g = false /\ _)) by intuition congruence.
      destruct (decide (u = from /\ v = node)) as [[-> ->]|Hne].
      * rewrite (decide_False (P := from ∈ order /\ _)) by intuition.
        rewrite decide_True; [lia|]. split; [by left|done].
      * destruct (decide (u ∈ order /\ v = node)) as [[Hin ->]|Hno].
        -- rewrite decide_True; [lia|]. split; [by right|done].
        -- rewrite decide_False; [lia|]. intros [Hin ->].
           apply elem_of_cons in Hin as [->|Hin]; [by apply Hne|by apply Hno].
Qed.

Lemma NoDup_keys g : NoDup (keys g).
Proof. apply NoDup_fst_map_to_list. Qed.

(** X22. [RemoveNode node], with the keys ranged over in any order:
    [node] is no longer a node and every other node stays; from the
    adjacency list of every other node exactly one entry [node] is
    removed, and nothing else. So [HasEdge u node] is false afterwards
    exactly for the nodes [u] that listed [node] at most once: the
    graph is free of references to [node] if and only if no edge to it
    had been entered twice. *)
Theorem remove_node_removes_one_entry_per_list order g node u v :
  order ≡ₚ keys g ->
  HasNode (RemoveNodeIn order g node) u
  = HasNode g u && negb (bool_decide (u = node)) /\
  GetNeighbors (RemoveNodeIn order g node) node = [] /\
  (u <> node ->
   occ v (GetNeighbors (RemoveNodeIn order g node) u)
   = (occ v (GetNeighbors g u) - (if decide (v = node) then 1 else 0))%nat) /\
  (u <> node ->
   HasEdge (RemoveNodeIn order g node) u node
   = bool_decide (2 <= occ node (GetNeighbors g u))%nat) /\
  RemoveNode g node = RemoveNodeIn (keys g) g node.
Proof.
  intros Hperm.
  assert (NoDup order) as Hnd by (rewrite Hperm; apply NoDup_keys).
  destruct (fold_RemoveEdge order g node Hnd) as (Hd & Hn & Ho).
  set (g' := fold_left (fun g from => RemoveEdge g from node) order g) in *.
  assert (forall x, x <> node ->
            GetNeighbors (RemoveNodeIn order g node) x = GetNeighbors g' x) as Hsame.
  { intros x Hx. unfold RemoveNodeIn, GetNeighbors. fold g'. simpl.
    by rewrite lookup_delete_ne. }
  assert (forall w, u <> node ->
    occ w (GetNeighbors (RemoveNodeIn order g node) u)
    = (occ w (GetNeighbors g u) - (if decide (w = node) then 1 else 0))%nat) as Hocc.
  { intros w Hu. rewrite (Hsame u Hu), (Ho u w Hu).
    destruct (decide (w = node)) as [->|Hw].
    - destruct (decide (u ∈ order)) as [Hin|Hout].
      + by rewrite decide_True.
      + rewrite decide_False by intuition.
        assert (GetNeighbors g u = []) as ->; [|done].
        unfold GetNeighbors. destruct (adjacency g !! u) as [l|] eqn:E; [|done].
        exfalso. apply Hout. rewrite Hperm. apply HasNode_keys.
        unfold HasNode. apply bool_decide_eq_true. rewrite E. by eexists.
    - by rewrite decide_False by intuition. }
  split; [|split; [|split; [|split]]].
  - unfold RemoveNodeIn, HasNode. fold g'. simpl.
    specialize (Hn u). unfold HasNode in Hn. rewrite <- Hn.
    apply eq_true_iff_eq.
    rewrite andb_true_iff, negb_true_iff, bool_decide_eq_false, !bool_decide_eq_true.
    destruct (decide (u = node)) as [->|Hne].
    + rewrite lookup_delete_eq. split; [by intros [? ?]|by intros [_ ?]].
    + rewrite lookup_delete_ne by done. intuition.
  - unfold RemoveNodeIn, GetNeighbors. simpl. by rewrite lookup_delete_eq.
  - apply Hocc.
  - intros Hu. rewrite HasEdge_occ, (Hocc node Hu), decide_True by done.
    apply bool_decide_ext. lia.
  - done.
Qed.

(** X23. In an undirected graph built from [NewGraph] by [AddNode],
    [AddEdge] and [RemoveEdge] calls, [v] is listed by [u] as often as
    [u] by [v]; so [HasEdge] is symmetric, and the entries of the
    adjacency lists of a node are nodes of the graph. *)
Theorem undirected_edges_are_symmetric g u v :
  built g ->
  directed g = false /\
  occ v (GetNeighbors g u) = occ u (GetNeighbors g v) /\
  HasEdge g u v = HasEdge g v u /\
  (HasEdge g u v = true -> HasNode g v = true).
Proof.
  intros Hb. destruct (built_symmetric g Hb) as [Hd Hsym].
  split; [done|]. split; [apply Hsym|]. split.
  - rewrite !HasEdge_occ. by rewrite (Hsym u v).
  - rewrite HasEdge_occ. intros Hpos. apply bool_decide_eq_true in Hpos.
    rewrite (Hsym u v) in Hpos. apply bool_decide_eq_true.
    unfold GetNeighbors in Hpos.
    destruct (adjacency g !! v); [by eexists|]. unfold occ in Hpos. simpl in Hpos. lia.
Qed.

End GraphMore.

(** ** The properties above on the graph with a doubled edge *)

Lemma sampleGraph_built : built sampleGraph.
Proof. unfold sampleGraph. do 3 apply built_edge. apply built_new. Qed.

Lemma remove_node_removes_one_entry_per_list_witness :
  Graph.HasNode (Graph.RemoveNodeIn (keys sampleGraph) sampleGraph 2) 1
  = Graph.HasNode sampleGraph 1 && negb (bool_decide (1 = 2)) /\
  Graph.GetNeighbors (Graph.RemoveNodeIn (keys sampleGraph) sampleGraph 2) 2 = [] /\
  (1 <> 2 ->
   occ 2 (Graph.GetNeighbors (Graph.RemoveNodeIn (keys sampleGraph) sampleGraph 2) 1)
   = (occ 2%Z (Graph.GetNeighbors sampleGraph 1%Z)
      - (if decide (2%Z = 2%Z) then 1 else 0))%nat) /\
  (1 <> 2 ->
   Graph.HasEdge (Graph.RemoveNodeIn (keys sampleGraph) sampleGraph 2) 1 2
   = bool_decide (2 <= occ 2%Z (Graph.GetNeighbors sampleGraph 1%Z))%nat) /\
  Graph.RemoveNode sampleGraph 2 = Graph.RemoveNodeIn (keys sampleGraph) sampleGraph 2.
Proof.
  exact (remove_node_removes_one_entry_per_list (keys sampleGraph) sampleGraph 2 1 2
           (reflexivity _)).
Defined.

Lemma undirected_edges_are_symmetric_witness :
  Graph.directed sampleGraph = false /\
  occ 2 (Graph.GetNeighbors sampleGraph 1) = occ 1 (Graph.GetNeighbors sampleGraph 2) /\
  Graph.HasEdge sampleGraph 1 2 = Graph.HasEdge sampleGraph 2 1 /\
  (Graph.HasEdge sampleGraph 1 2 = true -> Graph.HasNode sampleGraph 2 = true).
Proof. exact (undirected_edges_are_symmetric sampleGraph 1 2 sampleGraph_built). Defined.

(** The values on that graph: [RemoveNode 2] leaves one entry 2 in the
    list of 1 and none in the list of 3. *)
Example sampleGraph_values :
  Graph.GetNeighbors sampleGraph 1 = [2; 2] /\
  Graph.GetNeighbors sampleGraph 2 = [1; 3; 1] /\
  Graph.GetNeighbors (Graph.RemoveEdge sampleGraph 1 2) 1 = [2] /\
  Graph.GetNeighbors (Graph.RemoveEdge sampleGraph 1 2) 2 = [3; 1] /\
  Graph.GetNeighbors (Graph.RemoveNode sampleGraph 2) 1 = [2] /\
  Graph.GetNeighbors (Graph.RemoveNode sampleGraph 2) 3 = [] /\
  Graph.HasNode (Graph.RemoveNode sampleGraph 2) 2 = false.
Proof. vm_compute. repeat split; reflexivity. Qed.

(* ===================================================================== *)
(** * More facts about the graph searches                                *)
(* ===================================================================== *)

Section GraphSearchMore.
Context {T : Type} `{Countable T}.
Import Graph.

Implicit Types (g : Graph T) (node u v : T) (visited recStack : gset T)
  (result : list T).

(** X24. [HasCycle] decides acyclicity, on every graph and for every
    order in which the keys are ranged over: it returns, and it returns
    false exactly when no node reaches itself along one or more edges.
    The edges are the entries of the adjacency lists; in a graph whose
    lists are symmetric, as the lists of an undirected graph are, every
    edge is such a cycle, and [HasCycle] is true as soon as the graph
    has an edge. *)
Theorem has_cycle_iff_some_node_reaches_itself order g :
  order ≡ₚ keys g ->
  exists b,
    HasCycle order g = Some b /\
    (b = false <-> acyclic g) /\
    (symmetric g -> (b = true <-> exists u v, HasEdge g u v = true)).
Proof.
  intros Hperm. destruct (HasCycle_total g order Hperm) as (b & Hb & Hiff).
  exists b. split; [done|]. split; [done|]. intros Hsym. split.
  - intros ->.
    destruct (decide (map_Forall (fun _ neighbors => neighbors = []) (adjacency g)))
      as [Hall|Hsome].
    + apply no_edge_acyclic, Hiff in Hall. done.
    + apply map_not_Forall in Hsome as (u & l & Hl & Hne); [|apply _].
      destruct l as [|v l]; [done|]. exists u, v. apply HasEdge_edge.
      unfold edge, GetNeighbors. rewrite Hl. by left.
  - intros (u & v & Huv). destruct b; [done|]. exfalso.
    apply (proj1 Hiff eq_refl u).
    apply HasEdge_edge in Huv.
    assert (edge g v u) as Hvu.
    { unfold edge in *. apply occ_pos. rewrite <- (Hsym u v). by apply occ_pos. }
    eapply tc_l; [done|]. by apply tc_once.
Qed.

End GraphSearchMore.

(** ** [HasCycle] on the undirected graph with a doubled edge *)

Lemma has_cycle_iff_some_node_reaches_itself_witness :
  exists b,
    Graph.HasCycle (keys sampleGraph) sampleGraph = Some b /\
    (b = false <-> acyclic sampleGraph) /\
    (symmetric sampleGraph ->
     (b = true <-> exists u v, Graph.HasEdge sampleGraph u v = true)).
Proof.
  exact (has_cycle_iff_some_node_reaches_itself (keys sampleGraph) sampleGraph
           (reflexivity _)).
Defined.

(** [HasCycle] is true on that graph, false on the acyclic directed graph
    of the specification, and true on the undirected graph with the one
    edge 1 - 2. *)
Example has_cycle_values :
  Graph.HasCycle (keys sampleGraph) sampleGraph = Some true /\
  Graph.HasCycle (keys diamond) diamond = Some false /\
  Graph.HasCycle [1; 2] (Graph.AddEdge (Graph.NewGraph false) 1 2) = Some true.
Proof. vm_compute. repeat split; reflexivity. Qed.

(* ===================================================================== *)
(** * What the traversals visit                                          *)
(* ===================================================================== *)

Section GraphReach.
Context {T : Type} `{Countable T}.
Import Graph.

Implicit Types (g : Graph T) (node start u v : T) (visited : gset T)
  (result queue : list T).

Lemma dfsNeighbors_ok g n rec node neighbors visited result :
  dfsCallOk g n rec ->
  (forall x, x ∈ neighbors -> edge g node x) ->
  (size (universe g ∖ visited) < n)%nat -> visited ⊆ universe g ->
  exists visited' new,
    dfsNeighbors rec neighbors visited result = Some (visited', result ++ new) /\
    NoDup new /\
    (forall x, x ∈ visited' <-> x ∈ visited \/ x ∈ new) /\
    (forall x, x ∈ new -> x ∉ visited) /\
    visited' ⊆ universe g /\
    (forall x, x ∈ new -> rtc (edge g) node x) /\
    (forall u v, u ∈ new -> edge g u v -> v ∈ visited') /\
    (forall x, x ∈ neighbors -> x ∈ visited').
Proof.
  intros Hrec. revert visited result.
  induction neighbors as [|x neighbors IH];
    intros visited result Hedges Hsize Hvu; simpl.
  - exists visited, []. rewrite app_nil_r. split; [done|].
    split; [constructor|]. split; [set_solver|].
    split; [by intros ? ?%elem_of_nil|]. split; [done|].
    split; [by intros ? ?%elem_of_nil|].
    split; [by intros ? ? ?%elem_of_nil|]. by intros ? ?%elem_of_nil.
  - assert (edge g node x) as Hx by (apply Hedges; left).
    assert (forall y, y ∈ neighbors -> edge g node y) as Hrest
      by (intros y Hy; apply Hedges; by right).
    destruct (decide (x ∈ visited)) as [Hin|Hnotin].
    + destruct (IH visited result Hrest Hsize Hvu)
        as (v2 & new & -> & Hnd & Hv & Hfresh & Hu & Hreach & Hclosed & Hall).
      exists v2, new. split; [done|]. repeat (split; [done|]).
      intros y Hy. apply elem_of_cons in Hy as [->|Hy]; [|by apply Hall].
      apply Hv. by left.
    + destruct (Hrec x visited result Hsize)
        as (v1 & new1 & -> & Hnd1 & Hv1 & Hfresh1 & Hu1 & Hreach1 & Hclosed1);
        [by eapply edge_universe|done|done|].
      assert (visited ⊆ v1) as Hmono by (intros y Hy; apply Hv1; by left).
      destruct (IH v1 (result ++ x :: new1) Hrest)
        as (v2 & new2 & -> & Hnd2 & Hv2 & Hfresh2 & Hu2 & Hreach2 & Hclosed2 & Hall2);
        [|done|].
      { pose proof (size_unvisited_mono g visited v1 Hmono). lia. }
      exists v2, ((x :: new1) ++ new2). rewrite <- app_assoc. split; [done|].
      split.
      { apply NoDup_app. split; [done|]. split; [|done].
        intros y Hy Hy2. apply (Hfresh2 y Hy2). apply Hv1. by right. }
      split.
      { intros y. rewrite Hv2, Hv1, elem_of_app. tauto. }
      split.
      { intros y Hy. apply elem_of_app in Hy as [Hy|Hy]; [by apply Hfresh1|].
        intros Hyv. apply (Hfresh2 y Hy). by apply Hmono. }
      split; [done|]. split.
      { intros y Hy. apply elem_of_app in Hy as [Hy|Hy]; [|by apply Hreach2].
        eapply rtc_l; [exact Hx|]. by apply Hreach1. }
      split.
      { intros u v Hu Huv. apply elem_of_app in Hu as [Hu|Hu].
        - apply Hv2. left. by apply (Hclosed1 u v).
        - by apply (Hclosed2 u v). }
      intros y Hy. apply elem_of_cons in Hy as [->|Hy]; [|by apply Hall2].
      apply Hv2. left. apply Hv1. right. by left.
Qed.

Lemma dfsRecursive_ok g fuel : dfsCallOk g fuel (dfsRecursive fuel g).
Proof.
  induction fuel as [|fuel IH];
    intros node visited result Hsize Hnode Hfresh Hvu; [lia|].
  simpl.
  destruct (dfsNeighbors_ok g fuel (dfsRecursive fuel g) node (GetNeighbors g node)
              ({[node]} ∪ visited) (result ++ [node]) IH)
    as (v1 & new & -> & Hnd & Hv & Hfresh1 & Hu & Hreach & Hclosed & Hall).
  { done. }
  { pose proof (size_unvisited_mark g node visited Hnode Hfresh). lia. }
  { set_solver. }
  exists v1, new. rewrite <- app_assoc. split; [done|].
  split.
  { apply NoDup_cons. split; [|done]. intros Hn. apply (Hfresh1 node Hn). set_solver. }
  split.
  { intros x. rewrite Hv, elem_of_cons. set_solver. }
  split.
  { intros x Hx. apply elem_of_cons in Hx as [->|Hx]; [done|].
    intros Hxv. apply (Hfresh1 x Hx). set_solver. }
  split; [done|]. split.
  { intros x Hx. apply elem_of_cons in Hx as [->|Hx]; [apply rtc_refl|by apply Hreach]. }
  intros u v Hu' Huv. apply elem_of_cons in Hu' as [->|Hu']; [by apply Hall|].
  by apply (Hclosed u v).
Qed.

Lemma GetNeighbors_outside g node : node ∉ universe g -> GetNeighbors g node = [].
Proof.
  intros Hout. unfold GetNeighbors.
  destruct (adjacency g !! node) as [l|] eqn:E; [|done].
  exfalso. apply Hout. unfold universe. apply elem_of_union. left.
  apply elem_of_dom. by eexists.
Qed.

Lemma rtc_no_edge g u v : GetNeighbors g u = [] -> rtc (edge g) u v -> v = u.
Proof.
  intros Hn Hrtc. destruct Hrtc as [|x y z Hxy _]; [done|].
  unfold edge in Hxy. rewrite Hn in Hxy. by apply elem_of_nil in Hxy.
Qed.

(** X25. [DFS start] returns on every graph. The sequence begins with
    [start], has no repetition, and holds exactly the values that
    [start] reaches along the edges of the graph. *)
Theorem dfs_visits_reachable_nodes_once g start :
  exists result,
    DFS g start = Some result /\
    NoDup result /\
    head result = Some start /\
    (forall x, x ∈ result <-> rtc (edge g) start x).
Proof.
  unfold DFS. destruct (decide (start ∈ universe g)) as [Hin|Hout].
  - destruct (dfsRecursive_ok g (S (fuelOf g)) start ∅ [])
      as (v1 & new & -> & Hnd & Hv & _ & _ & Hreach & Hclosed); [|done|set_solver|set_solver|].
    { pose proof (size_unvisited_fuel g ∅). lia. }
    exists (start :: new). split; [done|]. split; [done|]. split; [done|].
    intros x. split; [apply Hreach|].
    intros Hrtc. apply rtc_ind_r with (P := fun x => x ∈ start :: new) in Hrtc.
    + done.
    + by left.
    + intros y z _ Hyz Hy. destruct (proj1 (Hv z)) as [Hz|Hz]; [|set_solver|done].
      by apply (Hclosed y z).
  - simpl. rewrite (GetNeighbors_outside g start Hout). simpl.
    exists [start]. split; [done|]. split; [apply NoDup_singleton|]. split; [done|].
    intros x. rewrite list_elem_of_singleton. split; [intros ->; apply rtc_refl|].
    by apply rtc_no_edge, GetNeighbors_outside.
Qed.


(** The inner loop of [BFS] appends to the queue the neighbours that
    were not visited, each once, and marks them. *)
Lemma bfsNeighbors_spec neighbors visited queue :
  exists new,
    bfsNeighbors neighbors visited queue = (list_to_set new ∪ visited, queue ++ new) /\
    NoDup new /\
    (forall x, x ∈ new -> (x ∉ visited) /\ x ∈ neighbors) /\
    (forall x, x ∈ neighbors -> x ∈ visited \/ x ∈ new).
Proof.
  revert visited queue.
  induction neighbors as [|y neighbors IH]; intros visited queue; simpl.
  - exists []. rewrite app_nil_r. split; [f_equal; set_solver|].
    split; [constructor|]. split; by intros ? ?%elem_of_nil.
  - destruct (decide (y ∈ visited)) as [Hin|Hout].
    + destruct (IH visited queue) as (new & -> & Hnd & Hnew & Hall).
      exists new. split; [done|]. split; [done|]. split.
      * intros x Hx. destruct (Hnew x Hx). split; [done|by right].
      * intros x Hx. apply elem_of_cons in Hx as [->|Hx]; [by left|by apply Hall].
    + destruct (IH ({[y]} ∪ visited) (queue ++ [y])) as (new & -> & Hnd & Hnew & Hall).
      exists (y :: new). rewrite <- app_assoc. split; [f_equal; set_solver|].
      split.
      * apply NoDup_cons. split; [|done]. intros Hy. destruct (Hnew y Hy). set_solver.
      * split.
        -- intros x Hx. apply elem_of_cons in Hx as [->|Hx]; [split; [done|by left]|].
           destruct (Hnew x Hx). split; [set_solver|by right].
        -- intros x Hx. apply elem_of_cons in Hx as [->|Hx]; [right; by left|].
           destruct (Hall x Hx) as [Hv|Hn]; [|right; by right].
           apply elem_of_union in Hv as [Hv|Hv]; [|by left].
           apply elem_of_singleton in Hv as ->. right. by left.
Qed.

Lemma bfsLoop_spec g start fuel queue visited result :
  bfsState g start queue visited result ->
  (size ((universe g ∪ {[start]}) ∖ list_to_set result) < fuel)%nat ->
  exists final,
    bfsLoop fuel g queue visited result = Some final /\
    NoDup final /\ head final = head (result ++ queue) /\
    (forall x, x ∈ final <-> rtc (edge g) start x).
Proof.
  revert queue visited result.
  induction fuel as [|fuel IH]; intros queue visited result Hst Hsize; [lia|].
  destruct Hst as [Hnd Hv Hs Hreach Hclosed Hu].
  destruct queue as [|node queue]; simpl.
  - rewrite app_nil_r in *. exists result. split; [done|]. split; [done|].
    split; [done|]. intros x. split; [intros Hx; by apply Hreach, Hv|].
    intros Hrtc. apply rtc_ind_r with (P := fun x => x ∈ result) in Hrtc.
    + done.
    + by apply Hv.
    + intros y z _ Hyz Hy. apply Hv. by apply (Hclosed y z).
  - assert (node ∉ result) as Hnr.
    { intros Hr. apply NoDup_app in Hnd as (_ & Hdis & _). apply (Hdis node Hr). by left. }
    assert (node ∈ visited) as Hnv by (apply Hv, elem_of_app; right; by left).
    assert (node ∈ (universe g ∪ {[start]}) ∖ list_to_set result) as Hn.
    { apply elem_of_difference. split; [by apply Hu|].
      by rewrite elem_of_list_to_set. }
    assert (size ((universe g ∪ {[start]}) ∖ list_to_set (result ++ [node]))
            < size ((universe g ∪ {[start]}) ∖ list_to_set result))%nat as Hless.
    { apply subset_size. split.
      - intros x. rewrite !elem_of_difference, !elem_of_list_to_set, elem_of_app. tauto.
      - intros Hsub. specialize (Hsub node Hn).
        apply elem_of_difference in Hsub as [_ Hsub]. apply Hsub.
        rewrite elem_of_list_to_set, elem_of_app. right. by left. }
    destruct fuel as [|fuel']; [lia|].
    destruct (bfsNeighbors_spec (GetNeighbors g node) visited queue)
      as (new & -> & Hndn & Hnew & Hall).
    destruct (IH (queue ++ new) (list_to_set new ∪ visited) (result ++ [node]))
      as (final & Hfinal & Hndf & Hhead & Hiff).
    + split.
      * rewrite <- app_assoc. simpl.
        assert (result ++ node :: queue ++ new = (result ++ node :: queue) ++ new) as ->
          by by rewrite <- app_assoc.
        apply NoDup_app. split; [done|]. split; [|done].
        intros x Hx Hxn. destruct (Hnew x Hxn) as [Hxv _]. by apply Hxv, Hv.
      * intros x. rewrite elem_of_union, elem_of_list_to_set, Hv, !elem_of_app,
          list_elem_of_singleton, elem_of_cons. tauto.
      * apply elem_of_union. by right.
      * intros x Hx. apply elem_of_union in Hx as [Hx|Hx]; [|by apply Hreach].
        apply elem_of_list_to_set in Hx. destruct (Hnew x Hx) as [_ Hxn].
        eapply rtc_r; [by apply Hreach|done].
      * intros u v Hu' Huv. apply elem_of_union.
        apply elem_of_app in Hu' as [Hu'|Hu'].
        -- right. by apply (Hclosed u v).
        -- apply list_elem_of_singleton in Hu' as ->.
           destruct (Hall v Huv) as [?|?]; [by right|left].
           by apply elem_of_list_to_set.
      * intros x Hx. apply elem_of_union in Hx as [Hx|Hx]; [|by apply Hu].
        apply elem_of_list_to_set in Hx. destruct (Hnew x Hx) as [_ Hxn].
        apply elem_of_union. left. by eapply edge_universe.
    + lia.
    + exists final. split; [done|]. split; [done|]. split; [|done].
      rewrite Hhead. rewrite <- app_assoc. by destruct result.
Qed.

(** X26. [BFS start] returns on every graph. The sequence begins with
    [start], has no repetition, and holds exactly the values that
    [start] reaches along the edges of the graph: the same values as
    [DFS start], in another order. *)
Theorem bfs_visits_reachable_nodes_once g start :
  exists result,
    BFS g start = Some result /\
    NoDup result /\
    head result = Some start /\
    (forall x, x ∈ result <-> rtc (edge g) start x).
Proof.
  unfold BFS.
  destruct (bfsLoop_spec g start (S (fuelOf g)) [start] {[start]} [])
    as (final & Hfinal & Hnd & Hhead & Hiff).
  - split; simpl.
    + apply NoDup_singleton.
    + intros x. by rewrite elem_of_singleton, list_elem_of_singleton.
    + by apply elem_of_singleton.
    + intros x Hx. apply elem_of_singleton in Hx as ->. apply rtc_refl.
    + by intros u v ?%elem_of_nil.
    + intros x Hx. apply elem_of_union. by right.
  - simpl. unfold fuelOf.
    assert (size ((universe g ∪ {[start]}) ∖ (∅ : gset T))
            <= size (universe g) + 1)%nat as Hle.
    { etrans; [apply (subseteq_size _ (universe g ∪ {[start]}))|].
      - intros x Hx. by apply elem_of_difference in Hx as [Hx _].
      - rewrite size_union_alt.
        assert (size (({[start]} : gset T) ∖ universe g) <= 1)%nat as Hs.
        { rewrite <- (size_singleton (C := gset T) start).
          apply subseteq_size. intros x Hx. by apply elem_of_difference in Hx as [Hx _]. }
        lia. }
    lia.
  - exists final. split; [done|]. split; [done|]. split; [by rewrite Hhead|done].
Qed.


(** In a graph with symmetric adjacency lists the edges can be walked
    backwards. *)
Lemma symmetric_edge g u v : symmetric g -> edge g u v -> edge g v u.
Proof.
  intros Hsym Huv. unfold edge in *. apply occ_pos. rewrite <- (Hsym u v).
  by apply occ_pos.
Qed.

Lemma symmetric_rtc g u v : symmetric g -> rtc (edge g) u v -> rtc (edge g) v u.
Proof.
  intros Hsym Hrtc. induction Hrtc as [|x y z Hxy _ IH]; [apply rtc_refl|].
  eapply rtc_r; [exact IH|]. by apply symmetric_edge.
Qed.

Lemma symmetric_universe g x : symmetric g -> x ∈ universe g -> HasNode g x = true.
Proof.
  intros Hsym Hx. unfold universe in Hx. apply elem_of_union in Hx as [Hx|Hx].
  - unfold HasNode. apply bool_decide_eq_true. by apply elem_of_dom.
  - apply elem_of_union_list in Hx as (X & HX & Hx).
    apply list_elem_of_fmap in HX as (neighbors & -> & Hl).
    apply list_elem_of_fmap in Hl as ([u l] & -> & Hul).
    apply elem_of_map_to_list in Hul. apply elem_of_list_to_set in Hx.
    assert (edge g u x) as Hux by (unfold edge, GetNeighbors; by rewrite Hul).
    apply symmetric_edge in Hux; [|done]. apply HasNode_keys. by eapply edge_key.
Qed.

Lemma closed_rtc g visited u v :
  (forall u v, u ∈ visited -> edge g u v -> v ∈ visited) ->
  u ∈ visited -> rtc (edge g) u v -> v ∈ visited.
Proof.
  intros Hclosed Hu Hrtc. induction Hrtc as [|x y z Hxy _ IH]; [done|].
  apply IH. by apply (Hclosed x y).
Qed.

Lemma elem_of_concat_snoc (components : list (list T)) (c : list T) x :
  x ∈ concat (components ++ [c]) <-> x ∈ concat components \/ x ∈ c.
Proof. by rewrite concat_app, elem_of_app; simpl; rewrite app_nil_r. Qed.

Lemma componentsLoop_spec g order visited components :
  symmetric g ->
  (forall x, x ∈ order -> x ∈ universe g) ->
  visited ⊆ universe g ->
  (forall x, x ∈ visited <-> x ∈ concat components) ->
  NoDup (concat components) ->
  (forall u v, u ∈ visited -> edge g u v -> v ∈ visited) ->
  (forall c, c ∈ components ->
     exists node, head c = Some node /\ forall x, x ∈ c <-> rtc (edge g) node x) ->
  exists final,
    componentsLoop g order visited components = Some final /\
    NoDup (concat final) /\
    (forall x, x ∈ visited -> x ∈ concat final) /\
    (forall x, x ∈ order -> x ∈ concat final) /\
    (forall x, x ∈ concat final -> x ∈ universe g) /\
    (forall c, c ∈ final ->
       exists node, head c = Some node /\ forall x, x ∈ c <-> rtc (edge g) node x).
Proof.
  intros Hsym. revert visited components.
  induction order as [|node order IH];
    intros visited components Horder Hvu Hv Hnd Hclosed Hcomp; cbn [componentsLoop].
  - exists components. split; [done|]. split; [done|].
    split; [by intros x ?%Hv|]. split; [by intros ? ?%elem_of_nil|]. split; [|done].
    intros x Hx. by apply Hvu, Hv.
  - assert (forall x, x ∈ order -> x ∈ universe g) as Hrest
      by (intros x Hx; apply Horder; by right).
    destruct (decide (node ∈ visited)) as [Hin|Hfresh].
    + destruct (IH visited components Hrest Hvu Hv Hnd Hclosed Hcomp)
        as (final & -> & Hndf & Hkeep & Hall & Hu & Hc).
      exists final. split; [done|]. split; [done|]. split; [done|].
      split; [|done].
      intros x Hx. apply elem_of_cons in Hx as [->|Hx]; [by apply Hkeep|by apply Hall].
    + assert (node ∈ universe g) as Hnode by (apply Horder; left).
      destruct (dfsRecursive_ok g (fuelOf g) node visited []
                  (size_unvisited_fuel g visited) Hnode Hfresh Hvu)
        as (v1 & new & -> & Hnd1 & Hv1 & Hfresh1 & Hu1 & Hreach1 & Hclosed1).
      simpl.
      assert (forall u v, u ∈ v1 -> edge g u v -> v ∈ v1) as Hclosed'.
      { intros u v Hu' Huv. apply Hv1 in Hu' as [Hu'|Hu'].
        - apply Hv1. left. by apply (Hclosed u v).
        - by apply (Hclosed1 u v). }
      destruct (IH v1 (components ++ [node :: new]) Hrest Hu1)
        as (final & -> & Hndf & Hkeep & Hall & Hu & Hc).
      { intros x. rewrite elem_of_concat_snoc, Hv1, Hv. tauto. }
      { rewrite concat_app. simpl. rewrite app_nil_r. apply NoDup_app.
        split; [done|]. split; [|done].
        intros x Hx Hxn. apply (Hfresh1 x Hxn). by apply Hv. }
      { done. }
      { intros c Hc. apply elem_of_app in Hc as [Hc|Hc]; [by apply Hcomp|].
        apply list_elem_of_singleton in Hc as ->. exists node. split; [done|].
        intros x. split; [apply Hreach1|]. intros Hrtc.
        assert (x ∈ v1) as Hx1.
        { apply (closed_rtc g v1 node x Hclosed'); [|done]. apply Hv1. right. by left. }
        apply Hv1 in Hx1 as [Hxv|Hxn]; [|done]. exfalso. apply Hfresh.
        apply (closed_rtc g visited x node Hclosed Hxv). by apply symmetric_rtc. }
      exists final. split; [done|]. split; [done|]. split.
      { intros x Hx. apply Hkeep, Hv1. by left. }
      split; [|done].
      intros x Hx. apply elem_of_cons in Hx as [->|Hx]; [|by apply Hall].
      apply Hkeep, Hv1. right. by left.
Qed.

(** X27. [ConnectedComponents] on a graph with symmetric adjacency
    lists, as the lists of an undirected graph are, for every order in
    which the keys are ranged over: it returns; every node is in exactly
    one component and nothing else is; every component holds exactly the
    nodes that are connected to its first node. [IsConnected] is true
    exactly when every node is connected to every other. *)
Theorem connected_components_partition_the_nodes order g :
  symmetric g -> order ≡ₚ keys g ->
  exists components,
    ConnectedComponents order g = Some components /\
    NoDup (concat components) /\
    (forall x, x ∈ concat components <-> HasNode g x = true) /\
    (forall c, c ∈ components ->
       exists node, head c = Some node /\ forall x, x ∈ c <-> rtc (edge g) node x) /\
    exists connected,
      IsConnected order g = Some connected /\
      (connected = true <->
       forall u v, HasNode g u = true -> HasNode g v = true -> rtc (edge g) u v).
Proof.
  intros Hsym Hperm. unfold IsConnected, ConnectedComponents.
  destruct (componentsLoop_spec g order ∅ [] Hsym)
    as (final & Hfinal & Hnd & _ & Hall & Hu & Hc).
  { intros x Hx. apply key_universe. by rewrite <- Hperm. }
  { set_solver. }
  { intros x. simpl. split; [by intros ?%elem_of_empty|by intros ?%elem_of_nil]. }
  { constructor. }
  { by intros u v ?%elem_of_empty. }
  { by intros c ?%elem_of_nil. }
  assert (forall x, x ∈ concat final <-> HasNode g x = true) as Hnodes.
  { intros x. split.
    - intros Hx. by apply symmetric_universe, Hu.
    - intros Hx. apply Hall. rewrite Hperm. by apply HasNode_keys. }
  exists final. rewrite Hfinal. split; [done|]. split; [done|]. split; [done|].
  split; [done|]. simpl. unfold IsEmpty.
  case_bool_decide as Hempty.
  - exists true. split; [done|]. split; [|done]. intros _ u v Hu' _.
    apply bool_decide_eq_true in Hu' as [l Hl].
    apply map_size_empty_iff in Hempty. rewrite Hempty in Hl.
    by rewrite lookup_empty in Hl.
  - eexists. split; [done|]. rewrite bool_decide_eq_true. split.
    + intros Hlen u v Hu' Hv'.
      destruct final as [|c [|c' final']]; simpl in Hlen; try done.
      destruct (Hc c) as (node & _ & Hcn); [by left|].
      apply Hnodes in Hu'. apply Hnodes in Hv'. simpl in Hu', Hv'.
      rewrite app_nil_r in Hu', Hv'. apply Hcn in Hu'. apply Hcn in Hv'.
      etrans; [|exact Hv']. by apply symmetric_rtc.
    + intros Hconn.
      destruct final as [|c [|c' final']]; simpl; [|done|].
      * exfalso. apply Hempty. apply map_size_empty_iff. apply map_empty.
        intros i. destruct (adjacency g !! i) as [l|] eqn:E; [|done].
        assert (HasNode g i = true) as Hi
          by (unfold HasNode; apply bool_decide_eq_true; by eexists).
        apply Hnodes in Hi. by apply elem_of_nil in Hi.
      * exfalso.
        destruct (Hc c) as (node & Hhead & Hcn); [by left|].
        destruct (Hc c') as (node' & Hhead' & Hcn'); [right; by left|].
        assert (node' ∈ c') as Hin' by (apply Hcn'; apply rtc_refl).
        assert (node ∈ c) as Hin by (apply Hcn; apply rtc_refl).
        assert (node' ∈ c) as Hboth.
        { apply Hcn, Hconn; apply Hnodes; simpl; rewrite !elem_of_app; auto. }
        simpl in Hnd. apply NoDup_app in Hnd as (_ & Hdis & _).
        apply (Hdis node' Hboth). apply elem_of_app. by left.
Qed.

End GraphReach.

(** ** The traversals at concrete inputs *)

Lemma connected_components_partition_the_nodes_witness :
  exists components,
    Graph.ConnectedComponents (keys sampleGraph) sampleGraph = Some components /\
    NoDup (concat components) /\
    (forall x, x ∈ concat components <-> Graph.HasNode sampleGraph x = true) /\
    (forall c, c ∈ components ->
       exists node, head c = Some node /\
         forall x, x ∈ c <-> rtc (edge sampleGraph) node x) /\
    exists connected,
      Graph.IsConnected (keys sampleGraph) sampleGraph = Some connected /\
      (connected = true <->
       forall u v, Graph.HasNode sampleGraph u = true ->
                   Graph.HasNode sampleGraph v = true -> rtc (edge sampleGraph) u v).
Proof.
  apply (connected_components_partition_the_nodes (keys sampleGraph) sampleGraph).
  - exact (proj2 (built_symmetric sampleGraph sampleGraph_built)).
  - reflexivity.
Defined.

(** The sequences on the acyclic directed graph of the specification and
    on the undirected graph with the two edges 1 - 2 and 3 - 4. *)
Example traversal_values :
  Graph.BFS diamond 1 = Some [1; 2; 3; 4] /\
  Graph.DFS diamond 1 = Some [1; 2; 4; 3] /\
  Graph.DFS diamond 2 = Some [2; 4] /\
  (let g := Graph.AddEdge (Graph.AddEdge (Graph.NewGraph false) 1 2) 3 4 in
   Graph.ConnectedComponents [1; 2; 3; 4] g = Some [[1; 2]; [3; 4]] /\
   Graph.ConnectedComponents [4; 2; 3; 1] g = Some [[4; 3]; [2; 1]] /\
   Graph.IsConnected [1; 2; 3; 4] g = Some false /\
   Graph.IsConnected (keys sampleGraph) sampleGraph = Some true).
Proof. vm_compute. repeat split; reflexivity. Qed.
